(** * nscloader: interval parsing, tag-aware tokenizing and the two-speaker merge

    A shallow embedding of [nscloader/interval.py] and of the classes
    [Conversation] and [CorpusLoader] of [nscloader/nscloader.py], followed
    by the properties proved about them.

    Modelling conventions.
    - A Python [str] is a list of characters of code points U+0000..U+00FF
      ([list ascii]); the character classes ([\w], [\s], [\d], [str.lower],
      [str.strip], [str.split]) are the ones Python applies to those code
      points.
    - A compiled pattern of the [re] module is a [regex] term; matching is
      the backtracking search of [re]: alternatives are tried left to right,
      repetitions are greedy, and a capture group records the text of its
      latest iteration.
    - A Python [float] is an IEEE 754 binary64 value, [spec_float] with
      precision 53 and maximal exponent 1024.
    - A raised exception is an [exn]; fallible code returns [result].
    - A generator is described by the items its body yields and by the way
      the body ends.
    - A [dict] is the list of its items in the order of insertion; the
      attributes of a loader are a record that the methods take and
      return.
    - The file system is a parameter of the loader: the listing of the
      files, [os.path.basename], [os.path.exists] and [os.path.join]; so is
      the order in which a [set] is iterated.  The calls of
      [warnings.warn] are collected in a list. *)

From Stdlib Require Import Ascii String DecimalString.
From Stdlib Require Import List Bool Arith ZArith Lia.
From Stdlib Require Import Sorted Permutation.
From Stdlib Require Import Floats.SpecFloat.
Import ListNotations.

(** ** Python strings *)

Definition str := list ascii.

(** A string literal of the source. *)
Definition py (s : string) : str := list_ascii_of_string s.

Definition code (c : ascii) : nat := nat_of_ascii c.

Definition between (lo hi n : nat) : bool := (lo <=? n) && (n <=? hi).

(** [str.isspace] on one character; also the class [\s] of [re]. *)
Definition isspace (c : ascii) : bool :=
  let n := code c in
  between 9 13 n || between 28 32 n || (n =? 133) || (n =? 160).

(** The class [\d] of [re]: the decimal digits. *)
Definition isdecimal (c : ascii) : bool := between 48 57 (code c).

(** The class [\w] of [re]: alphanumeric characters and the underscore. *)
Definition isword (c : ascii) : bool :=
  let n := code c in
  between 48 57 n || between 65 90 n || (n =? 95) || between 97 122 n
  || (n =? 170) || between 178 179 n || (n =? 181) || between 185 186 n
  || between 188 190 n || between 192 214 n || between 216 246 n
  || between 248 255 n.

Definition lower_char (c : ascii) : ascii :=
  let n := code c in
  if between 65 90 n || between 192 214 n || between 216 222 n
  then ascii_of_nat (n + 32) else c.

(** [s.lower()] *)
Definition lower (s : str) : str := map lower_char s.

Definition ascii_eqb (a b : ascii) : bool := Ascii.eqb a b.

Fixpoint str_eqb (a b : str) : bool :=
  match a, b with
  | [], [] => true
  | x :: a', y :: b' => ascii_eqb x y && str_eqb a' b'
  | _, _ => false
  end.

(** [s.startswith(p)] *)
Fixpoint startswith (s p : str) : bool :=
  match p, s with
  | [], _ => true
  | x :: p', y :: s' => ascii_eqb x y && startswith s' p'
  | _ :: _, [] => false
  end.

(** [s.endswith(p)] *)
Definition endswith (s p : str) : bool := startswith (rev s) (rev p).

(** [sub in s]: [sub] occurs in [s] as a substring. *)
Fixpoint contains (sub s : str) : bool :=
  startswith s sub ||
  match s with
  | [] => false
  | _ :: s' => contains sub s'
  end.

(** [x in l] for a list of strings. *)
Definition str_in (x : str) (l : list str) : bool := existsb (str_eqb x) l.

Fixpoint dropwhile (p : ascii -> bool) (s : str) : str :=
  match s with
  | [] => []
  | c :: s' => if p c then dropwhile p s' else s
  end.

(** [s.strip()] *)
Definition strip (s : str) : str :=
  rev (dropwhile isspace (rev (dropwhile isspace s))).

(** [s.split()]: the maximal runs of non-space characters of [s]; [cur] is
    the run being read, last character first. *)
Fixpoint split_from (cur : str) (s : str) : list str :=
  match s with
  | [] => match cur with [] => [] | _ => [rev cur] end
  | c :: s' =>
      if isspace c
      then match cur with
           | [] => split_from [] s'
           | _ => rev cur :: split_from [] s'
           end
      else split_from (c :: cur) s'
  end.

Definition split (s : str) : list str := split_from [] s.

(** [sep.join(l)] *)
Fixpoint join (sep : str) (l : list str) : str :=
  match l with
  | [] => []
  | [x] => x
  | x :: l' => x ++ sep ++ join sep l'
  end.

(** [s.replace(old, new)] for a non-empty [old]: the occurrences of [old]
    are replaced from the left, without overlap; [skip] counts the
    characters of [s] that still belong to the occurrence being replaced. *)
Fixpoint replace_from (old new : str) (skip : nat) (s : str) : str :=
  match s with
  | [] => []
  | c :: s' =>
      match skip with
      | S k => replace_from old new k s'
      | O =>
          if startswith s old
          then new ++ replace_from old new (length old - 1) s'
          else c :: replace_from old new 0 s'
      end
  end.

(** [s.replace(old, new)]; an empty [old] matches before every character
    and at the end. *)
Definition replace (old new s : str) : str :=
  match old with
  | [] => new ++ flat_map (fun c => c :: new) s
  | _ => replace_from old new 0 s
  end.

(** ** Exceptions and results *)

Inductive exn : Type :=
| ValueError (msg : str)
| AttributeError (msg : str)
| RuntimeError (msg : str)
| TypeError (msg : str)
| StopIteration.

Definition result (A : Type) : Type := (exn + A)%type.

Definition ok {A : Type} (a : A) : result A := inr a.
Definition raise {A : Type} (e : exn) : result A := inl e.

Definition bind {A B : Type} (m : result A) (f : A -> result B) : result B :=
  match m with
  | inl e => inl e
  | inr a => f a
  end.

Notation "x <- m ;; k" := (bind m (fun x => k))
  (at level 61, m at next level, right associativity).

(** ** Patterns of the [re] module *)

Inductive regex : Type :=
| Eps
| Chr (p : ascii -> bool)
| Cat (r1 r2 : regex)
| Alt (r1 r2 : regex)
| Star (r : regex)
| Group (g : nat) (r : regex).

(** The groups that took part in a match, latest capture first. *)
Definition caps := list (nat * str).

Fixpoint group (c : caps) (g : nat) : option str :=
  match c with
  | [] => None
  | (h, u) :: c' => if h =? g then Some u else group c' g
  end.

Definition set_group (g : nat) (u : str) (c : caps) : caps := (g, u) :: c.

(** The prefix of [s] that was consumed when [s1] is what remains. *)
Definition consumed (s s1 : str) : str := firstn (length s - length s1) s.

Definition answer := option (caps * str).

(** The greedy repetition of [body]: one more iteration is tried first, and
    the continuation [k] is tried when no further iteration leads to a
    match.  An iteration has to consume input (the repeated parts of the
    patterns of this module, a character class or a whole record, never
    match the empty text), so the length [n] of the input when the
    repetition starts bounds the number of iterations. *)
Fixpoint star_loop (body : str -> caps -> (str -> caps -> answer) -> answer)
  (k : str -> caps -> answer) (n : nat) (s : str) (c : caps) {struct n}
  : answer :=
  match n with
  | O => k s c
  | S n' =>
      match body s c
              (fun s1 c1 =>
                 if length s1 <? length s
                 then star_loop body k n' s1 c1 else None)
      with
      | Some x => Some x
      | None => k s c
      end
  end.

(** [rmatch r s c k] matches [r] at the start of [s] and hands what remains
    to the continuation [k]; when [k] fails, the next way of matching [r] is
    tried, in the priority order of [re]. *)
Fixpoint rmatch (r : regex) (s : str) (c : caps)
  (k : str -> caps -> answer) {struct r} : answer :=
  match r with
  | Eps => k s c
  | Chr p =>
      match s with
      | a :: s' => if p a then k s' c else None
      | [] => None
      end
  | Cat r1 r2 => rmatch r1 s c (fun s1 c1 => rmatch r2 s1 c1 k)
  | Alt r1 r2 =>
      match rmatch r1 s c k with
      | Some x => Some x
      | None => rmatch r2 s c k
      end
  | Star r1 => star_loop (rmatch r1) k (length s) s c
  | Group g r1 =>
      rmatch r1 s c (fun s1 c1 => k s1 (set_group g (consumed s s1) c1))
  end.

(** [r+], [r?], a literal string, a sequence and an alternation. *)
Definition plus (r : regex) : regex := Cat r (Star r).
Definition opt (r : regex) : regex := Alt r Eps.
Definition chr (a : ascii) : regex := Chr (ascii_eqb a).

Fixpoint lit (w : str) : regex :=
  match w with
  | [] => Eps
  | a :: w' => Cat (chr a) (lit w')
  end.

Fixpoint seq (rs : list regex) : regex :=
  match rs with
  | [] => Eps
  | r :: rs' => Cat r (seq rs')
  end.

Fixpoint alt (rs : list regex) : regex :=
  match rs with
  | [] => Eps
  | [r] => r
  | r :: rs' => Alt r (alt rs')
  end.

(** [.] matches every character except the line feed. *)
Definition dot (c : ascii) : bool := negb (code c =? 10).

(** The result of a successful match: the groups and the matched text. *)
Record Match : Type := { groups : caps; whole : str }.

(** [pattern.match(s)]: a match at the start of [s]. *)
Definition re_match (r : regex) (s : str) : option Match :=
  match rmatch r s [] (fun s1 c1 => Some (c1, s1)) with
  | Some (c, s1) => Some {| groups := c; whole := consumed s s1 |}
  | None => None
  end.

(** The matches of [pattern.finditer(s)]: the positions of [s] are tried
    from left to right, and a match resumes the scan where it ended.
    [skip] counts the characters that the previous match still covers.
    No pattern of this module matches the empty text; after an empty
    match the scan would go on one character further. *)
Fixpoint scan (r : regex) (skip : nat) (s : str) : list Match :=
  match s with
  | [] =>
      match skip with
      | O => match re_match r [] with Some m => [m] | None => [] end
      | S _ => []
      end
  | _ :: s' =>
      match skip with
      | S k => scan r k s'
      | O =>
          match re_match r s with
          | Some m => m :: scan r (length (whole m) - 1) s'
          | None => scan r 0 s'
          end
      end
  end.

Definition finditer (r : regex) (s : str) : list Match := scan r 0 s.

(** [pattern.search(s)]: the first match of the scan. *)
Definition re_search (r : regex) (s : str) : option Match :=
  hd_error (finditer r s).

(** What [findall] reports for a group: the empty string when the group
    took no part in the match. *)
Definition group_or_empty (m : Match) (g : nat) : str :=
  match group (groups m) g with
  | Some u => u
  | None => []
  end.

(** ** [interval.py]: the tag table *)

Module Tag.

Inductive t : Set :=
| PPB | PPC | PPL | PPO | FIL
| INV | Z | S | UNK | SPK | STA | NON | NPS | NEN
| MW | IN | IC
| DD | FF | HH | II
| SEN | C.

Definition value (x : t) : str :=
  py match x with
     | PPB => "(ppb)" | PPC => "(ppc)" | PPL => "(ppl)" | PPO => "(ppo)"
     | FIL => "<FIL/>"
     | INV => "**" | Z => "<Z>" | S => "<S>" | UNK => "<UNK>"
     | SPK => "<SPK/>" | STA => "<STA/>" | NON => "<NON/>" | NPS => "<NPS/>"
     | NEN => "<NEN>"
     | MW => "-" | IN => "_" | IC => "~"
     | DD => "[ ]" | FF => "( )" | HH => "# #" | II => "! !"
     | SEN => "</s>" | C => "</c>"
     end.

(** The members, in the order of their definition ([Tag.__members__]). *)
Definition members : list t :=
  [PPB; PPC; PPL; PPO; FIL; INV; Z; S; UNK; SPK; STA; NON; NPS; NEN;
   MW; IN; IC; DD; FF; HH; II; SEN; C].

Definition eq_dec (x y : t) : {x = y} + {x <> y}.
Proof. decide equality. Defined.

Definition eqb (x y : t) : bool := if eq_dec x y then true else false.

(** [x in l] for a list of tags. *)
Definition mem (x : t) (l : list t) : bool := existsb (eqb x) l.

(** [left, *right = tag.value.split()], with [right[0]] or [None]. *)
Definition pair (x : t) : str * option str :=
  match split (value x) with
  | [] => ([], None)
  | l :: r => (l, hd_error r)
  end.

(** The loop of [Tag.pairs(lowercase)]: with [lowercase] set,
    [right.lower()] is evaluated for every tag, also when [right] is
    [None]. *)
Fixpoint pairs_of (lowercase : bool) (tags : list t)
  : result (list (str * option str)) :=
  match tags with
  | [] => ok []
  | x :: tags' =>
      p <- (if lowercase
            then match snd (pair x) with
                 | Some r => ok (lower (fst (pair x)), Some (lower r))
                 | None =>
                     raise (AttributeError
                              (py "'NoneType' object has no attribute 'lower'"))
                 end
            else ok (pair x)) ;;
      out <- pairs_of lowercase tags' ;;
      ok (p :: out)
  end.

Definition pairs (lowercase : bool) : result (list (str * option str)) :=
  pairs_of lowercase members.

(** [Tag.balancedpairs(lowercase)]: the pairs that have a right part. *)
Definition balancedpairs (lowercase : bool) : result (list (str * str)) :=
  ps <- pairs lowercase ;;
  ok (flat_map
        (fun p => match snd p with
                  | Some (a :: r) => [(fst p, a :: r)]
                  | _ => []
                  end) ps).

End Tag.

(** Tags that don't describe content. *)
Definition TAGS_NONCONTENT : list Tag.t :=
  [Tag.FIL; Tag.SPK; Tag.STA; Tag.NON; Tag.NPS; Tag.SEN; Tag.C; Tag.S;
   Tag.Z; Tag.UNK; Tag.NEN; Tag.PPB; Tag.PPC; Tag.PPL; Tag.PPO; Tag.INV].

(** Tags that are counted to be part of a token. *)
Definition TAGS_CLITIC : list Tag.t := [Tag.MW; Tag.IC; Tag.IN].

(** Tags that wrap tokens. *)
Definition TAGS_BALANCED : list Tag.t := [Tag.DD; Tag.FF; Tag.HH; Tag.II].

(** [s[:n]] for an integer [n]: the first [n] characters, and for a
    negative [n] all but the last [-n] characters. *)
Definition slice_to (s : str) (n : Z) : str :=
  if (0 <=? n)%Z then firstn (Z.to_nat n) s
  else firstn (length s - Z.to_nat (- n)) s.

(** [truncated(s, maxlen)] *)
Definition truncated (s : str) (maxlen : Z) : str :=
  if (maxlen <? Z.of_nat (length s))%Z
  then slice_to s (maxlen - 3) ++ py "..."
  else s.

(** [make_regex_pattern]: one group around the alternation of the given
    patterns. *)
Definition make_regex_pattern (token_patterns : list regex) : regex :=
  Group 1 (alt token_patterns).

(** The characters of a class written as [re.escape] of each tag value. *)
Definition tag_chars (tags : list Tag.t) (c : ascii) : bool :=
  existsb (ascii_eqb c) (flat_map Tag.value tags).

Definition quote : ascii := "'"%char.
Definition space : ascii := " "%char.
(** The double quote, code point 34. *)
Definition dquote : ascii := ascii_of_nat 34.

(** ** [interval.py]: tokens *)

Module Token.

Record t : Type := {
  tag : option Tag.t;
  content : str;
  text : str;
  raw : str
}.

(** [words_pattern]: the class of the clitic characters, [\w], the
    apostrophe and the space, once or more. *)
Definition words_class (c : ascii) : bool :=
  tag_chars TAGS_CLITIC c || isword c || ascii_eqb quote c
  || ascii_eqb space c.

Definition words_pattern : regex := plus (Chr words_class).

(** The class attribute [balanced_pairs], computed from
    [Tag.balancedpairs()] when the class is created. *)
Definition balanced_pairs : list (str * str) :=
  match Tag.balancedpairs false with
  | inr ps => map (fun p => (lower (fst p), lower (snd p))) ps
  | inl _ => []
  end.

(** The first member, in table order, whose lowercased first part occurs
    in [s]. *)
Definition find_tag (s : str) : option Tag.t :=
  find (fun x => contains (hd [] (split (lower (Tag.value x)))) s)
       Tag.members.

(** The loop over [balanced_pairs]: the first pair of which exactly one
    part occurs in [s] raises. *)
Fixpoint check_balanced (raw_ s : str) (ps : list (str * str))
  : result unit :=
  match ps with
  | [] => ok tt
  | (l, r) :: ps' =>
      if Bool.eqb (contains l s) (contains r s)
      then check_balanced raw_ s ps'
      else raise (ValueError (py "unbalanced tags in " ++ raw_))
  end.

(** The property [anchor_tag]. *)
Definition anchor_tag (tg : option Tag.t) : str :=
  match tg with
  | None => []
  | Some x => hd [] (split (Tag.value x))
  end.

(** The working text from which the content is read: the text itself for
    no tag and for a clitic tag, and the text without the occurrences of
    the lowercased anchor for every other tag. *)
Definition strip_tag (tg : option Tag.t) (s : str) : str :=
  match tg with
  | None => s
  | Some x =>
      if Tag.eqb x Tag.MW then s
      else if Tag.mem x TAGS_CLITIC then s
      else replace (lower (anchor_tag tg)) [] s
  end.

(** The pair [wrapwith]: the canonical form of the tag around the
    content. *)
Definition wrapwith (tg : option Tag.t) : str * str :=
  match tg with
  | None => ([], [])
  | Some x =>
      if Tag.mem x TAGS_CLITIC then ([], [])
      else match split (Tag.value x) with
           | [] => ([], [])
           | l :: r => (l, hd [] r)
           end
  end.

(** [Token(string, cleanup)] *)
Definition init (string : str) (cleanup : bool) : result t :=
  let s := lower string in
  let tg := find_tag s in
  _ <- check_balanced string s balanced_pairs ;;
  if negb cleanup
  then ok {| tag := tg; content := s; text := s; raw := string |}
  else
    let content0 := strip_tag tg s in
    let cont := re_search words_pattern content0 in
    let content1 := match cont with Some m => whole m | None => [] end in
    let content2 := join [space] (split content1) in
    let w := wrapwith tg in
    ok {| tag := tg; content := content2;
          text := fst w ++ content2 ++ snd w; raw := string |}.

End Token.

(** ** Python numbers *)

(** A [float] is a binary64 value. *)
Definition float := spec_float.

Definition prec : Z := 53.
Definition emax : Z := 1024.

(** [x <= y] on floats. *)
Definition float_le (x y : float) : bool := SFleb x y.

(** [x == y] on floats. *)
Definition float_eq (x y : float) : bool := SFeqb x y.

(** The float nearest to [n / d] (ties to even) for [0 <= n] and [0 < d]:
    the quotient with the position of the remainder, rounded once. *)
Definition float_of_ratio (n d : Z) : float :=
  match n with
  | Zpos _ =>
      let '(q, e, l) := SFdiv_core_binary prec emax n 0 d 0 in
      binary_round_aux prec emax false q e l
  | _ => S754_zero false
  end.

Definition digit_value (c : ascii) : Z := Z.of_nat (code c - 48).

Definition int_of_digits (s : str) : Z :=
  fold_left (fun acc c => (10 * acc + digit_value c)%Z) s 0%Z.

(** A non-empty run of decimal digits. *)
Definition all_digits (s : str) : bool :=
  match s with
  | [] => false
  | _ => forallb isdecimal s
  end.

(** The longest prefix of [s] whose characters satisfy [p], and the rest. *)
Fixpoint span (p : ascii -> bool) (s : str) : str * str :=
  match s with
  | [] => ([], [])
  | c :: s' =>
      if p c then let '(u, v) := span p s' in (c :: u, v) else ([], s)
  end.

(** [int(s)] for a string of decimal digits, of any length (the limit
    that an interpreter may put on the number of digits is a setting of
    the interpreter and is not modelled).  The other literals that [int]
    reads (a sign, surrounding spaces, underscores) do not reach it from
    [interval_pattern] and are not modelled: they are refused here. *)
Definition py_int (s : str) : result Z :=
  if all_digits s then ok (int_of_digits s)
  else raise (ValueError (py "invalid literal for int() with base 10: " ++ s)).

(** [float(s)] for an unsigned decimal literal, [digits] or
    [digits.digits].  The other literals that [float] reads (a sign, an
    exponent, inf, nan, surrounding spaces, underscores) do not reach it
    from [interval_pattern] and are not modelled: they are refused here. *)
Definition py_float (s : str) : result float :=
  let '(ip, rest) := span isdecimal s in
  let bad := raise (ValueError (py "could not convert string to float: " ++ s)) in
  match ip, rest with
  | _ :: _, [] => ok (float_of_ratio (int_of_digits ip) 1)
  | _ :: _, p :: fp =>
      if ascii_eqb p "."%char && all_digits fp
      then ok (float_of_ratio (int_of_digits (ip ++ fp))
                              (10 ^ Z.of_nat (length fp)))
      else bad
  | [], _ => bad
  end.

(** ** [interval.py]: intervals *)

Module Interval.

Record t : Type := {
  index : Z;
  xmin : float;
  xmax : float;
  text : str;
  textgrid : option str;
  raw : str;
  _args : str * str * str * str * option str * str
}.

Definition digits : regex := plus (Chr isdecimal).
Definition spaces : regex := plus (Chr isspace).

(** The pattern [interval_fields]; its groups are numbered in the order of
    their opening parentheses, and the named ones are [index] (1), [xmin]
    (2), [xmax] (4) and [text] (6). *)
Definition interval_pattern : regex :=
  seq [ lit (py "intervals ["); Group 1 digits; lit (py "]:"); spaces;
        lit (py "xmin"); spaces; lit (py "="); spaces;
        Group 2 (seq [opt (Group 3 (seq [digits; lit (py ".")])); digits]);
        spaces;
        lit (py "xmax"); spaces; lit (py "="); spaces;
        Group 4 (seq [opt (Group 5 (seq [digits; lit (py ".")])); digits]);
        spaces;
        lit (py "text"); spaces; lit (py "="); spaces;
        chr dquote; Group 6 (Star (Chr dot)); chr dquote ].

Definition g_index : nat := 1.
Definition g_xmin : nat := 2.
Definition g_xmax : nat := 4.
Definition g_text : nat := 6.

(** One record of the pattern [interval_grouped], without its group. *)
Definition interval_record : regex :=
  seq [ lit (py "intervals ["); digits; lit (py "]:"); spaces;
        lit (py "xmin"); spaces; lit (py "="); spaces;
        opt (Group 2 (seq [digits; lit (py ".")])); digits;
        spaces;
        lit (py "xmax"); spaces; lit (py "="); spaces;
        opt (Group 3 (seq [digits; lit (py ".")])); digits;
        spaces;
        lit (py "text"); spaces; lit (py "="); spaces;
        chr dquote; Star (Chr dot); chr dquote ].

(** The pattern [interval_grouped]: one record or more, back to back. *)
Definition interval_grouped_pattern : regex :=
  plus (Group 1 interval_record).

(** [Interval(xmin, xmax, text, index, raw, textgrid)] on strings. *)
Definition init (xmin_ xmax_ text_ index_ raw_ : str)
  (textgrid_ : option str) : result t :=
  i <- py_int index_ ;;
  a <- py_float xmin_ ;;
  b <- py_float xmax_ ;;
  ok {| index := i; xmin := a; xmax := b; text := text_;
        textgrid := textgrid_; raw := raw_;
        _args := (xmin_, xmax_, text_, index_, textgrid_, raw_) |}.

(** [Interval.from_text(raw, textgrid)].  The named groups of a match make
    the keyword arguments of the constructor; a named group that took no
    part in the match is [None], which [int] and [float] refuse (every
    named group of [interval_pattern] is mandatory). *)
Definition from_text (raw_ : str) (textgrid_ : option str) : result t :=
  match re_match interval_pattern (strip raw_) with
  | None => raise (ValueError (py "bad interval format"))
  | Some m =>
      match group (groups m) g_index, group (groups m) g_xmin,
            group (groups m) g_xmax, group (groups m) g_text with
      | Some i, Some a, Some b, Some x => init a b x i raw_ textgrid_
      | _, _, _, _ =>
          raise (TypeError (py "argument must be a string or a number, not 'NoneType'"))
      end
  end.

(** The class between the delimiters of a balanced tag in the tokens
    pattern: [\w], the hyphen, the underscore, [\s] and the apostrophe. *)
Definition inner_class (c : ascii) : bool :=
  isword c || ascii_eqb "-"%char c || ascii_eqb "_"%char c || isspace c
  || ascii_eqb quote c.

(** The class of words and phrases in the tokens pattern: [\w], the
    clitic characters and the apostrophe. *)
Definition phrase_class (c : ascii) : bool :=
  isword c || tag_chars TAGS_CLITIC c || ascii_eqb quote c.

(** The loop [for (left, right) in balanced_tags]; a value that does not
    split in two parts cannot be unpacked. *)
Fixpoint balanced_patterns (parts : list (list str)) : result (list regex) :=
  match parts with
  | [] => ok []
  | [l; r] :: parts' =>
      rs <- balanced_patterns parts' ;;
      ok (seq [lit l; plus (Chr inner_class); lit r] :: rs)
  | _ :: _ => raise (ValueError (py "not enough values to unpack"))
  end.

(** [Interval.make_tokens_pattern()] *)
Definition make_tokens_pattern : result regex :=
  let tags := map (fun x => lit (lower (Tag.value x))) TAGS_NONCONTENT in
  let words := plus (Chr phrase_class) in
  let balanced_tags :=
    map (fun x => split (lower (Tag.value x))) TAGS_BALANCED in
  bs <- balanced_patterns balanced_tags ;;
  ok (make_regex_pattern (tags ++ [words] ++ bs)).

(** The function [maketoken] of [tokenize]: [None] for a discarded word. *)
Definition maketoken (noncontent : list str)
  (discard_fillers discard_noncontent discard_incomplete cleanup_token : bool)
  (word : str) : result (option Token.t) :=
  if (discard_incomplete && endswith word (py "~"))
     || (discard_noncontent && str_in word noncontent)
     || (discard_fillers && startswith word (py "(")
         && negb (startswith word (py "(pp")))
  then ok None
  else tok <- Token.init word cleanup_token ;; ok (Some tok).

(** [[x for x in map(f, words) if x]]: the words are mapped in order, and
    the first exception ends the comprehension. *)
Fixpoint collect (f : str -> result (option Token.t)) (words : list str)
  : result (list Token.t) :=
  match words with
  | [] => ok []
  | w :: words' =>
      x <- f w ;;
      xs <- collect f words' ;;
      ok (match x with Some tok => tok :: xs | None => xs end)
  end.

(** [findall] for a pattern with one group: the text of that group in
    every match. *)
Definition findall1 (r : regex) (s : str) : list str :=
  map (fun m => group_or_empty m 1) (finditer r s).

(** [Interval.tokenize(text, ...)] *)
Definition tokenize (text_ : str)
  (force_lowercase discard_fillers discard_noncontent discard_incomplete
     cleanup_token : bool) : result (list Token.t) :=
  let text1 := if force_lowercase then lower text_ else text_ in
  patt <- make_tokens_pattern ;;
  let noncontent0 := map Tag.value TAGS_NONCONTENT in
  let noncontent :=
    if force_lowercase then map lower noncontent0 else noncontent0 in
  collect (maketoken noncontent discard_fillers discard_noncontent
             discard_incomplete cleanup_token)
          (findall1 patt text1).

(** The property [tokens]: [tokenize] with every flag at its default. *)
Definition tokens (iv : t) : result (list Token.t) :=
  tokenize (text iv) true true true true true.

End Interval.

(** ** Generators *)

(** What the body of a generator does when it is run to its end: the
    items it yields, and then either a return ([None]) or an exception. *)
Record trace (A : Type) : Type := {
  yields : list A;
  ending : option exn
}.

Arguments yields {A} _.
Arguments ending {A} _.

Definition finish {A : Type} : trace A := {| yields := []; ending := None |}.

Definition throw {A : Type} (e : exn) : trace A :=
  {| yields := []; ending := Some e |}.

(** [yield a] followed by the rest of the body. *)
Definition yield {A : Type} (a : A) (rest : trace A) : trace A :=
  {| yields := a :: yields rest; ending := ending rest |}.

(** An exception that leaves the body of a generator reaches the consumer
    as it is, except [StopIteration], which the generator replaces by a
    [RuntimeError] (PEP 479, the rule of the language since Python 3.7): a
    generator ends without an error only by returning. *)
Definition generator_exit (e : exn) : exn :=
  match e with
  | StopIteration => RuntimeError (py "generator raised StopIteration")
  | _ => e
  end.

(** The generator object made from a body: what the consumer sees. *)
Definition generator {A : Type} (body : trace A) : trace A :=
  {| yields := yields body; ending := option_map generator_exit (ending body) |}.

(** [gen.__next__()] for a generator with the items [pending] left and the
    given ending: the next item and the items left, or the exception that
    ends the generator ([StopIteration] after a return). *)
Definition next {A : Type} (ending_ : option exn) (pending : list A)
  : result (A * list A) :=
  match pending with
  | a :: pending' => ok (a, pending')
  | [] => raise match ending_ with Some e => e | None => StopIteration end
  end.

(** ** [nscloader.py]: conversations *)

(** What [generate_intervals] yields: an interval or [False]. *)
Inductive item : Type :=
| Iv (iv : Interval.t)
| PyFalse.

Module Conversation.

Record t : Type := {
  textgrid1 : str;
  wav1 : str;
  textgrid2 : str;
  wav2 : str;
  key : option str
}.

Section Files.

(** [open_textgrid(filepath)]: the decoded text of a TextGrid file, read
    by the file layer. *)
Variable open_textgrid : str -> str.

(** The loop of [generate_intervals] over the blocks that [findall]
    reports, and the final [yield False]. *)
Fixpoint generate_from (filepath : str) (blocks : list str) : trace item :=
  match blocks with
  | [] => yield PyFalse finish
  | ivtext :: blocks' =>
      match Interval.from_text ivtext (Some filepath) with
      | inl e => throw e
      | inr iv => yield (Iv iv) (generate_from filepath blocks')
      end
  end.

(** [findall] for [interval_grouped_pattern], which has three groups: a
    tuple per match, of which the loop keeps the first component. *)
Definition located (rawtext : str) : list str :=
  map (fun m => group_or_empty m 1)
      (finditer Interval.interval_grouped_pattern rawtext).

(** [Conversation.generate_intervals(filepath)] *)
Definition generate_intervals (filepath : str) : trace item :=
  generator (generate_from filepath (located (open_textgrid filepath))).

(** The last loop of [linearize]: [iv] and what is left of its generator
    are passed through until a false item, and then [raise StopIteration]. *)
Fixpoint drain (ending_ : option exn) (iv : item) (pending : list item)
  {struct pending} : trace Interval.t :=
  match iv with
  | PyFalse => throw StopIteration
  | Iv i =>
      yield i
        match pending with
        | [] => throw match ending_ with Some e => e | None => StopIteration end
        | iv' :: pending' => drain ending_ iv' pending'
        end
  end.

(** The first loop of [linearize] while both pending items are intervals:
    the one with the smaller or equal [xmin] is yielded, the first one on
    a tie, and replaced by the next item of its generator; the loop is
    left for [drain] as soon as one of the two items is false. *)
Fixpoint merge_loop (end1 end2 : option exn)
  (iv1 : Interval.t) (pending1 : list item) {struct pending1}
  : Interval.t -> list item -> trace Interval.t :=
  fix inner (iv2 : Interval.t) (pending2 : list item) {struct pending2}
    : trace Interval.t :=
    if float_le (Interval.xmin iv1) (Interval.xmin iv2)
    then
      yield iv1
        match pending1 with
        | [] => throw match end1 with Some e => e | None => StopIteration end
        | Iv iv1' :: pending1' => merge_loop end1 end2 iv1' pending1' iv2 pending2
        | PyFalse :: _ => drain end2 (Iv iv2) pending2
        end
    else
      yield iv2
        match pending2 with
        | [] => throw match end2 with Some e => e | None => StopIteration end
        | Iv iv2' :: pending2' => inner iv2' pending2'
        | PyFalse :: _ => drain end1 (Iv iv1) pending1
        end.

(** The body of [linearize] for two generators. *)
Definition linearize_body (gen1 gen2 : trace item) : trace Interval.t :=
  match next (ending gen1) (yields gen1) with
  | inl e => throw e
  | inr (iv1, pending1) =>
      match next (ending gen2) (yields gen2) with
      | inl e => throw e
      | inr (iv2, pending2) =>
          match iv1, iv2 with
          | PyFalse, PyFalse => throw StopIteration
          | Iv a, Iv b =>
              merge_loop (ending gen1) (ending gen2) a pending1 b pending2
          | Iv _, PyFalse => drain (ending gen1) iv1 pending1
          | PyFalse, Iv _ => drain (ending gen2) iv2 pending2
          end
      end
  end.

(** [Conversation.linearize(self)] *)
Definition linearize (self : t) : trace Interval.t :=
  generator (linearize_body (generate_intervals (textgrid1 self))
                            (generate_intervals (textgrid2 self))).

End Files.

End Conversation.

(** ** [nscloader.py]: the corpus loader *)

(** A [dict] with string keys: its items, in the order in which the keys
    were inserted. *)
Definition dict (A : Type) : Type := list (str * A).

(** [d.get(k)] *)
Fixpoint dict_get {A : Type} (d : dict A) (k : str) : option A :=
  match d with
  | [] => None
  | (k', v) :: d' => if str_eqb k k' then Some v else dict_get d' k
  end.

(** [k in d] *)
Definition dict_has {A : Type} (d : dict A) (k : str) : bool :=
  match dict_get d k with
  | Some _ => true
  | None => false
  end.

(** [d[k] = v]: the value of a key that is present is replaced where the
    key stands, and a new key comes last. *)
Fixpoint dict_set {A : Type} (d : dict A) (k : str) (v : A) : dict A :=
  match d with
  | [] => [(k, v)]
  | (k', v') :: d' =>
      if str_eqb k k' then (k', v) :: d' else (k', v') :: dict_set d' k v
  end.

(** [list(d)]: the keys. *)
Definition dict_keys {A : Type} (d : dict A) : list str := map fst d.

(** [str(n)] for a natural number. *)
Definition str_of_nat (n : nat) : str :=
  py (NilZero.string_of_uint (Nat.to_uint n)).

(** [s.rsplit('.', 1)] when it has two parts: the text before the last
    point and the text after it; [None] for a text without a point,
    which [rsplit] returns whole. *)
Fixpoint rsplit_dot (s : str) : option (str * str) :=
  match s with
  | [] => None
  | c :: s' =>
      match rsplit_dot s' with
      | Some (a, b) => Some (c :: a, b)
      | None => if ascii_eqb c "."%char then Some ([], s') else None
      end
  end.

(** The pattern [r{n}]. *)
Fixpoint rep (n : nat) (r : regex) : regex :=
  match n with
  | O => Eps
  | S n' => Cat r (rep n' r)
  end.

(** The exceptions of the loader: those of the interval module, and
    three more. *)
Inductive loader_exn : Type :=
| Py (e : exn)
| FileNotFoundError (msg : str)
| AssertionError (msg : str)
| KeyError (key : str).

(** What [warnings.warn] was called with: an exception object or a
    message.  The calls are recorded in their order; what the warning
    filters of the process make of them is not modelled. *)
Inductive warning : Type :=
| WarnExn (e : exn)
| WarnMsg (msg : str).

(** A nested [dict] of folder names, as [CORPUS_STRUCTURE]. *)
#[warnings="-register-all"] Inductive folders : Type :=
| Folders (subdirs : list (str * folders)).

Module CorpusLoader.

Definition CORPUS_STRUCTURE : folders :=
  Folders
    [ (py "PART3",
       Folders
         [ (py "Audio Same BoundaryMic", Folders []);
           (py "Audio Same CloseMic", Folders []);
           (py "Audio Separate IVR", Folders []);
           (py "Audio Separate StandingMic", Folders []);
           (py "Scripts Same", Folders []);
           (py "Scripts Separate", Folders []) ]) ].

Definition digit : regex := Chr isdecimal.

(** [file_pattern_sameroom], [(\d{4})-[12]] *)
Definition file_pattern_sameroom : regex :=
  seq [ Group 1 (rep 4 digit); chr "-"%char;
        Chr (fun c => ascii_eqb "1"%char c || ascii_eqb "2"%char c) ].

(** [file_pattern_seproom], [(conf_\d{4}_\d{4})_\d{8}] *)
Definition file_pattern_seproom : regex :=
  seq [ Group 1 (seq [lit (py "conf_"); rep 4 digit; chr "_"%char;
                      rep 4 digit]);
        chr "_"%char; rep 8 digit ].

(** The attributes of a loader. *)
Record t : Type := {
  CORPUS_DIRECTORY : option str;
  file_cache : dict (dict str);
  convos_cache : dict (str * str * str * str)
}.

(** [self._init_file_cache(extensions)]: the new value of
    [self.file_cache], one empty [dict] for each extension. *)
Definition _init_file_cache (extensions : list str) : dict (dict str) :=
  fold_left (fun d ext => dict_set d ext []) extensions [].

(** [self._push_file_cache(extension, filekey, filepath, raise_error)] on
    the value of [self.file_cache]: the new value and the warnings
    issued, or the exception.  The attributes [filekey] and [filepath]
    that are set on the exception of a duplicate are not modelled. *)
Definition _push_file_cache (file_cache_ : dict (dict str))
  (extension filekey filepath : str) (raise_error : bool)
  : result (dict (dict str) * list warning) :=
  match file_cache_ with
  | [] =>
      raise (RuntimeError
               (py "must initialize file_cache first; see _init_file_cache()"))
  | _ =>
      match dict_get file_cache_ extension with
      | None =>
          raise (ValueError
                   (py "invalid extension " ++ [dquote] ++ extension
                    ++ [dquote] ++ py "; cache only expects: "
                    ++ join (py ", ") (dict_keys file_cache_)))
      | Some cache_ext =>
          match dict_get cache_ext filekey with
          | Some known =>
              let err :=
                ValueError (py "Duplicated file " ++ filepath
                            ++ py "; already exists at " ++ known ++ py ")") in
              if raise_error then raise err
              else ok (file_cache_, [WarnExn err])
          | None =>
              ok (dict_set file_cache_ extension
                    (dict_set cache_ext filekey filepath), [])
          end
      end
  end.

Section FileSystem.

(** The file system: [recursive_get_files(path)], the files that
    [os.walk] lists under [path], each joined to its folder;
    [os.path.basename]; [os.path.exists]; [os.path.join]; and
    [os.getcwd()]. *)
Variable recursive_get_files : str -> list str.
Variable basename : str -> str.
Variable path_exists : str -> bool.
Variable path_join : str -> str -> str.
Variable getcwd : str.

(** The order in which a [set] of strings is iterated, for the set of
    the given elements.  The order depends on the hashes of the strings,
    which change from one process to the next. *)
Variable iter_set : list str -> list str.

(** [cls.check_directory(rootdir, expected_structure)] *)
Fixpoint check_directory (rootdir : str) (expected_structure : folders)
  : loader_exn + unit :=
  match expected_structure with
  | Folders subdirs =>
      (fix items (l : list (str * folders)) : loader_exn + unit :=
         match l with
         | [] => inr tt
         | (subdir_name, subdir_contents) :: l' =>
             let here := path_join rootdir subdir_name in
             if negb (path_exists here) then inl (FileNotFoundError here)
             else
               match check_directory here subdir_contents with
               | inl e => inl e
               | inr _ => items l'
               end
         end) subdirs
  end.

(** [self.set_corpus_directory(path)]: the loader afterwards, or the
    exception; only [FileNotFoundError] is caught, and its text is the
    missing folder. *)
Definition set_corpus_directory (self : t) (path : str) : loader_exn + t :=
  match check_directory path CORPUS_STRUCTURE with
  | inr _ =>
      inr {| CORPUS_DIRECTORY := Some path;
             file_cache := file_cache self;
             convos_cache := convos_cache self |}
  | inl (FileNotFoundError e) =>
      inl (FileNotFoundError
             (py "Failed to set corpus directory as " ++ path
              ++ py " as it does not have the expected folder structure (missing folder "
              ++ [dquote] ++ e ++ [dquote] ++ py ")"))
  | inl e => inl e
  end.

(** [CorpusLoader(rootdir)] *)
Definition init (rootdir : str) : loader_exn + t :=
  set_corpus_directory
    {| CORPUS_DIRECTORY := None; file_cache := []; convos_cache := [] |}
    rootdir.

(** [self.get_corpus_dir()]: the directory and the loader afterwards.
    An empty path counts as no directory. *)
Definition get_corpus_dir (self : t) : loader_exn + (option str * t) :=
  match CORPUS_DIRECTORY self with
  | Some (c :: p) => inr (Some (c :: p), self)
  | _ =>
      match set_corpus_directory self getcwd with
      | inl e => inl e
      | inr self' => inr (CORPUS_DIRECTORY self', self')
      end
  end.

(** The loop of [_cache_files] over the listed files: the exception that
    ends it, if any, the value of [self.file_cache] and the warnings. *)
Fixpoint cache_loop (files : list str) (file_cache_ : dict (dict str))
  (warned : list warning) : option exn * dict (dict str) * list warning :=
  match files with
  | [] => (None, file_cache_, warned)
  | filepath :: files' =>
      let filename := basename filepath in
      match rsplit_dot (lower filename) with
      | None => cache_loop files' file_cache_ warned
      | Some (name_no_ext, ext) =>
          match ext with
          | [] => cache_loop files' file_cache_ warned
          | _ =>
              if negb (dict_has file_cache_ ext)
              then cache_loop files' file_cache_ warned
              else
                match _push_file_cache file_cache_ ext name_no_ext filepath
                        false
                with
                | inl e => (Some e, file_cache_, warned)
                | inr (cache, issued) =>
                    cache_loop files' cache (warned ++ issued)
                end
          end
      end
  end.

(** [self._cache_files(path, extensions)]: the exception, if any, the
    value of [self.file_cache] afterwards, which is what the call
    returns, and the warnings. *)
Definition _cache_files (path : str) (extensions : list str)
  : option exn * dict (dict str) * list warning :=
  cache_loop (recursive_get_files path) (_init_file_cache extensions) [].

(** [x in keys] for a set of strings. *)
Definition set_has (keys : list str) (x : str) : bool := str_in x keys.

(** [a == b] for two sets of strings. *)
Definition set_eq (a b : list str) : bool :=
  forallb (set_has b) a && forallb (set_has a) b.

(** The result of [find_matches_textgrid_to_wav]: the matches, and the
    unmatched file names under the keys [wav] and [textgrid]. *)
Definition matching : Type := (dict (str * str) * dict (list str))%type.

(** The loop that fills [matches]. *)
Fixpoint match_loop (cache : dict (dict str)) (keys : list str)
  (matches_ : dict (str * str)) : loader_exn + dict (str * str) :=
  match keys with
  | [] => inr matches_
  | filename_no_ext :: keys' =>
      match dict_get cache (py "wav") with
      | None => inl (KeyError (py "wav"))
      | Some wavs =>
          match dict_get wavs filename_no_ext with
          | None => inl (KeyError filename_no_ext)
          | Some wavpath =>
              match dict_get cache (py "textgrid") with
              | None => inl (KeyError (py "textgrid"))
              | Some tgs =>
                  match dict_get tgs filename_no_ext with
                  | None => inl (KeyError filename_no_ext)
                  | Some tgpath =>
                      match_loop cache keys'
                        (dict_set matches_ filename_no_ext (wavpath, tgpath))
                  end
              end
          end
      end
  end.

(** The list of unmatched names for one extension. *)
Definition unmatched_names (ext : str) (diff other_ext_keys : list str)
  : list str :=
  map (fun file =>
         file ++ py "." ++ replace (py "textgrid") (py "TextGrid") ext)
      (filter (fun file => negb (set_has other_ext_keys file)) diff).

(** [self.find_matches_textgrid_to_wav(raise_unmatched)]: the result or
    the exception, the loader afterwards and the warnings.  The [assert]
    statement is executed (the interpreter does not run with [-O]). *)
Definition find_matches_textgrid_to_wav (self : t) (raise_unmatched : bool)
  : (loader_exn + matching) * t * list warning :=
  match CORPUS_DIRECTORY self with
  | None =>
      (inl (Py (TypeError
                  (py "expected str, bytes or os.PathLike object, not NoneType"))),
       {| CORPUS_DIRECTORY := CORPUS_DIRECTORY self;
          file_cache := _init_file_cache [py "wav"; py "textgrid"];
          convos_cache := convos_cache self |}, [])
  | Some dir =>
      let '(raised, cache, warned) :=
        _cache_files dir [py "wav"; py "textgrid"] in
      let self' :=
        {| CORPUS_DIRECTORY := CORPUS_DIRECTORY self;
           file_cache := cache;
           convos_cache := convos_cache self |} in
      match raised with
      | Some e => (inl (Py e), self', warned)
      | None =>
          match dict_get cache (py "wav") with
          | None => (inl (KeyError (py "wav")), self', warned)
          | Some wavs =>
              match dict_get cache (py "textgrid") with
              | None => (inl (KeyError (py "textgrid")), self', warned)
              | Some tgs =>
                  let wav_keys := dict_keys wavs in
                  let tg_keys := dict_keys tgs in
                  let msg :=
                    py "failed to match some TextGrid files to WAV files or vice versa" in
                  let differ := negb (set_eq wav_keys tg_keys) in
                  if differ && raise_unmatched
                  then (inl (AssertionError msg), self', warned)
                  else
                    let warned' :=
                      if differ then warned ++ [WarnMsg msg] else warned in
                    match match_loop cache
                            (iter_set (filter (set_has tg_keys) wav_keys)) []
                    with
                    | inl e => (inl e, self', warned')
                    | inr matches_ =>
                        let diff :=
                          iter_set
                            (filter (fun k => negb (set_has tg_keys k)) wav_keys
                             ++ filter (fun k => negb (set_has wav_keys k))
                                  tg_keys) in
                        let unmatched :=
                          [ (py "wav", unmatched_names (py "wav") diff tg_keys);
                            (py "textgrid",
                             unmatched_names (py "textgrid") diff wav_keys) ] in
                        (inr (matches_, unmatched), self', warned')
                    end
              end
          end
      end
  end.

(** [convos[convokey].append(x)] for a [defaultdict(list)]. *)
Definition dict_append {A : Type} (d : dict (list A)) (k : str) (x : A)
  : dict (list A) :=
  match dict_get d k with
  | Some l => dict_set d k (l ++ [x])
  | None => dict_set d k [x]
  end.

(** The first loop of [find_convo_pairs]: the files of each match are
    collected under the conversation key that its name starts with.
    The group 1 takes part in every match of the two patterns, so
    [groups()[0]] is the text of that group. *)
Fixpoint collect_convos (items : dict (str * str))
  (convos : dict (list (str * str))) : result (dict (list (str * str))) :=
  match items with
  | [] => ok convos
  | (filename_no_ext, (wavpath, tgpath)) :: items' =>
      let found :=
        match re_match file_pattern_sameroom filename_no_ext with
        | Some m => Some m
        | None => re_match file_pattern_seproom filename_no_ext
        end in
      match found with
      | None =>
          raise (ValueError
                   (py "unrecognized filename format: " ++ filename_no_ext))
      | Some m =>
          let convokey := group_or_empty m 1 in
          collect_convos items' (dict_append convos convokey (wavpath, tgpath))
      end
  end.

(** The second loop of [find_convo_pairs]: a conversation is its two
    pairs of files, flattened. *)
Fixpoint combine_convos (convos : dict (list (str * str)))
  (convos_dict : dict (str * str * str * str))
  : result (dict (str * str * str * str)) :=
  match convos with
  | [] => ok convos_dict
  | (convokey, speakerfiles) :: convos' =>
      match speakerfiles with
      | [speaker1; speaker2] =>
          combine_convos convos'
            (dict_set convos_dict convokey
               (fst speaker1, snd speaker1, fst speaker2, snd speaker2))
      | _ =>
          raise (ValueError
                   (py "expected two pairs of files per convo but found "
                    ++ str_of_nat (length speakerfiles)
                    ++ py " pairs for " ++ convokey))
      end
  end.

(** [self.find_convo_pairs(raise_unmatched)]: the result or the
    exception, the loader afterwards and the warnings.  A cache that is
    not empty is returned as it is. *)
Definition find_convo_pairs (self : t) (raise_unmatched : bool)
  : (loader_exn + dict (str * str * str * str)) * t * list warning :=
  match convos_cache self with
  | _ :: _ => (inr (convos_cache self), self, [])
  | [] =>
      match find_matches_textgrid_to_wav self raise_unmatched with
      | (inl e, self', warned) => (inl e, self', warned)
      | (inr (matches_, unmatched), self', warned) =>
          match convos <- collect_convos matches_ [] ;;
                combine_convos convos []
          with
          | inl e => (inl (Py e), self', warned)
          | inr convos_dict =>
              (inr convos_dict,
               {| CORPUS_DIRECTORY := CORPUS_DIRECTORY self';
                  file_cache := file_cache self';
                  convos_cache := convos_dict |}, warned)
          end
      end
  end.

End FileSystem.

End CorpusLoader.

(** * The vocabulary of the properties *)

(** ** The language of a pattern *)

(** The texts that a pattern matches, whatever the way it is searched:
    the language of the pattern.  An iteration of a repetition is not
    empty. *)
Inductive matches : regex -> str -> Prop :=
| MEps : matches Eps []
| MChr (p : ascii -> bool) (a : ascii) : p a = true -> matches (Chr p) [a]
| MCat (r1 r2 : regex) (u v : str) :
    matches r1 u -> matches r2 v -> matches (Cat r1 r2) (u ++ v)
| MAltL (r1 r2 : regex) (u : str) : matches r1 u -> matches (Alt r1 r2) u
| MAltR (r1 r2 : regex) (u : str) : matches r2 u -> matches (Alt r1 r2) u
| MStar0 (r : regex) : matches (Star r) []
| MStarS (r : regex) (u v : str) :
    u <> [] -> matches r u -> matches (Star r) v -> matches (Star r) (u ++ v)
| MGroup (g : nat) (r : regex) (u : str) :
    matches r u -> matches (Group g r) u.

(** [inv] is kept by every capture that the groups of [r] can make. *)
Fixpoint group_pres (inv : caps -> Prop) (r : regex) : Prop :=
  match r with
  | Eps | Chr _ => True
  | Cat r1 r2 | Alt r1 r2 => group_pres inv r1 /\ group_pres inv r2
  | Star r1 => group_pres inv r1
  | Group g r1 =>
      group_pres inv r1 /\
      forall u c, matches r1 u -> inv c -> inv (set_group g u c)
  end.

(** Every match of [r] goes through a group numbered [g]. *)
Fixpoint sets_group (r : regex) (g : nat) : bool :=
  match r with
  | Eps | Chr _ | Star _ => false
  | Cat r1 r2 => sets_group r1 g || sets_group r2 g
  | Alt r1 r2 => sets_group r1 g && sets_group r2 g
  | Group h r1 => (h =? g) || sets_group r1 g
  end.

(** The pattern without its groups. *)
Fixpoint erase (r : regex) : regex :=
  match r with
  | Eps => Eps
  | Chr p => Chr p
  | Cat r1 r2 => Cat (erase r1) (erase r2)
  | Alt r1 r2 => Alt (erase r1) (erase r2)
  | Star r1 => Star (erase r1)
  | Group _ r1 => erase r1
  end.

(** The parts that a pattern puts in sequence, without their groups. *)
Fixpoint parts (r : regex) : list regex :=
  match r with
  | Eps => []
  | Cat r1 r2 => parts r1 ++ parts r2
  | Group _ r1 => parts r1
  | Chr p => [Chr p]
  | Alt r1 r2 => [Alt (erase r1) (erase r2)]
  | Star r1 => [Star (erase r1)]
  end.


(** ** Tokens *)

(** Exactly one part of some balanced pair occurs in [s]. *)
Definition unbalanced (s : str) : bool :=
  existsb (fun p => xorb (contains (fst p) s) (contains (snd p) s))
          Token.balanced_pairs.

(** [tokenize(text)] with every flag at its default value. *)
Definition tokenize_default (text_ : str) : result (list Token.t) :=
  Interval.tokenize text_ true true true true true.

(** The texts of the tokens of a result. *)
Definition token_texts (r : result (list Token.t)) : result (list str) :=
  toks <- r ;; ok (map Token.text toks).

(** Two tokens with the same fields. *)
Definition token_equal (a b : Token.t) : Prop :=
  Token.tag a = Token.tag b /\ Token.content a = Token.content b /\
  Token.text a = Token.text b /\ Token.raw a = Token.raw b.

(** Two results of [tokenize] that agree: the same exception, or two
    lists of the same length whose tokens are equal one by one. *)
Definition same_tokens (r1 r2 : result (list Token.t)) : Prop :=
  match r1, r2 with
  | inr l1, inr l2 => length l1 = length l2 /\ Forall2 token_equal l1 l2
  | inl e1, inl e2 => e1 = e2
  | _, _ => False
  end.

(** ** The record grammar *)

(** The input stops the class [p]: it is empty or starts outside [p]. *)
Definition stops (p : ascii -> bool) (s : str) : bool :=
  match s with
  | [] => true
  | a :: _ => negb (p a)
  end.

(** A non-empty run of characters of the class [p]. *)
Definition run (p : ascii -> bool) (w : str) : bool :=
  match w with
  | [] => false
  | _ => forallb p w
  end.

(** An unsigned decimal literal of the record grammar: digits, or digits,
    a point and digits. *)
Definition decimal_literal (F : str) : bool :=
  let '(ip, rest) := span isdecimal F in
  run isdecimal ip &&
  match rest with
  | [] => true
  | p :: fp => ascii_eqb p "."%char && run isdecimal fp
  end.

(** The numeric value of a decimal literal: the float nearest to the
    number that its digits write, the digits after the point counting as
    a power of ten in the denominator. *)
Definition literal_value (F : str) : float :=
  let '(ip, rest) := span isdecimal F in
  let fp := tl rest in
  float_of_ratio (int_of_digits (ip ++ fp)) (10 ^ Z.of_nat (length fp)).

(** The part of a decimal literal up to its point, when it has one. *)
Definition up_to_point (F : str) : option str :=
  let '(ip, rest) := span isdecimal F in
  match rest with
  | [] => None
  | p :: _ => Some (ip ++ [p])
  end.


(** The white space between the fields of a record, in the order of the
    nine places where the grammar asks for some. *)
Record spacing : Type := {
  sp_colon : str;
  sp_xmin : str; sp_xmin_eq : str; sp_xmin_val : str;
  sp_xmax : str; sp_xmax_eq : str; sp_xmax_val : str;
  sp_text : str; sp_text_eq : str
}.


(** The record [intervals [N]: xmin = F1 xmax = F2 text = "T"] written with
    the white space [w]. *)
Definition record_text (w : spacing) (N F1 F2 T : str) : str :=
  py "intervals [" ++ N ++ py "]:" ++ sp_colon w ++
  py "xmin" ++ sp_xmin w ++ py "=" ++ sp_xmin_eq w ++ F1 ++ sp_xmin_val w ++
  py "xmax" ++ sp_xmax w ++ py "=" ++ sp_xmax_eq w ++ F2 ++ sp_xmax_val w ++
  py "text" ++ sp_text w ++ py "=" ++ sp_text_eq w ++
  [dquote] ++ T ++ [dquote].



(** The spacing of a record written on one line, with single spaces. *)
Definition single_spaces : spacing :=
  {| sp_colon := [space];
     sp_xmin := [space]; sp_xmin_eq := [space]; sp_xmin_val := [space];
     sp_xmax := [space]; sp_xmax_eq := [space]; sp_xmax_val := [space];
     sp_text := [space]; sp_text_eq := [space] |}.

(** What the named groups of [interval_pattern] hold when they are set. *)
Definition fields_inv (c : caps) : Prop :=
  (forall u, group c Interval.g_index = Some u -> run isdecimal u = true) /\
  (forall u, group c Interval.g_xmin = Some u -> decimal_literal u = true) /\
  (forall u, group c Interval.g_xmax = Some u -> decimal_literal u = true).

(** ** The order of the floats *)

(** A float that is a number. *)
Definition is_number (x : float) : bool :=
  match x with
  | S754_nan => false
  | _ => true
  end.

(** The place of a number in the order of the floats: its class (the
    infinities, the sign of a finite number, zero), then its exponent and
    its mantissa. *)
Definition float_key (x : float) : Z * Z * Z :=
  match x with
  | S754_nan => (0, 0, 0)%Z
  | S754_zero _ => (0, 0, 0)%Z
  | S754_infinity true => (-2, 0, 0)%Z
  | S754_infinity false => (2, 0, 0)%Z
  | S754_finite true m e => (-1, - e, - Zpos m)%Z
  | S754_finite false m e => (1, e, Zpos m)%Z
  end.

(** The lexicographic order of the keys. *)
Definition key_le (a b : Z * Z * Z) : Prop :=
  let '(a1, a2, a3) := a in
  let '(b1, b2, b3) := b in
  (a1 < b1 \/ (a1 = b1 /\ (a2 < b2 \/ (a2 = b2 /\ a3 <= b3))))%Z.

(** ** Generators of intervals *)

(** The intervals among the items of a generator. *)
Definition intervals (g : trace item) : list Interval.t :=
  flat_map (fun y => match y with Iv iv => [iv] | PyFalse => [] end)
           (yields g).

(** An interval as [from_text] makes it from a located block. *)
Definition parsed (filepath : str) (iv : Interval.t) : Prop :=
  is_number (Interval.xmin iv) = true /\
  is_number (Interval.xmax iv) = true /\
  Interval.textgrid iv = Some filepath /\
  Interval.from_text (Interval.raw iv) (Some filepath) = ok iv.






(** ** The merge *)

(** The sequence from which an interval of the merged output comes. *)
Inductive side : Set := First | Second.

(** [out] holds every element of [l1] and of [l2] once, each tagged with
    its sequence, and keeps the order of [l1] and the order of [l2]. *)
Inductive interleaved :
  list Interval.t -> list Interval.t -> list (side * Interval.t) -> Prop :=
| il_nil : interleaved [] [] []
| il_first (a : Interval.t) (l1 l2 : list Interval.t) out :
    interleaved l1 l2 out -> interleaved (a :: l1) l2 ((First, a) :: out)
| il_second (b : Interval.t) (l1 l2 : list Interval.t) out :
    interleaved l1 l2 out -> interleaved l1 (b :: l2) ((Second, b) :: out).

(** [a.xmin <= b.xmin] *)
Definition le_xmin (a b : Interval.t) : Prop :=
  float_le (Interval.xmin a) (Interval.xmin b) = true.

(** Non-decreasing in [xmin]: each element is at most the next one. *)
Definition nondecreasing (l : list Interval.t) : Prop := Sorted le_xmin l.

(** After an element of the second sequence comes no element of the
    first sequence with an equal [xmin]: on a tie, the element of the
    first sequence is the earlier one. *)
Fixpoint ties_first (out : list (side * Interval.t)) : Prop :=
  match out with
  | [] => True
  | (First, _) :: rest => ties_first rest
  | (Second, b) :: rest =>
      (forall a, In (First, a) rest ->
                 float_eq (Interval.xmin a) (Interval.xmin b) = false) /\
      ties_first rest
  end.

(** The merge of two sequences, with the source of each element: the
    head with the smaller or equal [xmin] first, the head of [l1] on a
    tie. *)
Fixpoint merge_tagged (l1 : list Interval.t)
  : list Interval.t -> list (side * Interval.t) :=
  fix inner (l2 : list Interval.t) : list (side * Interval.t) :=
    match l1, l2 with
    | [], _ => map (pair Second) l2
    | _, [] => map (pair First) l1
    | a :: l1', b :: l2' =>
        if float_le (Interval.xmin a) (Interval.xmin b)
        then (First, a) :: merge_tagged l1' l2
        else (Second, b) :: inner l2'
    end.

(** The items that [generate_intervals] yields for the intervals [l]. *)
Definition items (l : list Interval.t) : list item := map Iv l ++ [PyFalse].

(** The generator that [generate_intervals] makes of the intervals [l]. *)
Definition gen_of (l : list Interval.t) : trace item :=
  {| yields := items l; ending := None |}.

(** No [xmin] of [l] is a NaN. *)
Definition numbers (l : list Interval.t) : Prop :=
  Forall (fun iv => is_number (Interval.xmin iv) = true) l.

(** ** Example files *)

(** A record on one line, with single spaces. *)
Definition record_line (N F1 F2 T : string) : str :=
  record_text single_spaces (py N) (py F1) (py F2) (py T).

(** The line feed. *)
Definition newline : str := [ascii_of_nat 10].

(** Two transcripts of three records each, with the [xmin] values 0.0,
    2.0, 5.0 and 1.0, 1.5, 6.0. *)
Definition speaker_a : str :=
  record_line "1" "0.0" "1.5" "hello" ++ newline ++
  record_line "2" "2.0" "4.0" "how are you" ++ newline ++
  record_line "3" "5.0" "5.5" "ok lah".

Definition speaker_b : str :=
  record_line "1" "1.0" "1.2" "hi" ++ newline ++
  record_line "2" "1.5" "1.9" "fine" ++ newline ++
  record_line "3" "6.0" "7" "bye".

(** The file layer that holds the two transcripts. *)
Definition example_files (path : str) : str :=
  if str_eqb path (py "a.TextGrid") then speaker_a
  else if str_eqb path (py "b.TextGrid") then speaker_b
  else [].

(** The conversation of the two transcripts. *)
Definition example_conversation : Conversation.t :=
  {| Conversation.textgrid1 := py "a.TextGrid";
     Conversation.wav1 := py "a.wav";
     Conversation.textgrid2 := py "b.TextGrid";
     Conversation.wav2 := py "b.wav";
     Conversation.key := None |}.

(** A conversation whose two files hold no record. *)
Definition empty_files (path : str) : str := [].

(** ** The words of the tokenizer *)

(** The pattern that [make_tokens_pattern] returns. *)
Definition tokens_pattern : regex :=
  match Interval.make_tokens_pattern with
  | inr patt => patt
  | inl _ => Eps
  end.

(** The alternatives of the tokens pattern, inside its group. *)
Definition token_alternatives : list regex :=
  map (fun x => lit (lower (Tag.value x))) TAGS_NONCONTENT
  ++ [plus (Chr Interval.phrase_class)]
  ++ map (fun p => seq [lit (fst p); plus (Chr Interval.inner_class);
                        lit (snd p)])
         Token.balanced_pairs.

(** [maketoken] discards the word. *)
Definition discarded (noncontent : list str)
  (discard_fillers discard_noncontent discard_incomplete : bool)
  (word : str) : bool :=
  (discard_incomplete && endswith word (py "~"))
  || (discard_noncontent && str_in word noncontent)
  || (discard_fillers && startswith word (py "(")
      && negb (startswith word (py "(pp"))).

(** The list [noncontent] of [tokenize]. *)
Definition noncontent_forms (force_lowercase : bool) : list str :=
  if force_lowercase then map lower (map Tag.value TAGS_NONCONTENT)
  else map Tag.value TAGS_NONCONTENT.

(** The text that [tokenize] scans. *)
Definition scanned_text (force_lowercase : bool) (text_ : str) : str :=
  if force_lowercase then lower text_ else text_.

(** The words of [ws] occur in [s] in their order, one after the other
    without overlap. *)
Inductive in_order : str -> list str -> Prop :=
| io_nil (s : str) : in_order s []
| io_cons (pre w rest : str) (ws : list str) :
    in_order rest ws -> in_order (pre ++ w ++ rest) (w :: ws).

(** A bracket or a parenthesis: a delimiter of the balance check. *)
Definition is_delimiter (a : ascii) : bool :=
  ascii_eqb a "["%char || ascii_eqb a "]"%char
  || ascii_eqb a "("%char || ascii_eqb a ")"%char.

(** The words that [tokenize] keeps. *)
Definition kept_words
  (force_lowercase discard_fillers discard_noncontent discard_incomplete : bool)
  (text_ : str) : list str :=
  filter (fun w => negb (discarded (noncontent_forms force_lowercase)
                           discard_fillers discard_noncontent
                           discard_incomplete w))
         (Interval.findall1 tokens_pattern (scanned_text force_lowercase text_)).

(** A word of the tokens pattern: a noncontent tag, a phrase, or a
    phrase between the two delimiters of a balanced tag. *)
Definition word_shape (w : str) : Prop :=
  In w (map lower (map Tag.value TAGS_NONCONTENT)) \/
  run Interval.phrase_class w = true \/
  exists l r u, In (l, r) Token.balanced_pairs /\
                run Interval.inner_class u = true /\ w = l ++ u ++ r.

(** ** Plain words *)




(** ** The first character of a match *)

(** The pattern matches the empty text. *)
Fixpoint nullable (r : regex) : bool :=
  match r with
  | Eps | Star _ => true
  | Chr _ => false
  | Cat r1 r2 => nullable r1 && nullable r2
  | Alt r1 r2 => nullable r1 || nullable r2
  | Group _ r1 => nullable r1
  end.

(** The characters with which a text of the pattern can start. *)
Fixpoint starts (r : regex) (a : ascii) : bool :=
  match r with
  | Eps => false
  | Chr p => p a
  | Cat r1 r2 => starts r1 a || (nullable r1 && starts r2 a)
  | Alt r1 r2 => starts r1 a || starts r2 a
  | Star r1 | Group _ r1 => starts r1 a
  end.

(** ** The content of a token *)

(** A character of a word of the content: a character of [words_pattern]
    that is not white space. *)
Definition content_char (c : ascii) : bool :=
  Token.words_class c && negb (isspace c).

(** ** Intervals read from text *)

(** The interval that [from_text] makes of the fields of a record. *)
Definition interval_of (N F1 F2 T raw_ : str) (textgrid_ : option str)
  : Interval.t :=
  {| Interval.index := int_of_digits N;
     Interval.xmin := literal_value F1;
     Interval.xmax := literal_value F2;
     Interval.text := T;
     Interval.textgrid := textgrid_;
     Interval.raw := raw_;
     Interval._args := (F1, F2, T, N, textgrid_, raw_) |}.


(** The float zero. *)
Definition zero : float := S754_zero false.

(** ** Files of well-formed records *)










(** ** An example file *)




(** ** The loader: folders *)

(** The folders of a structure under [rootdir], each before the folders
    that it holds. *)
Fixpoint folder_paths (path_join : str -> str -> str) (rootdir : str)
  (expected_structure : folders) : list str :=
  match expected_structure with
  | Folders subdirs =>
      (fix items (l : list (str * folders)) : list str :=
         match l with
         | [] => []
         | (subdir_name, subdir_contents) :: l' =>
             let here := path_join rootdir subdir_name in
             here :: folder_paths path_join here subdir_contents ++ items l'
         end) subdirs
  end.

(** The first folder that does not exist. *)
Definition first_missing (path_exists : str -> bool) (paths : list str)
  : option str :=
  find (fun p => negb (path_exists p)) paths.

(** The message of [set_corpus_directory] for a missing folder. *)
Definition missing_folder_message (path missing : str) : str :=
  py "Failed to set corpus directory as " ++ path
  ++ py " as it does not have the expected folder structure (missing folder "
  ++ [dquote] ++ missing ++ [dquote] ++ py ")".

(** A loader with another directory. *)
Definition with_directory (self : CorpusLoader.t) (path : str)
  : CorpusLoader.t :=
  {| CorpusLoader.CORPUS_DIRECTORY := Some path;
     CorpusLoader.file_cache := CorpusLoader.file_cache self;
     CorpusLoader.convos_cache := CorpusLoader.convos_cache self |}.

(** ** The loader: the cache of files *)

(** [file_cache[ext][key]], when both keys are present. *)
Definition cache_get (cache : dict (dict str)) (ext key : str) : option str :=
  match dict_get cache ext with
  | Some d => dict_get d key
  | None => None
  end.

(** The file is named [key.ext], whatever the case of its letters. *)
Definition file_named (basename : str -> str) (ext key filepath : str)
  : bool :=
  match rsplit_dot (lower (basename filepath)) with
  | Some (name_no_ext, e) => str_eqb name_no_ext key && str_eqb e ext
  | None => false
  end.

(** The first file named [key.ext] in the listing of the directory. *)
Definition first_file (recursive_get_files : str -> list str)
  (basename : str -> str) (dir ext key : str) : option str :=
  find (file_named basename ext key) (recursive_get_files dir).

(** The message of the failed assertion. *)
Definition unmatched_message : str :=
  py "failed to match some TextGrid files to WAV files or vice versa".

(** ** An example corpus *)

(** [os.path.basename] for paths written with slashes: the text after
    the last slash. *)
Fixpoint posix_basename (p : str) : str :=
  match p with
  | [] => []
  | c :: p' =>
      if existsb (ascii_eqb "/"%char) p' then posix_basename p'
      else if ascii_eqb c "/"%char then p' else p
  end.

(** The files of a small corpus: two speakers of the conversation 1234,
    a text file, and an audio file without a transcript. *)
Definition example_listing (dir : str) : list str :=
  map (fun f => dir ++ py f)
      [ "/PART3/Audio Same CloseMic/1234-1.wav";
        "/PART3/Audio Same CloseMic/1234-2.WAV";
        "/PART3/Audio Same CloseMic/readme.txt";
        "/PART3/Scripts Same/1234-1.TextGrid";
        "/PART3/Scripts Same/1234-2.TextGrid";
        "/PART3/Audio Separate IVR/conf_2501_2501_00862025.wav" ]%string.

(** A loader of the example corpus, without caches. *)
Definition example_loader : CorpusLoader.t :=
  {| CorpusLoader.CORPUS_DIRECTORY := Some (py "/nsc");
     CorpusLoader.file_cache := [];
     CorpusLoader.convos_cache := [] |}.

(** An iteration order of the sets: the order of the elements given. *)
Definition listed_order (l : list str) : list str := l.

(** ** The loader: conversations *)

(** The conversation key of a file name: the first group of
    [file_pattern_sameroom] or, when that pattern does not match, of
    [file_pattern_seproom], at the start of the name. *)
Definition convokey (filename_no_ext : str) : option str :=
  match re_match CorpusLoader.file_pattern_sameroom filename_no_ext with
  | Some m => Some (group_or_empty m 1)
  | None =>
      match re_match CorpusLoader.file_pattern_seproom filename_no_ext with
      | Some m => Some (group_or_empty m 1)
      | None => None
      end
  end.


(** Four decimal digits. *)
Definition four_digits (k : str) : Prop :=
  length k = 4 /\ forallb isdecimal k = true.

(** The key of a conversation recorded in one room: four digits. *)
Definition sameroom_key (k : str) : Prop := four_digits k.

(** The key of a conversation recorded in two rooms: [conf_], four
    digits, an underscore and four digits. *)
Definition seproom_key (k : str) : Prop :=
  exists a b, k = py "conf_" ++ a ++ py "_" ++ b /\
              four_digits a /\ four_digits b.

(** The pattern has no group. *)
Fixpoint group_free (r : regex) : bool :=
  match r with
  | Eps | Chr _ => true
  | Cat r1 r2 | Alt r1 r2 => group_free r1 && group_free r2
  | Star r1 => group_free r1
  | Group _ _ => false
  end.

(** * Properties *)

(** ** Tokens: the balance check *)

Lemma balanced_pairs_value :
  Token.balanced_pairs =
  [(py "[", py "]"); (py "(", py ")"); (py "#", py "#"); (py "!", py "!")].
Proof. reflexivity. Qed.

Lemma check_balanced_spec (raw_ s : str) (ps : list (str * str)) :
  Token.check_balanced raw_ s ps =
  if existsb (fun p => xorb (contains (fst p) s) (contains (snd p) s)) ps
  then raise (ValueError (py "unbalanced tags in " ++ raw_))
  else ok tt.
Proof.
  induction ps as [|[l r] ps IH]; simpl; [reflexivity|].
  destruct (contains l s), (contains r s); simpl; auto.
Qed.

Lemma unbalanced_iff (s : str) :
  unbalanced s = true <->
  exists l r, In (l, r) Token.balanced_pairs /\ contains l s <> contains r s.
Proof.
  unfold unbalanced. rewrite existsb_exists. split.
  - intros [[l r] [Hin Hx]]. exists l, r. split; [exact Hin|].
    simpl in Hx. destruct (contains l s), (contains r s); discriminate.
  - intros (l & r & Hin & Hne). exists (l, r). split; [exact Hin|].
    revert Hne. simpl. destruct (contains l s), (contains r s); simpl; congruence.
Qed.

(** C2. [Token(raw, cleanup)] raises the balance error exactly when, for
    some pair of [balanced_pairs], exactly one of its two parts occurs in
    the lowercased text; otherwise it returns a token, whatever the order
    or nesting of the delimiters (a token such as "]lah[" is accepted). *)
Theorem token_balance_check (raw_ : str) (cleanup : bool) :
  (unbalanced (lower raw_) = true <->
   exists l r, In (l, r) Token.balanced_pairs /\
               contains l (lower raw_) <> contains r (lower raw_)) /\
  (if unbalanced (lower raw_)
   then Token.init raw_ cleanup =
        raise (ValueError (py "unbalanced tags in " ++ raw_))
   else exists tok, Token.init raw_ cleanup = ok tok /\ Token.raw tok = raw_) /\
  (exists tok, Token.init (py "]lah[") true = ok tok).
Proof.
  split; [apply unbalanced_iff|]. split.
  - unfold Token.init. rewrite check_balanced_spec. fold (unbalanced (lower raw_)).
    destruct (unbalanced (lower raw_)); simpl; [reflexivity|].
    destruct cleanup; simpl; eexists; split; reflexivity.
  - eexists. vm_compute. reflexivity.
Qed.

(** ** Tokens: what cleanup strips *)

Lemma startswith_length (p s : str) :
  startswith s p = true -> length p <= length s.
Proof.
  revert s. induction p as [|a p IH]; intros [|b s] H; simpl in *;
    try lia; try discriminate.
  apply andb_true_iff in H. destruct H as [_ H]. apply IH in H. lia.
Qed.

Lemma replace_from_length (old : str) (skip : nat) (s : str) :
  length (replace_from old [] skip s) <= length s - skip.
Proof.
  revert skip. induction s as [|c s IH]; intros skip; [simpl; lia|].
  cbn [replace_from]. destruct skip as [|k].
  - destruct (startswith (c :: s) old) eqn:E; cbn [length app].
    + specialize (IH (length old - 1)). lia.
    + specialize (IH 0). lia.
  - specialize (IH k). cbn [length]. lia.
Qed.

Lemma replace_from_shorter (old : str) (s : str) :
  old <> [] -> contains old s = true ->
  length (replace_from old [] 0 s) < length s.
Proof.
  intros Hold. induction s as [|c s IH]; intros H.
  - destruct old; [congruence|discriminate].
  - cbn [replace_from].
    destruct (startswith (c :: s) old) eqn:E.
    + pose proof (replace_from_length old (length old - 1) s).
      cbn [length app]. lia.
    + cbn [contains] in H. rewrite E in H. simpl in H. apply IH in H.
      cbn [length]. lia.
Qed.

Lemma find_tag_contains (s : str) (x : Tag.t) :
  Token.find_tag s = Some x ->
  contains (lower (Token.anchor_tag (Some x))) s = true.
Proof.
  unfold Token.find_tag. intros H. apply find_some in H. destruct H as [_ H].
  revert H. destruct x; vm_compute (hd _ _); vm_compute (lower _); auto.
Qed.

Lemma anchor_nonempty (x : Tag.t) : lower (Token.anchor_tag (Some x)) <> [].
Proof. destruct x; vm_compute; discriminate. Qed.

(** C3 as stated fails: the tag assigned to "<UNK>" is [UNK], which is
    not a balanced tag, and its working text is not left untouched. *)
Lemma strip_tag_unk_counterexample :
  exists (raw_ : str) (x : Tag.t),
    Token.find_tag (lower raw_) = Some x /\
    Tag.mem x TAGS_BALANCED = false /\
    Token.strip_tag (Some x) (lower raw_) <> lower raw_ /\
    option_map Token.content
      (match Token.init raw_ true with inr tok => Some tok | inl _ => None end)
    = Some [].
Proof.
  exists (py "<UNK>"), Tag.UNK. vm_compute.
  repeat split; try reflexivity. discriminate.
Qed.

(** C3, amended.  For the tag [x] assigned to the lowercased text [s], the
    working text of the cleanup is [s] itself when [x] is a clitic tag;
    for every other tag, balanced or not, it is [s] without the
    occurrences of the lowercased opening form of [x], and so is strictly
    shorter than [s]. *)
Theorem strip_tag_by_category (s : str) (x : Tag.t) :
  Token.find_tag s = Some x ->
  if Tag.mem x TAGS_CLITIC
  then Token.strip_tag (Some x) s = s
  else Token.strip_tag (Some x) s =
         replace (lower (Token.anchor_tag (Some x))) [] s /\
       length (Token.strip_tag (Some x) s) < length s.
Proof.
  intros H. pose proof (find_tag_contains _ _ H) as Hc.
  pose proof (anchor_nonempty x) as Hne.
  destruct (Tag.mem x TAGS_CLITIC) eqn:E.
  - unfold Token.strip_tag. rewrite E. destruct (Tag.eqb x Tag.MW); reflexivity.
  - assert (Hs : Token.strip_tag (Some x) s =
                 replace (lower (Token.anchor_tag (Some x))) [] s).
    { unfold Token.strip_tag. rewrite E.
      destruct (Tag.eqb x Tag.MW) eqn:E2; [|reflexivity].
      unfold Tag.eqb in E2. destruct (Tag.eq_dec x Tag.MW); [|discriminate].
      subst x. discriminate. }
    split; [exact Hs|]. rewrite Hs. unfold replace.
    destruct (lower (Token.anchor_tag (Some x))) eqn:Ea; [congruence|].
    apply replace_from_shorter; [discriminate|exact Hc].
Qed.

Lemma strip_tag_by_category_witness :
  Token.find_tag (lower (py "<UNK>")) = Some Tag.UNK /\
  (Token.strip_tag (Some Tag.UNK) (lower (py "<UNK>")) =
     replace (lower (Token.anchor_tag (Some Tag.UNK))) [] (lower (py "<UNK>")) /\
   length (Token.strip_tag (Some Tag.UNK) (lower (py "<UNK>")))
   < length (lower (py "<UNK>"))).
Proof.
  split; [reflexivity|].
  exact (strip_tag_by_category (lower (py "<UNK>")) Tag.UNK eq_refl).
Defined.

(** ** Tokenizing *)

(** C5. With the default flags, "hello (ppb) world" is split in the three
    words hello, (ppb), world, of which (ppb) is discarded as noncontent,
    and the two tokens left have the texts hello and world; "(pp hi)" is
    one word, which starts with "(pp" and is kept as one token; "(uh)" is
    one word, which starts with "(" and not with "(pp", and no token is
    left. *)
Theorem tokenize_discard_scenarios :
  (exists patt, Interval.make_tokens_pattern = ok patt /\
     Interval.findall1 patt (py "hello (ppb) world") =
       [py "hello"; py "(ppb)"; py "world"] /\
     Interval.findall1 patt (py "(pp hi)") = [py "(pp hi)"] /\
     Interval.findall1 patt (py "(uh)") = [py "(uh)"]) /\
  str_in (py "(ppb)") (map lower (map Tag.value TAGS_NONCONTENT)) = true /\
  token_texts (tokenize_default (py "hello (ppb) world")) =
    ok [py "hello"; py "world"] /\
  startswith (py "(pp hi)") (py "(pp") = true /\
  tokenize_default (py "(pp hi)") =
    ok [ {| Token.tag := Some Tag.FF; Token.content := py "pp hi";
            Token.text := py "(pp hi)"; Token.raw := py "(pp hi)" |} ] /\
  startswith (py "(uh)") (py "(pp") = false /\
  tokenize_default (py "(uh)") = ok [].
Proof.
  split.
  - eexists. split; [reflexivity|]. vm_compute. auto.
  - vm_compute. repeat split; reflexivity.
Qed.

Lemma token_equal_refl (l : list Token.t) : Forall2 token_equal l l.
Proof. induction l; constructor; unfold token_equal; auto. Qed.

(** C8. [tokenize] reads nothing but its arguments, so two invocations on
    the same text with the same flags give the same result: token lists of
    the same length with pairwise equal [tag], [content], [text] and
    [raw]. *)
Theorem tokenize_deterministic (text_ : str)
  (force_lowercase discard_fillers discard_noncontent discard_incomplete
     cleanup_token : bool) :
  let first_call :=
    Interval.tokenize text_ force_lowercase discard_fillers
      discard_noncontent discard_incomplete cleanup_token in
  let second_call :=
    Interval.tokenize text_ force_lowercase discard_fillers
      discard_noncontent discard_incomplete cleanup_token in
  same_tokens first_call second_call.
Proof.
  intros first_call second_call. subst first_call second_call.
  unfold same_tokens.
  destruct (Interval.tokenize _ _ _ _ _ _) as [e|l]; [reflexivity|].
  split; [reflexivity|apply token_equal_refl].
Qed.

(** ** The pattern matcher *)

Lemma rmatch_ext (r : regex) :
  forall s c k1 k2,
    (forall s1 c1, k1 s1 c1 = k2 s1 c1) ->
    rmatch r s c k1 = rmatch r s c k2.
Proof.
  induction r as [|p|r1 IH1 r2 IH2|r1 IH1 r2 IH2|r1 IH1|g r1 IH1];
    intros s c k1 k2 H; simpl.
  - apply H.
  - destruct s as [|a s]; [reflexivity|]. destruct (p a); [apply H|reflexivity].
  - apply IH1. intros s1 c1. apply IH2. exact H.
  - rewrite (IH1 s c k1 k2 H), (IH2 s c k1 k2 H). reflexivity.
  - generalize (length s). intros n. revert s c.
    induction n as [|n IHn]; intros s c; simpl; [apply H|].
    rewrite (IH1 s c _ (fun s1 c1 =>
               if length s1 <? length s
               then star_loop (rmatch r1) k2 n s1 c1 else None)).
    + rewrite H. reflexivity.
    + intros s1 c1. destruct (length s1 <? length s); [apply IHn|reflexivity].
  - apply IH1. intros s1 c1. apply H.
Qed.

Lemma rmatch_none (r : regex) :
  forall s c, rmatch r s c (fun _ _ => None) = None.
Proof.
  induction r as [|p|r1 IH1 r2 IH2|r1 IH1 r2 IH2|r1 IH1|g r1 IH1];
    intros s c; simpl.
  - reflexivity.
  - destruct s as [|a s]; [reflexivity|]. destruct (p a); reflexivity.
  - rewrite (rmatch_ext r1 s c _ (fun _ _ => None)); [apply IH1|].
    intros s1 c1. apply IH2.
  - rewrite IH1. apply IH2.
  - generalize (length s) at 1. intros n. revert s c.
    induction n as [|n IHn]; intros s c; simpl; [reflexivity|].
    rewrite (rmatch_ext r1 s c _ (fun _ _ => None)); [rewrite IH1; reflexivity|].
    intros s1 c1. destruct (length s1 <? length s); [apply IHn|reflexivity].
  - apply IH1.
Qed.

(** The bound of [star_loop] is never reached before the input ends. *)
Lemma star_loop_bound (r : regex) (k : str -> caps -> answer) :
  forall n m s c,
    length s <= n -> length s <= m ->
    star_loop (rmatch r) k n s c = star_loop (rmatch r) k m s c.
Proof.
  induction n as [|n IHn]; intros m s c Hn Hm.
  - destruct s; [|simpl in Hn; lia].
    destruct m as [|m]; [reflexivity|]. simpl.
    rewrite rmatch_none. reflexivity.
  - destruct m as [|m].
    + destruct s; [|simpl in Hm; lia]. simpl.
      rewrite rmatch_none. reflexivity.
    + simpl.
      rewrite (rmatch_ext r s c _ (fun s1 c1 =>
                 if length s1 <? length s
                 then star_loop (rmatch r) k m s1 c1 else None)); [reflexivity|].
      intros s1 c1. destruct (length s1 <? length s) eqn:E; [|reflexivity].
      apply Nat.ltb_lt in E. apply IHn; lia.
Qed.

(** The equation of the greedy repetition. *)
Lemma rmatch_star (r : regex) (s : str) (c : caps) (k : str -> caps -> answer) :
  rmatch (Star r) s c k =
  match rmatch r s c
          (fun s1 c1 =>
             if length s1 <? length s then rmatch (Star r) s1 c1 k else None)
  with
  | Some x => Some x
  | None => k s c
  end.
Proof.
  cbn [rmatch].
  rewrite (star_loop_bound r k (length s) (S (length s)) s c); [|lia|lia].
  cbn [star_loop].
  rewrite (rmatch_ext r s c _ (fun s1 c1 =>
             if length s1 <? length s
             then star_loop (rmatch r) k (length s1) s1 c1 else None));
    [reflexivity|].
  intros s1 c1. destruct (length s1 <? length s) eqn:E; [|reflexivity].
  apply Nat.ltb_lt in E. apply star_loop_bound; lia.
Qed.

Lemma consumed_app (u s1 : str) : consumed (u ++ s1) s1 = u.
Proof.
  unfold consumed. rewrite length_app.
  replace (length u + length s1 - length s1) with (length u) by lia.
  rewrite firstn_app, firstn_all, Nat.sub_diag. simpl. apply app_nil_r.
Qed.

(** Soundness: an answer of the matcher comes from the continuation,
    called on what is left after a text of the language of the pattern,
    with groups that keep every invariant the groups of the pattern keep. *)
Lemma rmatch_sound (inv : caps -> Prop) (r : regex) :
  forall s c k x,
    group_pres inv r -> inv c -> rmatch r s c k = Some x ->
    exists u s1 c1,
      s = u ++ s1 /\ matches r u /\ inv c1 /\ k s1 c1 = Some x.
Proof.
  induction r as [|p|r1 IH1 r2 IH2|r1 IH1 r2 IH2|r1 IH1|g r1 IH1];
    intros s c k x Hp Hc H.
  - exists [], s, c. repeat split; auto. constructor.
  - simpl in H. destruct s as [|a s]; [discriminate|].
    destruct (p a) eqn:E; [|discriminate].
    exists [a], s, c. repeat split; auto. constructor. exact E.
  - simpl in H. destruct Hp as [Hp1 Hp2].
    destruct (IH1 _ _ _ _ Hp1 Hc H) as (u & s1 & c1 & -> & Hu & Hc1 & H1).
    destruct (IH2 _ _ _ _ Hp2 Hc1 H1) as (v & s2 & c2 & -> & Hv & Hc2 & H2).
    exists (u ++ v), s2, c2. rewrite app_assoc. repeat split; auto.
    constructor; assumption.
  - simpl in H. destruct Hp as [Hp1 Hp2].
    destruct (rmatch r1 s c k) eqn:E.
    + inversion H; subst.
      destruct (IH1 _ _ _ _ Hp1 Hc E) as (u & s1 & c1 & -> & Hu & Hc1 & H1).
      exists u, s1, c1. repeat split; auto. apply MAltL. exact Hu.
    + destruct (IH2 _ _ _ _ Hp2 Hc H) as (u & s1 & c1 & -> & Hu & Hc1 & H1).
      exists u, s1, c1. repeat split; auto. apply MAltR. exact Hu.
  - cbn [rmatch] in H. revert H. generalize (length s) at 1. intros n.
    revert s c Hc. induction n as [|n IHn]; intros s c Hc H.
    + exists [], s, c. repeat split; auto. constructor.
    + cbn [star_loop] in H.
      destruct (rmatch r1 s c _) eqn:E.
      * inversion H; subst.
        destruct (IH1 _ _ _ _ Hp Hc E) as (u & s1 & c1 & -> & Hu & Hc1 & H1).
        destruct (length s1 <? length (u ++ s1)) eqn:El; [|discriminate].
        destruct (IHn _ _ Hc1 H1) as (v & s2 & c2 & -> & Hv & Hc2 & H2).
        exists (u ++ v), s2, c2. rewrite app_assoc. repeat split; auto.
        constructor; auto. intros ->. simpl in El.
        apply Nat.ltb_lt in El. lia.
      * exists [], s, c. repeat split; auto. constructor.
  - simpl in H. destruct Hp as [Hp1 Hp2].
    destruct (IH1 _ _ _ _ Hp1 Hc H) as (u & s1 & c1 & -> & Hu & Hc1 & H1).
    rewrite consumed_app in H1.
    exists u, s1, (set_group g u c1). repeat split; auto. constructor. exact Hu.
Qed.

(** Completeness: when some prefix of the input is in the language of the
    pattern and the continuation accepts what is left, whatever the
    groups, the matcher answers. *)
Lemma rmatch_complete (r : regex) (u : str) :
  matches r u ->
  forall s1 c k,
    (forall c1, k s1 c1 <> None) -> rmatch r (u ++ s1) c k <> None.
Proof.
  induction 1 as [|p a Hp|r1 r2 u v _ IH1 _ IH2|r1 r2 u _ IH1|r1 r2 u _ IH2
                 | r | r u v Hne _ IH1 _ IH2 | g r u _ IH1];
    intros s1 c k Hk.
  - apply Hk.
  - simpl. rewrite Hp. apply Hk.
  - simpl. rewrite <- app_assoc. apply IH1. intros c1. apply IH2. exact Hk.
  - simpl. specialize (IH1 s1 c k Hk).
    destruct (rmatch r1 (u ++ s1) c k); congruence.
  - simpl. specialize (IH2 s1 c k Hk).
    destruct (rmatch r1 (u ++ s1) c k); congruence.
  - rewrite rmatch_star. simpl. specialize (Hk c).
    destruct (rmatch r s1 c _); congruence.
  - rewrite rmatch_star. rewrite <- app_assoc.
    match goal with
    | |- match rmatch r _ c ?K with _ => _ end <> None =>
        assert (HK : rmatch r (u ++ v ++ s1) c K <> None)
    end.
    { apply IH1. intros c1.
      assert (El : (length (v ++ s1) <? length (u ++ v ++ s1)) = true).
      { apply Nat.ltb_lt. rewrite (length_app u). destruct u; [congruence|].
        simpl. lia. }
      rewrite El. apply IH2. exact Hk. }
    destruct (rmatch r (u ++ v ++ s1) c _); congruence.
  - simpl. apply IH1. intros c1. apply Hk.
Qed.

Lemma group_pres_all (inv : caps -> Prop) (r : regex) :
  (forall g u c, inv c -> inv (set_group g u c)) -> group_pres inv r.
Proof.
  intros H. induction r; simpl; repeat split; auto.
Qed.

(** A group that took part in the match stays set. *)
Lemma rmatch_keeps_group (g : nat) (r : regex) (s : str) (c : caps)
  (k : str -> caps -> answer) (x : caps * str) :
  group c g <> None -> rmatch r s c k = Some x ->
  exists s1 c1, group c1 g <> None /\ k s1 c1 = Some x.
Proof.
  intros Hc H.
  destruct (rmatch_sound (fun c => group c g <> None) r s c k x)
    as (u & s1 & c1 & _ & _ & Hc1 & H1); auto.
  - apply group_pres_all. intros h u c0 H0. simpl.
    destruct (h =? g); [discriminate|exact H0].
  - exists s1, c1. auto.
Qed.

(** A group through which every match goes is set by the match. *)
Lemma rmatch_sets_group (g : nat) (r : regex) :
  forall s c k x,
    sets_group r g = true -> rmatch r s c k = Some x ->
    exists s1 c1, group c1 g <> None /\ k s1 c1 = Some x.
Proof.
  induction r as [|p|r1 IH1 r2 IH2|r1 IH1 r2 IH2|r1 IH1|h r1 IH1];
    intros s c k x Hs H; simpl in Hs; try discriminate.
  - simpl in H. apply orb_true_iff in Hs. destruct Hs as [Hs|Hs].
    + destruct (IH1 _ _ _ _ Hs H) as (s1 & c1 & Hc1 & H1).
      apply (rmatch_keeps_group g r2 s1 c1 k x Hc1 H1).
    + apply (rmatch_sound (fun _ => True)) in H;
        [|apply group_pres_all; auto|exact I].
      destruct H as (u & s1 & c1 & _ & _ & _ & H1).
      apply (IH2 _ _ _ _ Hs H1).
  - simpl in H. apply andb_true_iff in Hs. destruct Hs as [Hs1 Hs2].
    destruct (rmatch r1 s c k) eqn:E.
    + inversion H; subst. apply (IH1 _ _ _ _ Hs1 E).
    + apply (IH2 _ _ _ _ Hs2 H).
  - simpl in H. apply orb_true_iff in Hs. destruct Hs as [Hs|Hs].
    + apply Nat.eqb_eq in Hs. subst h.
      apply (rmatch_sound (fun _ => True)) in H;
        [|apply group_pres_all; auto|exact I].
      destruct H as (u & s1 & c1 & _ & _ & _ & H1).
      eexists _, _. split; [|exact H1]. simpl. rewrite Nat.eqb_refl. discriminate.
    + destruct (IH1 _ _ _ _ Hs H) as (s1 & c1 & Hc1 & H1).
      eexists _, _. split; [|exact H1]. simpl.
      destruct (h =? g); [discriminate|exact Hc1].
Qed.

(** *** The language of a pattern and of its parts *)

Lemma matches_star_mono (a b : regex) :
  (forall u, matches a u -> matches b u) ->
  forall u, matches (Star a) u -> matches (Star b) u.
Proof.
  intros H u Hu. remember (Star a) as sa eqn:E.
  induction Hu; inversion E; subst; constructor; auto.
Qed.

Lemma matches_erase (r : regex) :
  forall u, matches (erase r) u <-> matches r u.
Proof.
  induction r as [|p|r1 IH1 r2 IH2|r1 IH1 r2 IH2|r1 IH1|g r1 IH1];
    intros u; simpl.
  - tauto.
  - tauto.
  - split; intros H; inversion H; subst; constructor;
      try (apply IH1; assumption); apply IH2; assumption.
  - split; intros H; inversion H; subst;
      try (apply MAltL; apply IH1; assumption);
      apply MAltR; apply IH2; assumption.
  - split; apply matches_star_mono; intros v; apply IH1.
  - rewrite IH1. split; intros H; [constructor; exact H|].
    inversion H; subst. assumption.
Qed.

Lemma matches_eps_inv (u : str) : matches Eps u -> u = [].
Proof. intros H. inversion H. reflexivity. Qed.

Lemma matches_chr_inv (p : ascii -> bool) (u : str) :
  matches (Chr p) u -> exists a, u = [a] /\ p a = true.
Proof. intros H. inversion H; subst. eauto. Qed.

Lemma matches_cat_inv (r1 r2 : regex) (u : str) :
  matches (Cat r1 r2) u ->
  exists u1 u2, u = u1 ++ u2 /\ matches r1 u1 /\ matches r2 u2.
Proof. intros H. inversion H; subst. eauto. Qed.

Lemma matches_alt_inv (r1 r2 : regex) (u : str) :
  matches (Alt r1 r2) u -> matches r1 u \/ matches r2 u.
Proof. intros H. inversion H; subst; auto. Qed.

Lemma matches_group_inv (g : nat) (r : regex) (u : str) :
  matches (Group g r) u -> matches r u.
Proof. intros H. inversion H; subst; auto. Qed.

Lemma matches_seq_app (l1 l2 : list regex) :
  forall u,
    matches (seq (l1 ++ l2)) u <->
    exists u1 u2, u = u1 ++ u2 /\ matches (seq l1) u1 /\ matches (seq l2) u2.
Proof.
  induction l1 as [|r l1 IH]; intros u; simpl.
  - split.
    + intros H. exists [], u. repeat split; auto. constructor.
    + intros (u1 & u2 & -> & H1 & H2). apply matches_eps_inv in H1.
      subst u1. exact H2.
  - split.
    + intros H. apply matches_cat_inv in H.
      destruct H as (u0 & w & -> & H0 & Hw).
      apply IH in Hw. destruct Hw as (u1 & u2 & -> & H1 & H2).
      exists (u0 ++ u1), u2. rewrite app_assoc. repeat split; auto.
      constructor; assumption.
    + intros (u1 & u2 & -> & H1 & H2). apply matches_cat_inv in H1.
      destruct H1 as (u0 & w & -> & H0 & Hw).
      rewrite <- app_assoc. constructor; [assumption|].
      apply IH. eauto.
Qed.

Lemma matches_seq_one (r : regex) (u : str) :
  matches (seq [r]) u <-> matches r u.
Proof.
  simpl. split.
  - intros H. apply matches_cat_inv in H.
    destruct H as (u0 & w & -> & H0 & Hw). apply matches_eps_inv in Hw.
    subst w. rewrite app_nil_r. assumption.
  - intros H. rewrite <- (app_nil_r u). constructor; [assumption|constructor].
Qed.

Lemma matches_parts (r : regex) :
  forall u, matches (seq (parts r)) u <-> matches r u.
Proof.
  induction r as [|p|r1 IH1 r2 IH2|r1 IH1 r2 IH2|r1 IH1|g r1 IH1];
    intros u; cbn [parts].
  - simpl. tauto.
  - apply matches_seq_one.
  - rewrite matches_seq_app. split.
    + intros (u1 & u2 & -> & H1 & H2). constructor; [apply IH1|apply IH2]; auto.
    + intros H. apply matches_cat_inv in H.
      destruct H as (u1 & u2 & -> & H1 & H2). exists u1, u2.
      repeat split; [apply IH1|apply IH2]; auto.
  - rewrite matches_seq_one. apply (matches_erase (Alt r1 r2)).
  - rewrite matches_seq_one. apply (matches_erase (Star r1)).
  - rewrite IH1. split; intros H; [constructor; exact H|].
    apply matches_group_inv in H. assumption.
Qed.

(** *** Repetitions of a character class *)










Lemma ascii_eqb_eq (a b : ascii) : ascii_eqb a b = true <-> a = b.
Proof. apply Ascii.eqb_eq. Qed.

Lemma ascii_eqb_refl (a : ascii) : ascii_eqb a a = true.
Proof. apply Ascii.eqb_refl. Qed.


Lemma matches_lit (w u : str) : matches (lit w) u <-> u = w.
Proof.
  revert u. induction w as [|a w IH]; intros u; simpl.
  - split; [apply matches_eps_inv|intros ->; constructor].
  - split.
    + intros H. apply matches_cat_inv in H.
      destruct H as (u1 & u2 & -> & H1 & H2).
      apply matches_chr_inv in H1. destruct H1 as (b & -> & Hb).
      apply ascii_eqb_eq in Hb. subst b. apply IH in H2. subst u2. reflexivity.
    + intros ->. change (a :: w) with ([a] ++ w). constructor.
      * constructor. apply ascii_eqb_refl.
      * apply IH. reflexivity.
Qed.

Lemma matches_star_chr (p : ascii -> bool) (u : str) :
  matches (Star (Chr p)) u <-> forallb p u = true.
Proof.
  split.
  - intros H. remember (Star (Chr p)) as r eqn:E.
    induction H; inversion E; subst; [reflexivity|].
    apply matches_chr_inv in H0. destruct H0 as (a & -> & Ha).
    simpl. rewrite Ha. simpl. auto.
  - induction u as [|a u IH]; simpl; intros H; [constructor|].
    apply andb_true_iff in H. destruct H as [Ha Hu].
    change (a :: u) with ([a] ++ u). constructor; auto; [discriminate|].
    constructor. exact Ha.
Qed.

Lemma matches_plus_chr (p : ascii -> bool) (u : str) :
  matches (plus (Chr p)) u <-> u <> [] /\ forallb p u = true.
Proof.
  unfold plus. split.
  - intros H. apply matches_cat_inv in H.
    destruct H as (u1 & u2 & -> & H1 & H2).
    apply matches_chr_inv in H1. destruct H1 as (a & -> & Ha).
    apply matches_star_chr in H2. simpl. rewrite Ha, H2.
    split; [discriminate|reflexivity].
  - intros [Hne H]. destruct u as [|a u]; [congruence|].
    simpl in H. apply andb_true_iff in H. destruct H as [Ha Hu].
    change (a :: u) with ([a] ++ u). constructor.
    + constructor. exact Ha.
    + apply matches_star_chr. exact Hu.
Qed.

(** ** Interval records *)

Lemma span_spec (p : ascii -> bool) (s : str) :
  s = fst (span p s) ++ snd (span p s) /\
  forallb p (fst (span p s)) = true /\ stops p (snd (span p s)) = true.
Proof.
  induction s as [|a s IH]; simpl; [auto|].
  destruct (p a) eqn:E.
  - destruct (span p s) as [u v]. simpl in *.
    destruct IH as (-> & Hu & Hv). rewrite E. auto.
  - simpl. rewrite E. auto.
Qed.

Lemma span_run (p : ascii -> bool) (u s : str) :
  forallb p u = true -> stops p s = true -> span p (u ++ s) = (u, s).
Proof.
  intros Hu Hs. induction u as [|a u IH]; simpl.
  - destruct s as [|b s]; [reflexivity|]. simpl in *.
    destruct (p b); [discriminate|reflexivity].
  - simpl in Hu. apply andb_true_iff in Hu. destruct Hu as [Ha Hu].
    rewrite Ha, (IH Hu). reflexivity.
Qed.

Lemma run_spec (p : ascii -> bool) (w : str) :
  run p w = true <-> w <> [] /\ forallb p w = true.
Proof.
  destruct w as [|a w]; simpl.
  - split; [discriminate|intros [H _]; congruence].
  - split; [intros H; split; [discriminate|exact H]|intros [_ H]; exact H].
Qed.

(** The two shapes of a decimal literal. *)
Lemma decimal_literal_cases (F : str) :
  decimal_literal F = true ->
  (run isdecimal F = true /\ up_to_point F = None /\ span isdecimal F = (F, []))
  \/ (exists d1 d2, F = d1 ++ "."%char :: d2 /\ run isdecimal d1 = true /\
        run isdecimal d2 = true /\ up_to_point F = Some (d1 ++ ["."%char]) /\
        span isdecimal F = (d1, "."%char :: d2)).
Proof.
  unfold decimal_literal, up_to_point.
  destruct (span_spec isdecimal F) as (E & _ & _).
  destruct (span isdecimal F) as [ip rest] eqn:Es. simpl in E.
  intros H. apply andb_true_iff in H. destruct H as [Hip H].
  destruct rest as [|p fp].
  - left. rewrite app_nil_r in E. subst ip. auto.
  - right. apply andb_true_iff in H. destruct H as [Hp Hfp].
    apply ascii_eqb_eq in Hp. subst p. exists ip, fp. auto.
Qed.

Lemma py_float_literal (F : str) :
  decimal_literal F = true -> py_float F = ok (literal_value F).
Proof.
  intros H. unfold py_float, literal_value.
  destruct (decimal_literal_cases F H)
    as [(Hr & _ & Es)|(d1 & d2 & _ & H1 & H2 & _ & Es)]; rewrite Es.
  - destruct F; [discriminate|]. simpl. rewrite app_nil_r. reflexivity.
  - destruct d1; [discriminate|]. cbn [tl].
    change (run isdecimal d2) with (all_digits d2) in H2. rewrite H2.
    rewrite ascii_eqb_refl. reflexivity.
Qed.

Lemma py_int_digits (N : str) :
  run isdecimal N = true -> py_int N = ok (int_of_digits N).
Proof.
  intros H. unfold py_int. change (all_digits N) with (run isdecimal N).
  rewrite H. reflexivity.
Qed.


Lemma rmatch_cat (r1 r2 : regex) (s : str) (c : caps)
  (k : str -> caps -> answer) :
  rmatch (Cat r1 r2) s c k = rmatch r1 s c (fun s1 c1 => rmatch r2 s1 c1 k).
Proof. reflexivity. Qed.


Lemma rmatch_group (g : nat) (r : regex) (s : str) (c : caps)
  (k : str -> caps -> answer) :
  rmatch (Group g r) s c k =
  rmatch r s c (fun s1 c1 => k s1 (set_group g (consumed s s1) c1)).
Proof. reflexivity. Qed.



Lemma point_not_digit : isdecimal "."%char = false.
Proof. reflexivity. Qed.












Lemma dropwhile_stops (p : ascii -> bool) (s : str) :
  stops p s = true -> dropwhile p s = s.
Proof.
  destruct s as [|a s]; simpl; [reflexivity|].
  destruct (p a); [discriminate|reflexivity].
Qed.

(** [strip] leaves alone a text that neither starts nor ends with white
    space. *)
Lemma strip_stops (s : str) :
  stops isspace s = true -> stops isspace (rev s) = true -> strip s = s.
Proof.
  intros H1 H2. unfold strip.
  rewrite (dropwhile_stops isspace s H1), (dropwhile_stops isspace _ H2).
  apply rev_involutive.
Qed.



(** The texts of the pattern of a decimal literal are decimal literals. *)
Lemma matches_decimal (h : nat) (u : str) :
  matches (seq [opt (Group h (seq [Interval.digits; lit (py ".")]));
                Interval.digits]) u ->
  decimal_literal u = true.
Proof.
  cbn [seq]. intros H. apply matches_cat_inv in H.
  destruct H as (x & y0 & -> & Hx & Hy). apply matches_cat_inv in Hy.
  destruct Hy as (y & e & -> & Hy & He). apply matches_eps_inv in He. subst e.
  rewrite app_nil_r. apply matches_plus_chr in Hy. destruct Hy as [Hyn Hy].
  assert (Ry : run isdecimal y = true) by (apply run_spec; auto).
  unfold opt in Hx. apply matches_alt_inv in Hx. destruct Hx as [Hx|Hx].
  - apply matches_group_inv in Hx. apply matches_cat_inv in Hx.
    destruct Hx as (d & p0 & -> & Hd & Hp). apply matches_cat_inv in Hp.
    destruct Hp as (p & e & -> & Hp & He). apply matches_eps_inv in He.
    subst e. apply matches_lit in Hp. subst p.
    apply matches_plus_chr in Hd. destruct Hd as [Hdn Hd].
    rewrite app_nil_r, <- app_assoc. unfold decimal_literal.
    change (py "." ++ y) with ("."%char :: y).
    rewrite (span_run isdecimal d ("."%char :: y) Hd eq_refl).
    rewrite Ry, ascii_eqb_refl.
    rewrite (proj2 (run_spec isdecimal d) (conj Hdn Hd)). reflexivity.
  - apply matches_eps_inv in Hx. subst x. cbn [app]. unfold decimal_literal.
    rewrite <- (app_nil_r y) at 1.
    rewrite (span_run isdecimal y [] Hy eq_refl), Ry. reflexivity.
Qed.



Tactic Notation "inv_run" hyp(H) ident(w) ident(Hw) :=
  apply matches_cat_inv in H;
  let b := fresh "b" in
  destruct H as (w & b & -> & Hw & H);
  try apply matches_group_inv in Hw;
  apply matches_plus_chr in Hw; apply run_spec in Hw.

Tactic Notation "inv_decimal" hyp(H) ident(F) ident(HF) constr(h) :=
  apply matches_cat_inv in H;
  let b := fresh "b" in
  destruct H as (F & b & -> & HF & H);
  apply matches_group_inv in HF; apply (matches_decimal h) in HF.







(** ** Located blocks are always parsed *)

Lemma scan_In (r : regex) (m : Match) :
  forall s skip, In m (scan r skip s) -> exists s1, re_match r s1 = Some m.
Proof.
  induction s as [|a s IH]; intros skip H.
  - simpl in H. destruct skip; [|contradiction].
    destruct (re_match r []) eqn:E; [|contradiction].
    destruct H as [->|[]]. eauto.
  - cbn [scan] in H. destruct skip as [|k]; [|eauto].
    destruct (re_match r (a :: s)) eqn:E; [|eauto].
    destruct H as [->|H]; eauto.
Qed.

Lemma re_match_inv (r : regex) (s : str) (m : Match) :
  re_match r s = Some m ->
  exists s1,
    rmatch r s [] (fun s1 c1 => Some (c1, s1)) = Some (groups m, s1) /\
    whole m = consumed s s1.
Proof.
  unfold re_match. destruct (rmatch r s [] _) as [[c s1]|]; [|discriminate].
  intros H. inversion H; subst. simpl. eauto.
Qed.

Lemma fields_inv_other (g : nat) (u : str) (c : caps) :
  g <> Interval.g_index -> g <> Interval.g_xmin -> g <> Interval.g_xmax ->
  fields_inv c -> fields_inv (set_group g u c).
Proof.
  intros H1 H2 H3 (I1 & I2 & I3). unfold fields_inv. cbn [group set_group].
  apply Nat.eqb_neq in H1, H2, H3. rewrite H1, H2, H3. auto.
Qed.

Lemma group_pres_lit (inv : caps -> Prop) (w : str) : group_pres inv (lit w).
Proof. induction w; simpl; auto. Qed.

Lemma fields_inv_pattern : group_pres fields_inv Interval.interval_pattern.
Proof.
  unfold Interval.interval_pattern, Interval.digits, Interval.spaces, plus,
    opt, chr.
  cbn [seq group_pres].
  repeat match goal with
         | |- _ /\ _ => split
         | |- group_pres _ (lit _) => apply group_pres_lit
         | |- True => exact I
         end.
  all: try (intros u c Hu Hc; apply fields_inv_other;
            [discriminate|discriminate|discriminate|exact Hc]).
  - intros u c Hu (I1 & I2 & I3). unfold fields_inv. cbn [group set_group].
    cbn [Interval.g_index Interval.g_xmin Interval.g_xmax Nat.eqb].
    repeat split; auto. intros v E. inversion E; subst.
    apply (matches_plus_chr isdecimal v) in Hu. apply run_spec. exact Hu.
  - intros u c Hu (I1 & I2 & I3). unfold fields_inv. cbn [group set_group].
    cbn [Interval.g_index Interval.g_xmin Interval.g_xmax Nat.eqb].
    repeat split; auto. intros v E. inversion E; subst.
    apply (matches_decimal 3). exact Hu.
  - intros u c Hu (I1 & I2 & I3). unfold fields_inv. cbn [group set_group].
    cbn [Interval.g_index Interval.g_xmin Interval.g_xmax Nat.eqb].
    repeat split; auto. intros v E. inversion E; subst.
    apply (matches_decimal 5). exact Hu.
Qed.

Lemma matches_seq_last (rs : list regex) :
  forall u,
    matches (seq rs) u ->
    exists v y, u = v ++ y /\ matches (last rs Eps) y.
Proof.
  induction rs as [|r rs IH]; intros u H.
  - exists [], u. split; [reflexivity|exact H].
  - cbn [seq] in H. apply matches_cat_inv in H.
    destruct H as (x & z & -> & Hx & Hz).
    destruct rs as [|r' rs].
    + apply matches_eps_inv in Hz. subst z. exists [], x.
      rewrite app_nil_r. auto.
    + destruct (IH z Hz) as (v & y & -> & Hy).
      exists (x ++ v), y. rewrite app_assoc. auto.
Qed.

Lemma parts_record :
  parts Interval.interval_pattern = parts Interval.interval_record.
Proof. reflexivity. Qed.

(** The two patterns of a record have the same language. *)
Lemma record_language (u : str) :
  matches Interval.interval_record u -> matches Interval.interval_pattern u.
Proof.
  intros H. apply matches_parts. rewrite parts_record.
  apply matches_parts. exact H.
Qed.

Lemma record_ends (u : str) :
  matches Interval.interval_record u ->
  stops isspace u = true /\ stops isspace (rev u) = true.
Proof.
  intros H. split.
  - unfold Interval.interval_record in H. cbn [seq] in H.
    apply matches_cat_inv in H. destruct H as (x & z & -> & Hx & _).
    apply matches_lit in Hx. subst x. reflexivity.
  - apply matches_seq_last in H. destruct H as (v & y & -> & Hy).
    cbn [last] in Hy. apply matches_chr_inv in Hy.
    destruct Hy as (a & -> & Ha). apply ascii_eqb_eq in Ha. subst a.
    rewrite rev_app_distr. reflexivity.
Qed.

(** The first group of a match of [interval_grouped_pattern] holds a
    record. *)
Lemma grouped_block (s : str) (m : Match) :
  re_match Interval.interval_grouped_pattern s = Some m ->
  exists u, group (groups m) 1 = Some u /\ matches Interval.interval_record u.
Proof.
  intros H. apply re_match_inv in H. destruct H as (s1 & H & _).
  unfold Interval.interval_grouped_pattern, plus in H.
  rewrite rmatch_cat, rmatch_group in H.
  apply (rmatch_sound (fun _ => True)) in H;
    [|apply group_pres_all; auto|exact I].
  destruct H as (u & s2 & c2 & -> & Hu & _ & H).
  rewrite consumed_app in H.
  apply (rmatch_sound
           (fun c => exists v, group c 1 = Some v /\
                               matches Interval.interval_record v)) in H.
  - destruct H as (_ & s3 & c3 & _ & _ & Hc3 & H). inversion H; subst.
    exact Hc3.
  - cbn [group_pres]. split.
    + unfold Interval.interval_record, Interval.digits, Interval.spaces,
        plus, opt, chr.
      cbn [seq group_pres].
      repeat match goal with
             | |- _ /\ _ => split
             | |- group_pres _ (lit _) => apply group_pres_lit
             | |- True => exact I
             end.
      all: intros v c _ (v0 & E & Hv0); exists v0; split; [exact E|exact Hv0].
    + intros v c Hv _. exists v. split; [reflexivity|exact Hv].
  - exists u. split; [reflexivity|exact Hu].
Qed.

(** What [from_text] makes of a record: an interval, whose fields come
    from a run of digits and two decimal literals. *)
Lemma record_parsed (u : str) (textgrid_ : option str) :
  matches Interval.interval_record u ->
  exists N F1 F2 T,
    run isdecimal N = true /\ decimal_literal F1 = true /\
    decimal_literal F2 = true /\
    Interval.from_text u textgrid_ =
    ok {| Interval.index := int_of_digits N;
          Interval.xmin := literal_value F1;
          Interval.xmax := literal_value F2;
          Interval.text := T;
          Interval.textgrid := textgrid_;
          Interval.raw := u;
          Interval._args := (F1, F2, T, N, textgrid_, u) |}.
Proof.
  intros Hu. destruct (record_ends u Hu) as [H1 H2].
  unfold Interval.from_text. rewrite (strip_stops u H1 H2).
  pose proof (rmatch_complete Interval.interval_pattern u
                (record_language u Hu) [] []
                (fun s1 c1 => Some (c1, s1))) as Hc.
  rewrite app_nil_r in Hc.
  unfold re_match.
  destruct (rmatch Interval.interval_pattern u [] _) as [[c s1]|] eqn:E;
    [|exfalso; apply Hc; [discriminate|reflexivity]].
  cbn [groups].
  assert (Hinv : fields_inv c).
  { apply (rmatch_sound fields_inv) in E.
    - destruct E as (_ & s2 & c2 & _ & _ & Hc2 & E). inversion E; subst. exact Hc2.
    - apply fields_inv_pattern.
    - repeat split; discriminate. }
  assert (Hset : forall g, sets_group Interval.interval_pattern g = true ->
                           group c g <> None).
  { intros g Hg. destruct (rmatch_sets_group g _ _ _ _ _ Hg E)
      as (s2 & c2 & Hc2 & E2). inversion E2; subst. exact Hc2. }
  destruct Hinv as (I1 & I2 & I3).
  destruct (group c Interval.g_index) as [N|] eqn:EN;
    [|exfalso; apply (Hset Interval.g_index eq_refl); exact EN].
  destruct (group c Interval.g_xmin) as [F1|] eqn:E1;
    [|exfalso; apply (Hset Interval.g_xmin eq_refl); exact E1].
  destruct (group c Interval.g_xmax) as [F2|] eqn:E2;
    [|exfalso; apply (Hset Interval.g_xmax eq_refl); exact E2].
  destruct (group c Interval.g_text) as [T|] eqn:ET;
    [|exfalso; apply (Hset Interval.g_text eq_refl); exact ET].
  exists N, F1, F2, T. specialize (I1 N eq_refl).
  specialize (I2 F1 eq_refl). specialize (I3 F2 eq_refl).
  repeat split; auto. unfold Interval.init.
  rewrite (py_int_digits N I1), (py_float_literal F1 I2),
    (py_float_literal F2 I3).
  reflexivity.
Qed.

(** ** Floats: the order and the values of literals *)

Local Open Scope Z_scope.

Lemma float_le_key (x y : float) :
  float_le x y = true <->
  is_number x = true /\ is_number y = true /\ key_le (float_key x) (float_key y).
Proof.
  unfold float_le, SFleb, SFcompare, key_le.
  destruct x as [sx|sx| |sx mx ex], y as [sy|sy| |sy my ey];
    try destruct sx; try destruct sy; cbn [is_number float_key];
    try (split; [intros _; repeat split; lia
                |intros _; reflexivity]);
    try (split; [discriminate|intros (H1 & H2 & H3); try discriminate; lia]).
  - destruct (Z.compare_spec ex ey) as [E|E|E].
    + subst. rewrite Pos.compare_cont_spec. cbn [Pos.switch_Eq].
      destruct (Pos.compare_spec mx my) as [E|E|E]; cbn [CompOpp].
      * split; [intros _; repeat split; lia|reflexivity].
      * split; [discriminate|intros (_ & _ & H); lia].
      * split; [intros _; repeat split; lia|reflexivity].
    + split; [discriminate|intros (_ & _ & H); lia].
    + split; [intros _; repeat split; lia|reflexivity].
  - destruct (Z.compare_spec ex ey) as [E|E|E].
    + subst. rewrite Pos.compare_cont_spec. cbn [Pos.switch_Eq].
      destruct (Pos.compare_spec mx my) as [E|E|E].
      * split; [intros _; repeat split; lia|reflexivity].
      * split; [intros _; repeat split; lia|reflexivity].
      * split; [discriminate|intros (_ & _ & H); lia].
    + split; [intros _; repeat split; lia|reflexivity].
    + split; [discriminate|intros (_ & _ & H); lia].
Qed.

Lemma float_le_trans (x y z : float) :
  float_le x y = true -> float_le y z = true -> float_le x z = true.
Proof.
  rewrite !float_le_key. intros (Hx & _ & H1) (_ & Hz & H2).
  repeat split; auto. unfold key_le in *.
  destruct (float_key x) as [[a1 a2] a3], (float_key y) as [[b1 b2] b3],
    (float_key z) as [[c1 c2] c3].
  lia.
Qed.

Lemma float_le_total (x y : float) :
  is_number x = true -> is_number y = true ->
  float_le x y = false -> float_le y x = true.
Proof.
  intros Hx Hy H. apply float_le_key. repeat split; auto.
  assert (N : ~ key_le (float_key x) (float_key y)).
  { intros K. rewrite (proj2 (float_le_key x y)) in H; [discriminate|auto]. }
  unfold key_le in *.
  destruct (float_key x) as [[a1 a2] a3], (float_key y) as [[b1 b2] b3].
  lia.
Qed.

Lemma float_eq_le (x y : float) :
  float_eq x y = true -> float_le x y = true.
Proof.
  unfold float_eq, float_le, SFeqb, SFleb.
  destruct (SFcompare x y) as [[]|]; auto.
Qed.

Lemma float_le_number (x y : float) :
  float_le x y = true -> is_number x = true /\ is_number y = true.
Proof. intros H. apply float_le_key in H. tauto. Qed.

(** Rounding keeps the sign of a mantissa. *)
Lemma iter_pos_inv {A : Type} (P : A -> Prop) (f : A -> A) :
  (forall a, P a -> P (f a)) ->
  forall p a, P a -> P (iter_pos f p a).
Proof.
  intros Hf. induction p as [p IH|p IH|]; intros a Ha; simpl; auto.
Qed.

Lemma shr_1_nonneg (mrs : shr_record) :
  0 <= shr_m mrs -> 0 <= shr_m (shr_1 mrs).
Proof.
  destruct mrs as [m r s]. simpl. intros H.
  destruct m as [|p|p]; try destruct p; simpl; lia.
Qed.

Lemma shr_fexp_nonneg (m e : Z) (l : location) :
  0 <= m -> 0 <= shr_m (fst (shr_fexp prec emax m e l)).
Proof.
  intros H. unfold shr_fexp, shr.
  assert (H0 : 0 <= shr_m (shr_record_of_loc m l)).
  { destruct l as [|[]]; simpl; exact H. }
  destruct (fexp prec emax (Zdigits2 m + e) - e) as [|p|p]; simpl; auto.
  apply (iter_pos_inv (fun mrs => 0 <= shr_m mrs)); auto.
  apply shr_1_nonneg.
Qed.

Lemma round_nearest_even_nonneg (m : Z) (l : location) :
  0 <= m -> 0 <= round_nearest_even m l.
Proof.
  intros H. unfold round_nearest_even.
  destruct l as [|[]]; try lia. destruct (Z.even m); lia.
Qed.

Lemma binary_round_aux_number (m e : Z) (l : location) :
  0 <= m -> is_number (binary_round_aux prec emax false m e l) = true.
Proof.
  intros H. unfold binary_round_aux.
  pose proof (shr_fexp_nonneg m e l H) as H1.
  destruct (shr_fexp prec emax m e l) as [mrs1 e1]. simpl in H1.
  pose proof (shr_fexp_nonneg _ e1 loc_Exact
                (round_nearest_even_nonneg _ (loc_of_shr_record mrs1) H1)) as H2.
  destruct (shr_fexp prec emax _ e1 loc_Exact) as [mrs2 e2]. simpl in H2.
  destruct (shr_m mrs2) as [|p|p]; try reflexivity; [|lia].
  destruct (e2 <=? emax - prec); reflexivity.
Qed.

Lemma float_of_ratio_number (n d : Z) :
  0 < d -> is_number (float_of_ratio n d) = true.
Proof.
  intros Hd. unfold float_of_ratio. destruct n as [|p|p]; try reflexivity.
  unfold SFdiv_core_binary.
  set (s := _ - _ - _).
  set (m1 := match s with Z0 => _ | Zpos _ => _ | Zneg _ => _ end).
  assert (Hm : 0 <= m1).
  { subst m1. destruct s; try lia. apply Z.shiftl_nonneg. lia. }
  pose proof (Z.div_pos m1 d Hm Hd) as Hq. unfold Z.div in Hq.
  destruct (Z.div_eucl m1 d) as [q r]. simpl in Hq.
  apply binary_round_aux_number. exact Hq.
Qed.

Lemma literal_value_number (F : str) : is_number (literal_value F) = true.
Proof.
  unfold literal_value. destruct (span isdecimal F) as [ip rest].
  apply float_of_ratio_number. apply Z.pow_pos_nonneg; lia.
Qed.

Local Close Scope Z_scope.

(** ** [generate_intervals] *)

Lemma located_records (rawtext : str) :
  Forall (matches Interval.interval_record) (Conversation.located rawtext).
Proof.
  unfold Conversation.located, finditer. apply Forall_forall.
  intros u Hu. apply in_map_iff in Hu. destruct Hu as (m & <- & Hm).
  apply scan_In in Hm. destruct Hm as (s1 & Hm).
  apply grouped_block in Hm. destruct Hm as (v & E & Hv).
  unfold group_or_empty. rewrite E. exact Hv.
Qed.

Lemma generate_from_records (filepath : str) (blocks : list str) :
  Forall (matches Interval.interval_record) blocks ->
  exists ivs,
    Conversation.generate_from filepath blocks =
      {| yields := map Iv ivs ++ [PyFalse]; ending := None |} /\
    map Interval.raw ivs = blocks /\ Forall (parsed filepath) ivs.
Proof.
  induction 1 as [|u blocks Hu _ IH].
  - exists []. repeat split; constructor.
  - destruct IH as (ivs & E & Hr & Hp).
    destruct (record_parsed u (Some filepath) Hu)
      as (N & F1 & F2 & T & _ & _ & _ & Ef).
    eexists (_ :: ivs). cbn [Conversation.generate_from]. rewrite Ef.
    unfold ok. rewrite E. repeat split.
    + cbn [map Interval.raw]. rewrite Hr. reflexivity.
    + constructor; [|exact Hp]. unfold parsed.
      cbn [Interval.xmin Interval.xmax Interval.textgrid Interval.raw].
      rewrite !literal_value_number. repeat split. exact Ef.
Qed.

(** [generate_intervals] never raises: it yields the interval of every
    located block, in order, then [False], and returns. *)
Lemma generate_intervals_spec (open_textgrid : str -> str) (filepath : str) :
  exists ivs,
    Conversation.generate_intervals open_textgrid filepath =
      {| yields := map Iv ivs ++ [PyFalse]; ending := None |} /\
    map Interval.raw ivs = Conversation.located (open_textgrid filepath) /\
    Forall (parsed filepath) ivs.
Proof.
  unfold Conversation.generate_intervals.
  destruct (generate_from_records filepath _
              (located_records (open_textgrid filepath)))
    as (ivs & E & Hr & Hp).
  exists ivs. rewrite E. repeat split; auto.
Qed.

Lemma intervals_items (ivs : list Interval.t) (e : option exn) :
  intervals {| yields := map Iv ivs ++ [PyFalse]; ending := e |} = ivs.
Proof.
  unfold intervals. cbn [yields]. induction ivs as [|iv ivs IH]; simpl;
    [reflexivity|]. rewrite IH. reflexivity.
Qed.


(** *** Blocks without a closing quote *)








(** ** [linearize] *)

Lemma items_cons (a : Interval.t) (l : list Interval.t) :
  items (a :: l) = Iv a :: items l.
Proof. reflexivity. Qed.

Lemma map_snd_pair (s : side) (l : list Interval.t) :
  map snd (map (pair s) l) = l.
Proof. induction l; simpl; congruence. Qed.

Lemma drain_items (iv : Interval.t) (l : list Interval.t) :
  Conversation.drain None (Iv iv) (items l) =
  {| yields := iv :: l; ending := Some StopIteration |}.
Proof.
  revert iv. induction l as [|a l IH]; intros iv.
  - reflexivity.
  - rewrite items_cons. cbn [Conversation.drain]. rewrite IH. reflexivity.
Qed.

Lemma merge_loop_first (a b : Interval.t) (l1 l2 : list Interval.t) :
  float_le (Interval.xmin a) (Interval.xmin b) = true ->
  Conversation.merge_loop None None a (items l1) b (items l2) =
  yield a
    match l1 with
    | [] => Conversation.drain None (Iv b) (items l2)
    | a' :: l1' =>
        Conversation.merge_loop None None a' (items l1') b (items l2)
    end.
Proof.
  intros E. destruct l1, l2; cbn [items map app Conversation.merge_loop];
    rewrite E; reflexivity.
Qed.

Lemma merge_loop_second (a b : Interval.t) (l1 l2 : list Interval.t) :
  float_le (Interval.xmin a) (Interval.xmin b) = false ->
  Conversation.merge_loop None None a (items l1) b (items l2) =
  yield b
    match l2 with
    | [] => Conversation.drain None (Iv a) (items l1)
    | b' :: l2' =>
        Conversation.merge_loop None None a (items l1) b' (items l2')
    end.
Proof.
  intros E. destruct l1, l2; cbn [items map app Conversation.merge_loop];
    rewrite E; reflexivity.
Qed.

Lemma merge_tagged_step (a b : Interval.t) (l1 l2 : list Interval.t) :
  merge_tagged (a :: l1) (b :: l2) =
  if float_le (Interval.xmin a) (Interval.xmin b)
  then (First, a) :: merge_tagged l1 (b :: l2)
  else (Second, b) :: merge_tagged (a :: l1) l2.
Proof. destruct l1, l2; reflexivity. Qed.

Lemma merge_tagged_nil_r (l1 : list Interval.t) :
  merge_tagged l1 [] = map (pair First) l1.
Proof. destruct l1; reflexivity. Qed.

Lemma merge_tagged_nil_l (l2 : list Interval.t) :
  merge_tagged [] l2 = map (pair Second) l2.
Proof. destruct l2; reflexivity. Qed.

Lemma merge_loop_items (l1 : list Interval.t) :
  forall a l2 b,
    Conversation.merge_loop None None a (items l1) b (items l2) =
    {| yields := map snd (merge_tagged (a :: l1) (b :: l2));
       ending := Some StopIteration |}.
Proof.
  induction l1 as [|a' l1 IH1]; intros a l2; induction l2 as [|b' l2 IH2];
    intros b; rewrite merge_tagged_step;
    destruct (float_le (Interval.xmin a) (Interval.xmin b)) eqn:E;
    [ rewrite (merge_loop_first _ _ _ _ E)
    | rewrite (merge_loop_second _ _ _ _ E)
    | rewrite (merge_loop_first _ _ _ _ E)
    | rewrite (merge_loop_second _ _ _ _ E)
    | rewrite (merge_loop_first _ _ _ _ E)
    | rewrite (merge_loop_second _ _ _ _ E)
    | rewrite (merge_loop_first _ _ _ _ E)
    | rewrite (merge_loop_second _ _ _ _ E) ];
    rewrite ?drain_items, ?IH1, ?IH2, ?merge_tagged_nil_l,
      ?merge_tagged_nil_r; cbn [map snd]; rewrite ?map_snd_pair;
    reflexivity.
Qed.

(** The body of [linearize] yields the merge of the two sequences and
    then raises [StopIteration]. *)
Lemma linearize_body_merge (l1 l2 : list Interval.t) :
  Conversation.linearize_body (gen_of l1) (gen_of l2) =
  {| yields := map snd (merge_tagged l1 l2); ending := Some StopIteration |}.
Proof.
  unfold Conversation.linearize_body, gen_of. cbn [yields ending].
  destruct l1 as [|a l1], l2 as [|b l2]; rewrite ?items_cons;
    cbn [next ok]; try change (items []) with [PyFalse]; cbn [next ok].
  - reflexivity.
  - rewrite (drain_items b l2), merge_tagged_nil_l, map_snd_pair.
    reflexivity.
  - rewrite (drain_items a l1), merge_tagged_nil_r, map_snd_pair.
    reflexivity.
  - apply merge_loop_items.
Qed.

Lemma interleaved_first (l1 : list Interval.t) :
  interleaved l1 [] (map (pair First) l1).
Proof. induction l1; simpl; constructor; assumption. Qed.

Lemma interleaved_second (l2 : list Interval.t) :
  interleaved [] l2 (map (pair Second) l2).
Proof. induction l2; simpl; constructor; assumption. Qed.

Lemma merge_tagged_interleaved (l1 : list Interval.t) :
  forall l2, interleaved l1 l2 (merge_tagged l1 l2).
Proof.
  induction l1 as [|a l1 IH1]; intros l2.
  - rewrite merge_tagged_nil_l. apply interleaved_second.
  - induction l2 as [|b l2 IH2].
    + rewrite merge_tagged_nil_r. apply interleaved_first.
    + rewrite merge_tagged_step.
      destruct (float_le (Interval.xmin a) (Interval.xmin b));
        constructor; auto.
Qed.

Lemma interleaved_permutation (l1 l2 : list Interval.t) out :
  interleaved l1 l2 out -> Permutation (l1 ++ l2) (map snd out).
Proof.
  induction 1; simpl.
  - constructor.
  - constructor. assumption.
  - apply Permutation_sym. apply Permutation_cons_app.
    apply Permutation_sym. assumption.
Qed.

Lemma interleaved_In_first (l1 l2 : list Interval.t) out (a : Interval.t) :
  interleaved l1 l2 out -> In (First, a) out -> In a l1.
Proof.
  induction 1; simpl; intros H'.
  - contradiction.
  - destruct H' as [E|H']; [inversion E; auto|auto].
  - destruct H' as [E|H']; [discriminate|auto].
Qed.

Lemma merge_tagged_hd (x : Interval.t) (l1 l2 : list Interval.t) :
  HdRel le_xmin x l1 -> HdRel le_xmin x l2 ->
  HdRel le_xmin x (map snd (merge_tagged l1 l2)).
Proof.
  intros H1 H2. destruct l1 as [|a l1].
  - rewrite merge_tagged_nil_l, map_snd_pair. exact H2.
  - destruct l2 as [|b l2].
    + rewrite merge_tagged_nil_r, map_snd_pair. exact H1.
    + rewrite merge_tagged_step.
      destruct (float_le (Interval.xmin a) (Interval.xmin b));
        cbn [map snd]; constructor; [inversion H1|inversion H2]; assumption.
Qed.

Lemma merge_tagged_sorted (l1 : list Interval.t) :
  forall l2,
    numbers l1 -> numbers l2 -> nondecreasing l1 -> nondecreasing l2 ->
    nondecreasing (map snd (merge_tagged l1 l2)).
Proof.
  unfold nondecreasing.
  induction l1 as [|a l1 IH1]; intros l2 N1 N2 S1 S2.
  - rewrite merge_tagged_nil_l, map_snd_pair. exact S2.
  - induction l2 as [|b l2 IH2].
    + rewrite merge_tagged_nil_r, map_snd_pair. exact S1.
    + rewrite merge_tagged_step.
      inversion S1 as [|? ? S1' H1]; subst.
      inversion S2 as [|? ? S2' H2]; subst.
      inversion N1 as [|? ? Na N1']; subst.
      inversion N2 as [|? ? Nb N2']; subst.
      destruct (float_le (Interval.xmin a) (Interval.xmin b)) eqn:E;
        cbn [map snd]; constructor.
      * apply IH1; assumption.
      * apply merge_tagged_hd; [exact H1|constructor; exact E].
      * apply IH2; assumption.
      * apply merge_tagged_hd; [|exact H2]. constructor.
        apply float_le_total; assumption.
Qed.

Lemma le_xmin_trans : Relations_1.Transitive le_xmin.
Proof. intros a b c. unfold le_xmin. apply float_le_trans. Qed.

Lemma merge_tagged_ties (l1 : list Interval.t) :
  forall l2, nondecreasing l1 -> ties_first (merge_tagged l1 l2).
Proof.
  induction l1 as [|a l1 IH1]; intros l2 S1.
  - rewrite merge_tagged_nil_l. induction l2 as [|b l2 IH]; simpl; [exact I|].
    split; [|exact IH]. intros x Hx. exfalso.
    apply in_map_iff in Hx. destruct Hx as (y & E & _). discriminate.
  - induction l2 as [|b l2 IH2].
    + rewrite merge_tagged_nil_r. clear. generalize (a :: l1).
      induction l; simpl; auto.
    + rewrite merge_tagged_step.
      destruct (float_le (Interval.xmin a) (Interval.xmin b)) eqn:E.
      * cbn [ties_first]. apply IH1. inversion S1; assumption.
      * cbn [ties_first]. split; [|exact IH2].
        intros x Hx.
        apply (interleaved_In_first (a :: l1) l2) in Hx;
          [|apply merge_tagged_interleaved].
        destruct (float_eq (Interval.xmin x) (Interval.xmin b)) eqn:Ex;
          [exfalso|reflexivity].
        apply float_eq_le in Ex.
        assert (Hax : float_le (Interval.xmin a) (Interval.xmin x) = true).
        { destruct Hx as [->|Hx].
          - apply float_le_number in Ex. destruct Ex as [Nx _].
            apply float_le_key. repeat split; auto.
            unfold key_le. destruct (float_key (Interval.xmin x)) as [[? ?] ?].
            lia.
          - apply Sorted_StronglySorted in S1; [|exact le_xmin_trans].
            inversion S1 as [|? ? _ Hall]; subst.
            rewrite Forall_forall in Hall. apply (Hall x Hx). }
        rewrite (float_le_trans _ _ _ Hax Ex) in E. discriminate.
Qed.

Lemma parsed_numbers (filepath : str) (ivs : list Interval.t) :
  Forall (parsed filepath) ivs -> numbers ivs.
Proof.
  unfold numbers. apply Forall_impl. intros iv H. apply H.
Qed.

(** What [linearize] does: it yields the merge of the intervals of its
    two generators, and its body then raises [StopIteration], which the
    generator turns into a [RuntimeError]. *)
Lemma linearize_spec (open_textgrid : str -> str) (self : Conversation.t) :
  let l1 :=
    intervals (Conversation.generate_intervals open_textgrid
                 (Conversation.textgrid1 self)) in
  let l2 :=
    intervals (Conversation.generate_intervals open_textgrid
                 (Conversation.textgrid2 self)) in
  Conversation.linearize open_textgrid self =
    {| yields := map snd (merge_tagged l1 l2);
       ending := Some (RuntimeError (py "generator raised StopIteration")) |}
  /\ numbers l1 /\ numbers l2.
Proof.
  intros l1 l2. subst l1 l2. unfold Conversation.linearize.
  destruct (generate_intervals_spec open_textgrid (Conversation.textgrid1 self))
    as (ivs1 & E1 & _ & P1).
  destruct (generate_intervals_spec open_textgrid (Conversation.textgrid2 self))
    as (ivs2 & E2 & _ & P2).
  rewrite E1, E2, !intervals_items.
  change {| yields := map Iv ivs1 ++ [PyFalse]; ending := None |}
    with (gen_of ivs1).
  change {| yields := map Iv ivs2 ++ [PyFalse]; ending := None |}
    with (gen_of ivs2).
  rewrite linearize_body_merge.
  repeat split; eauto using parsed_numbers.
Qed.

(** C1. When the intervals of the two files are each non-decreasing in
    [xmin], [linearize] yields every one of them exactly once, in an
    order that keeps the order of each file, non-decreasing in [xmin],
    and in which, of two intervals with equal [xmin] from different
    files, the one of the first file comes first.  For the [xmin]
    sequences 0.0, 2.0, 5.0 and 1.0, 1.5, 6.0 the merged order is 0.0,
    1.0, 1.5, 2.0, 5.0, 6.0. *)
Theorem linearize_merges (open_textgrid : str -> str) (self : Conversation.t) :
  let l1 :=
    intervals (Conversation.generate_intervals open_textgrid
                 (Conversation.textgrid1 self)) in
  let l2 :=
    intervals (Conversation.generate_intervals open_textgrid
                 (Conversation.textgrid2 self)) in
  let out := yields (Conversation.linearize open_textgrid self) in
  nondecreasing l1 -> nondecreasing l2 ->
  (exists tagged,
     map snd tagged = out /\ interleaved l1 l2 tagged /\ ties_first tagged) /\
  Permutation (l1 ++ l2) out /\
  nondecreasing out /\
  (map Interval.xmin l1 = map literal_value [py "0.0"; py "2.0"; py "5.0"] ->
   map Interval.xmin l2 = map literal_value [py "1.0"; py "1.5"; py "6.0"] ->
   map Interval.xmin out =
     map literal_value
       [py "0.0"; py "1.0"; py "1.5"; py "2.0"; py "5.0"; py "6.0"]).
Proof.
  intros l1 l2 out S1 S2.
  destruct (linearize_spec open_textgrid self) as (E & N1 & N2).
  fold l1 l2 in E, N1, N2. subst out. rewrite E. cbn [yields].
  split; [|split; [|split]].
  - exists (merge_tagged l1 l2). split; [reflexivity|].
    split; [apply merge_tagged_interleaved|apply merge_tagged_ties; exact S1].
  - apply interleaved_permutation. apply merge_tagged_interleaved.
  - apply merge_tagged_sorted; assumption.
  - clear. generalize l1 l2. clear. intros l1 l2 H1 H2.
    destruct l1 as [|a1 [|a2 [|a3 [|? ?]]]]; try discriminate.
    destruct l2 as [|b1 [|b2 [|b3 [|? ?]]]]; try discriminate.
    cbn [map] in H1, H2.
    injection H1 as A1 A2 A3. injection H2 as B1 B2 B3.
    repeat (rewrite merge_tagged_step; rewrite ?A1, ?A2, ?A3, ?B1, ?B2, ?B3;
            match goal with
            | |- context [float_le ?x ?y] =>
                let v := eval vm_compute in (float_le x y) in
                change (float_le x y) with v
            end; cbv iota).
    rewrite merge_tagged_nil_l. cbn [map snd].
    rewrite A1, A2, A3, B1, B2, B3. reflexivity.
Qed.

Lemma linearize_merges_witness :
  nondecreasing
    (intervals (Conversation.generate_intervals example_files (py "a.TextGrid")))
  /\
  nondecreasing
    (intervals (Conversation.generate_intervals example_files (py "b.TextGrid")))
  /\
  map Interval.xmin
    (yields (Conversation.linearize example_files example_conversation)) =
  map literal_value
    [py "0.0"; py "1.0"; py "1.5"; py "2.0"; py "5.0"; py "6.0"].
Proof.
  assert (S1 : nondecreasing
                 (intervals (Conversation.generate_intervals example_files
                               (py "a.TextGrid"))))
    by (vm_compute; repeat constructor).
  assert (S2 : nondecreasing
                 (intervals (Conversation.generate_intervals example_files
                               (py "b.TextGrid"))))
    by (vm_compute; repeat constructor).
  split; [exact S1|]. split; [exact S2|].
  apply (linearize_merges example_files example_conversation S1 S2);
    vm_compute; reflexivity.
Defined.

(** C4, what the code does.  Whatever the two files hold, the iteration of
    [linearize] ends with a [RuntimeError]: the [raise StopIteration] of
    its body does not end a generator.  Before that, the items are those
    of the other file when one file has no interval; for two files
    without intervals nothing is yielded before the error. *)
Theorem linearize_ends_with_error (open_textgrid : str -> str)
  (self : Conversation.t) :
  let l1 :=
    intervals (Conversation.generate_intervals open_textgrid
                 (Conversation.textgrid1 self)) in
  let l2 :=
    intervals (Conversation.generate_intervals open_textgrid
                 (Conversation.textgrid2 self)) in
  let run := Conversation.linearize open_textgrid self in
  ending run = Some (RuntimeError (py "generator raised StopIteration")) /\
  (l1 = [] -> yields run = l2) /\
  (l2 = [] -> yields run = l1) /\
  Conversation.linearize empty_files example_conversation =
    {| yields := [];
       ending := Some (RuntimeError (py "generator raised StopIteration")) |}.
Proof.
  intros l1 l2 run.
  destruct (linearize_spec open_textgrid self) as (E & _ & _).
  fold l1 l2 run in E. rewrite E. cbn [yields ending].
  split; [reflexivity|]. split; [|split].
  - intros ->. rewrite merge_tagged_nil_l. apply map_snd_pair.
  - intros ->. rewrite merge_tagged_nil_r. apply map_snd_pair.
  - vm_compute. reflexivity.
Qed.

(** * Further properties *)

(** ** The words of [tokenize] *)

Lemma make_tokens_pattern_value :
  Interval.make_tokens_pattern = ok tokens_pattern /\
  tokens_pattern = Group 1 (alt token_alternatives).
Proof. split; reflexivity. Qed.

Lemma matches_alt_In (rs : list regex) (u : str) :
  rs <> [] -> matches (alt rs) u -> exists r, In r rs /\ matches r u.
Proof.
  induction rs as [|r rs IH]; intros Hne H; [congruence|].
  destruct rs as [|r' rs].
  - exists r. split; [left; reflexivity|exact H].
  - cbn [alt] in H. apply matches_alt_inv in H. destruct H as [H|H].
    + exists r. split; [left; reflexivity|exact H].
    + destruct (IH ltac:(discriminate) H) as (r0 & Hin & Hr0).
      exists r0. split; [right; exact Hin|exact Hr0].
Qed.

Lemma contains_single (a : ascii) (s : str) :
  contains [a] s = existsb (ascii_eqb a) s.
Proof.
  induction s as [|b s IH]; [reflexivity|].
  cbn [contains startswith existsb]. rewrite IH.
  destruct (ascii_eqb a b), s; reflexivity.
Qed.

Lemma existsb_outside (p : ascii -> bool) (a : ascii) (w : str) :
  (forall c, p c = true -> ascii_eqb a c = false) ->
  forallb p w = true -> existsb (ascii_eqb a) w = false.
Proof.
  intros Hp. induction w as [|c w IH]; simpl; [reflexivity|].
  intros H. apply andb_true_iff in H. destruct H as [Hc Hw].
  rewrite (Hp c Hc), (IH Hw). reflexivity.
Qed.

Lemma lower_keeps_delimiter (a c : ascii) :
  is_delimiter a = true -> ascii_eqb a (lower_char c) = ascii_eqb a c.
Proof.
  unfold is_delimiter. intros H.
  repeat (apply orb_true_iff in H; destruct H as [H|H]);
    apply ascii_eqb_eq in H; subst a;
    destruct c as [[] [] [] [] [] [] [] []]; reflexivity.
Qed.

Lemma existsb_lower (a : ascii) (w : str) :
  is_delimiter a = true ->
  existsb (ascii_eqb a) (lower w) = existsb (ascii_eqb a) w.
Proof.
  intros H. induction w as [|c w IH]; simpl; [reflexivity|].
  rewrite (lower_keeps_delimiter a c H), IH. reflexivity.
Qed.

Lemma unbalanced_delimiters (w : str) :
  unbalanced (lower w) =
  xorb (existsb (ascii_eqb "["%char) w) (existsb (ascii_eqb "]"%char) w)
  || xorb (existsb (ascii_eqb "("%char) w) (existsb (ascii_eqb ")"%char) w).
Proof.
  unfold unbalanced. rewrite balanced_pairs_value.
  cbn [existsb fst snd]. change (py "[") with ["["%char].
  change (py "]") with ["]"%char]. change (py "(") with ["("%char].
  change (py ")") with [")"%char]. rewrite !contains_single.
  rewrite !existsb_lower by reflexivity.
  rewrite !xorb_nilpotent, !orb_false_r. reflexivity.
Qed.

Lemma phrase_class_no_delimiter (a c : ascii) :
  is_delimiter a = true -> Interval.phrase_class c = true ->
  ascii_eqb a c = false.
Proof.
  unfold is_delimiter. intros H.
  repeat (apply orb_true_iff in H; destruct H as [H|H]);
    apply ascii_eqb_eq in H; subst a;
    destruct c as [[] [] [] [] [] [] [] []]; vm_compute; congruence.
Qed.

Lemma inner_class_no_delimiter (a c : ascii) :
  is_delimiter a = true -> Interval.inner_class c = true ->
  ascii_eqb a c = false.
Proof.
  unfold is_delimiter. intros H.
  repeat (apply orb_true_iff in H; destruct H as [H|H]);
    apply ascii_eqb_eq in H; subst a;
    destruct c as [[] [] [] [] [] [] [] []]; vm_compute; congruence.
Qed.

(** Every text of an alternative of the tokens pattern passes the balance
    check. *)
Lemma alternative_balanced (r : regex) (w : str) :
  In r token_alternatives -> matches r w -> unbalanced (lower w) = false.
Proof.
  intros Hin Hw. rewrite unbalanced_delimiters.
  unfold token_alternatives in Hin. apply in_app_or in Hin.
  destruct Hin as [Hin|Hin]; [|apply in_app_or in Hin; destruct Hin as [Hin|Hin]].
  - apply in_map_iff in Hin. destruct Hin as (x & <- & Hx).
    apply matches_lit in Hw. subst w.
    cbn [TAGS_NONCONTENT In] in Hx.
    repeat (destruct Hx as [<-|Hx]; [vm_compute; reflexivity|]).
    contradiction.
  - destruct Hin as [<-|[]]. apply matches_plus_chr in Hw.
    destruct Hw as [_ Hw].
    rewrite !(existsb_outside Interval.phrase_class _ w) by
      (auto using phrase_class_no_delimiter).
    reflexivity.
  - rewrite balanced_pairs_value in Hin. cbn [map In fst snd] in Hin.
    assert (Hseq : forall l r0 : str,
               matches (seq [lit l; plus (Chr Interval.inner_class); lit r0]) w ->
               exists u, w = l ++ u ++ r0 /\
                         forallb Interval.inner_class u = true).
    { intros l r0 H. cbn [seq] in H. apply matches_cat_inv in H.
      destruct H as (x & y & -> & Hx & Hy). apply matches_lit in Hx. subst x.
      apply matches_cat_inv in Hy. destruct Hy as (u & z & -> & Hu & Hz).
      apply matches_cat_inv in Hz. destruct Hz as (z1 & e & -> & Hz1 & He).
      apply matches_lit in Hz1. subst z1. apply matches_eps_inv in He. subst e.
      apply matches_plus_chr in Hu. exists u. rewrite app_nil_r. tauto. }
    repeat (destruct Hin as [<-|Hin];
            [destruct (Hseq _ _ Hw) as (u & -> & Hu);
             rewrite !existsb_app; cbn [py list_ascii_of_string existsb];
             rewrite !(existsb_outside Interval.inner_class _ u) by
               (auto using inner_class_no_delimiter);
             reflexivity|]).
    contradiction.
Qed.

(** ** The matches of a scan *)

Lemma in_order_app (pre s : str) (ws : list str) :
  in_order s ws -> in_order (pre ++ s) ws.
Proof.
  intros H. destruct H as [s|p w rest ws H]; [constructor|].
  rewrite app_assoc. constructor. exact H.
Qed.

Lemma in_order_filter (f : str -> bool) (s : str) (ws : list str) :
  in_order s ws -> in_order s (filter f ws).
Proof.
  intros H. induction H as [s|p w rest ws H IH]; simpl; [constructor|].
  destruct (f w); [constructor; exact IH|].
  rewrite app_assoc. apply in_order_app. exact IH.
Qed.

Lemma consumed_split (s s1 : str) :
  s = consumed s s1 ++ skipn (length (consumed s s1)) s.
Proof.
  unfold consumed. rewrite length_firstn.
  rewrite <- (firstn_skipn (length s - length s1) s) at 1.
  f_equal. f_equal. lia.
Qed.

(** The matches of a scan lie in the text in their order, one after the
    other. *)
Lemma scan_in_order (r : regex) :
  forall s skip, in_order (skipn skip s) (map whole (scan r skip s)).
Proof.
  induction s as [|a s IH]; intros skip.
  - destruct skip; simpl; [|constructor].
    destruct (re_match r []) as [m|] eqn:E; simpl; [|constructor].
    apply re_match_inv in E. destruct E as (s1 & _ & ->).
    apply (io_cons [] [] []). constructor.
  - destruct skip as [|k]; cbn [scan skipn]; [|apply IH].
    destruct (re_match r (a :: s)) as [m|] eqn:E.
    + cbn [map]. apply re_match_inv in E. destruct E as (s1 & _ & Hw).
      specialize (IH (length (whole m) - 1)).
      pose proof (consumed_split (a :: s) s1) as Hs. rewrite <- Hw in Hs.
      destruct (whole m) as [|b w] eqn:Ew.
      * simpl in IH. apply (io_cons [] [] (a :: s)).
        apply (in_order_app [a]). exact IH.
      * cbn [length skipn] in Hs. cbn [length] in IH.
        replace (S (length w) - 1) with (length w) in IH by lia.
        rewrite Hs at 1. apply (io_cons [] (b :: w)).
        cbn [length]. replace (S (length w) - 1) with (length w) by lia.
        exact IH.
    + apply (in_order_app [a]). apply (IH 0).
Qed.

(** A match of a pattern inside the group 1 holds its whole text in that
    group, and the text is in the language of the pattern. *)
Lemma group1_match (r : regex) (s : str) (m : Match) :
  re_match (Group 1 r) s = Some m ->
  group_or_empty m 1 = whole m /\ matches r (whole m).
Proof.
  intros H. apply re_match_inv in H. destruct H as (s1 & H & Hw).
  rewrite rmatch_group in H.
  apply (rmatch_sound (fun _ => True)) in H;
    [|apply group_pres_all; auto|exact I].
  destruct H as (u & s2 & c1 & -> & Hu & _ & E).
  injection E as E1 E2. subst s1. rewrite consumed_app in *.
  unfold group_or_empty. rewrite <- E1, Hw. simpl. auto.
Qed.

Lemma findall1_whole (r : regex) (s : str) :
  Interval.findall1 (Group 1 r) s = map whole (finditer (Group 1 r) s) /\
  Forall (matches r) (Interval.findall1 (Group 1 r) s).
Proof.
  unfold Interval.findall1.
  assert (H : Forall (fun m => group_or_empty m 1 = whole m /\
                               matches r (whole m))
                     (finditer (Group 1 r) s)).
  { apply Forall_forall. intros m Hm. apply scan_In in Hm.
    destruct Hm as (s1 & Hm). apply (group1_match r s1 m Hm). }
  induction H as [|m l [E Hm] _ [IH1 IH2]]; simpl; [auto|].
  rewrite E, IH1. split; [reflexivity|]. constructor; [exact Hm|].
  rewrite <- IH1. exact IH2.
Qed.

Lemma findall1_in_order (r : regex) (s : str) :
  in_order s (Interval.findall1 (Group 1 r) s).
Proof.
  rewrite (proj1 (findall1_whole r s)). apply (scan_in_order (Group 1 r) s 0).
Qed.

(** ** The tokenizer *)

Lemma token_alternatives_nonempty : token_alternatives <> [].
Proof. discriminate. Qed.

Lemma word_balanced (w : str) :
  matches (alt token_alternatives) w -> unbalanced (lower w) = false.
Proof.
  intros H. apply (matches_alt_In _ _ token_alternatives_nonempty) in H.
  destruct H as (r & Hin & Hr). apply (alternative_balanced r w Hin Hr).
Qed.

Lemma init_balanced (w : str) (cleanup : bool) :
  unbalanced (lower w) = false ->
  exists tok, Token.init w cleanup = ok tok /\ Token.raw tok = w.
Proof.
  intros H. unfold Token.init. rewrite check_balanced_spec.
  fold (unbalanced (lower w)). rewrite H. simpl.
  destruct cleanup; simpl; eexists; split; reflexivity.
Qed.

Lemma maketoken_spec (noncontent : list str) (df dn di ct : bool) (w : str) :
  Interval.maketoken noncontent df dn di ct w =
  if discarded noncontent df dn di w then ok None
  else tok <- Token.init w ct ;; ok (Some tok).
Proof. reflexivity. Qed.

Lemma collect_words (noncontent : list str) (df dn di ct : bool)
  (words : list str) :
  Forall (fun w => unbalanced (lower w) = false) words ->
  exists toks,
    Interval.collect (Interval.maketoken noncontent df dn di ct) words
      = ok toks /\
    Forall2 (fun w tok => Token.init w ct = ok tok)
            (filter (fun w => negb (discarded noncontent df dn di w)) words)
            toks.
Proof.
  induction 1 as [|w words Hw _ (toks & E & IH)].
  - exists []. split; [reflexivity|constructor].
  - cbn [Interval.collect filter]. rewrite maketoken_spec, E.
    destruct (discarded noncontent df dn di w); simpl.
    + exists toks. auto.
    + destruct (init_balanced w ct Hw) as (tok & Et & _). rewrite Et. simpl.
      exists (tok :: toks). split; [reflexivity|]. constructor; assumption.
Qed.

(** [tokenize] returns one token for each word that it keeps. *)
Lemma tokenize_words (text_ : str) (fl df dn di ct : bool) :
  exists toks,
    Interval.tokenize text_ fl df dn di ct = ok toks /\
    Forall2 (fun w tok => Token.init w ct = ok tok)
            (kept_words fl df dn di text_) toks.
Proof.
  unfold Interval.tokenize, kept_words.
  rewrite (proj1 make_tokens_pattern_value). cbn [bind ok].
  fold (scanned_text fl text_). fold (noncontent_forms fl).
  apply collect_words.
  rewrite (proj2 make_tokens_pattern_value).
  eapply Forall_impl; [|apply findall1_whole]. apply word_balanced.
Qed.

Lemma init_raw (w : str) (ct : bool) (tok : Token.t) :
  Token.init w ct = ok tok -> Token.raw tok = w.
Proof.
  unfold Token.init. destruct (Token.check_balanced _ _ _); [discriminate|].
  simpl. destruct ct; simpl; intros E; injection E as <-; reflexivity.
Qed.

Lemma tokens_raw (ct : bool) (ws : list str) (toks : list Token.t) :
  Forall2 (fun w tok => Token.init w ct = ok tok) ws toks ->
  map Token.raw toks = ws.
Proof.
  induction 1 as [|w tok ws toks E _ IH]; simpl; [reflexivity|].
  rewrite (init_raw w ct tok E), IH. reflexivity.
Qed.

Lemma word_has_shape (w : str) :
  matches (alt token_alternatives) w -> word_shape w.
Proof.
  intros H. apply (matches_alt_In _ _ token_alternatives_nonempty) in H.
  destruct H as (r & Hin & Hw). unfold token_alternatives in Hin.
  apply in_app_or in Hin.
  destruct Hin as [Hin|Hin]; [|apply in_app_or in Hin; destruct Hin as [Hin|Hin]].
  - left. apply in_map_iff in Hin. destruct Hin as (x & <- & Hx).
    apply matches_lit in Hw. subst w. apply in_map, in_map. exact Hx.
  - right. left. destruct Hin as [<-|[]]. apply run_spec.
    apply matches_plus_chr. exact Hw.
  - right. right. apply in_map_iff in Hin. destruct Hin as ([l r0] & <- & Hp).
    cbn [fst snd seq] in Hw. apply matches_cat_inv in Hw.
    destruct Hw as (x & y & -> & Hx & Hy). apply matches_lit in Hx. subst x.
    apply matches_cat_inv in Hy. destruct Hy as (u & z & -> & Hu & Hz).
    apply matches_cat_inv in Hz. destruct Hz as (z1 & e & -> & Hz1 & He).
    apply matches_lit in Hz1. subst z1. apply matches_eps_inv in He. subst e.
    exists l, r0, u. rewrite app_nil_r. split; [exact Hp|]. split; [|reflexivity].
    apply run_spec. apply matches_plus_chr. exact Hu.
Qed.

Lemma word_shape_nonempty (w : str) : word_shape w -> w <> [].
Proof.
  intros [H|[H|(l & r & u & Hp & Hu & ->)]].
  - cbn [TAGS_NONCONTENT map In] in H.
    repeat (destruct H as [<-|H]; [discriminate|]). contradiction.
  - apply run_spec in H. tauto.
  - apply run_spec in Hu. destruct Hu as [Hu _]. intros E.
    apply app_eq_nil in E. destruct E as [_ E].
    apply app_eq_nil in E. tauto.
Qed.

Lemma kept_words_shape (fl df dn di : bool) (text_ : str) :
  Forall word_shape (kept_words fl df dn di text_).
Proof.
  unfold kept_words. apply Forall_forall. intros w Hw.
  apply filter_In in Hw. destruct Hw as [Hw _]. revert w Hw.
  apply Forall_forall. rewrite (proj2 make_tokens_pattern_value).
  eapply Forall_impl; [|apply findall1_whole]. apply word_has_shape.
Qed.

(** X1. [tokenize] never raises: whatever the text and the flags, it
    returns a list of tokens, one for each word of the scan that no flag
    discards, in the order of the scan, and the [raw] of the token is the
    word.  The balance check of [Token] cannot fail on a word of the
    tokens pattern. *)
Theorem tokenize_never_raises (text_ : str)
  (force_lowercase discard_fillers discard_noncontent discard_incomplete
     cleanup_token : bool) :
  exists toks,
    Interval.tokenize text_ force_lowercase discard_fillers
      discard_noncontent discard_incomplete cleanup_token = ok toks /\
    map Token.raw toks =
      kept_words force_lowercase discard_fillers discard_noncontent
        discard_incomplete text_ /\
    Forall (fun tok => Token.init (Token.raw tok) cleanup_token = ok tok) toks.
Proof.
  destruct (tokenize_words text_ force_lowercase discard_fillers
              discard_noncontent discard_incomplete cleanup_token)
    as (toks & E & H).
  exists toks. split; [exact E|]. split; [apply (tokens_raw _ _ _ H)|].
  clear E. induction H as [|w tok ws toks' Hw _ IH]; [constructor|].
  constructor; [|exact IH]. rewrite (init_raw w _ tok Hw). exact Hw.
Qed.

(** X2. What the discard flags promise of the result: with
    [discard_incomplete] no token has a [raw] that ends with the tilde,
    with [discard_noncontent] no token has a [raw] among the noncontent
    forms, and with [discard_fillers] a token whose [raw] starts with a
    parenthesis starts with "(pp". *)
Theorem tokenize_discards (text_ : str)
  (force_lowercase discard_fillers discard_noncontent discard_incomplete
     cleanup_token : bool) :
  exists toks,
    Interval.tokenize text_ force_lowercase discard_fillers
      discard_noncontent discard_incomplete cleanup_token = ok toks /\
    Forall (fun tok =>
              (discard_incomplete = true ->
               endswith (Token.raw tok) (py "~") = false) /\
              (discard_noncontent = true ->
               str_in (Token.raw tok) (noncontent_forms force_lowercase)
                 = false) /\
              (discard_fillers = true ->
               startswith (Token.raw tok) (py "(") = true ->
               startswith (Token.raw tok) (py "(pp") = true))
           toks.
Proof.
  destruct (tokenize_words text_ force_lowercase discard_fillers
              discard_noncontent discard_incomplete cleanup_token)
    as (toks & E & H).
  exists toks. split; [exact E|].
  apply tokens_raw in H. apply Forall_forall. intros tok Htok.
  apply (in_map Token.raw) in Htok. rewrite H in Htok.
  apply filter_In in Htok. destruct Htok as [_ Hk].
  apply negb_true_iff in Hk. unfold discarded in Hk.
  apply orb_false_iff in Hk. destruct Hk as [Hk H3].
  apply orb_false_iff in Hk. destruct Hk as [H1 H2].
  split; [|split].
  - intros ->. exact H1.
  - intros ->. exact H2.
  - intros -> Hs. rewrite Hs in H3. simpl in H3.
    apply negb_false_iff in H3. exact H3.
Qed.

(** X3. The tokens follow the text: the [raw] texts of the tokens occur
    in the scanned text (the lowercased text, or the text itself without
    [force_lowercase]) in the order of the tokens, one after the other
    without overlap. *)
Theorem tokenize_in_order (text_ : str)
  (force_lowercase discard_fillers discard_noncontent discard_incomplete
     cleanup_token : bool) :
  exists toks,
    Interval.tokenize text_ force_lowercase discard_fillers
      discard_noncontent discard_incomplete cleanup_token = ok toks /\
    in_order (scanned_text force_lowercase text_) (map Token.raw toks).
Proof.
  destruct (tokenize_words text_ force_lowercase discard_fillers
              discard_noncontent discard_incomplete cleanup_token)
    as (toks & E & H).
  exists toks. split; [exact E|].
  rewrite (tokens_raw _ _ _ H). unfold kept_words.
  apply in_order_filter. rewrite (proj2 make_tokens_pattern_value).
  apply findall1_in_order.
Qed.

(** X4. Every token comes from a word of one of three shapes: a
    noncontent tag in lower case, a non-empty run of word characters,
    clitic characters and apostrophes, or a non-empty run of word
    characters, hyphens, white space and apostrophes between the two
    delimiters of a balanced tag.  No token has an empty [raw]. *)
Theorem tokenize_word_shapes (text_ : str)
  (force_lowercase discard_fillers discard_noncontent discard_incomplete
     cleanup_token : bool) :
  exists toks,
    Interval.tokenize text_ force_lowercase discard_fillers
      discard_noncontent discard_incomplete cleanup_token = ok toks /\
    Forall (fun tok => word_shape (Token.raw tok) /\ Token.raw tok <> []) toks.
Proof.
  destruct (tokenize_words text_ force_lowercase discard_fillers
              discard_noncontent discard_incomplete cleanup_token)
    as (toks & E & H).
  exists toks. split; [exact E|].
  apply tokens_raw in H. apply Forall_forall. intros tok Htok.
  apply (in_map Token.raw) in Htok. rewrite H in Htok.
  pose proof (kept_words_shape force_lowercase discard_fillers
                discard_noncontent discard_incomplete text_) as Hs.
  rewrite Forall_forall in Hs. specialize (Hs _ Htok).
  split; [exact Hs|apply word_shape_nonempty; exact Hs].
Qed.

(** ** Plain words *)

Lemma matches_starts (r : regex) (u : str) :
  matches r u ->
  match u with
  | [] => nullable r = true
  | a :: _ => starts r a = true
  end.
Proof.
  induction 1 as [|p a Hp|r1 r2 u v _ IH1 _ IH2|r1 r2 u _ IH|r1 r2 u _ IH
                  |r|r u v Hne _ IH1 _ IH2|g r u _ IH]; cbn [nullable starts].
  - reflexivity.
  - exact Hp.
  - destruct u as [|a u]; cbn [app].
    + destruct v as [|b v]; rewrite IH1; [exact IH2|].
      rewrite IH2. apply orb_true_r.
    + rewrite IH1. reflexivity.
  - destruct u; rewrite IH; reflexivity.
  - destruct u; rewrite IH; apply orb_true_r.
  - reflexivity.
  - destruct u as [|a u]; [congruence|exact IH1].
  - exact IH.
Qed.

(** A pattern finds no match where the text starts with a character that
    starts none of its texts. *)
Lemma rmatch_refused (r : regex) (s : str) (c : caps)
  (k : str -> caps -> answer) :
  nullable r = false -> stops (starts r) s = true -> rmatch r s c k = None.
Proof.
  intros Hn Hs. destruct (rmatch r s c k) as [x|] eqn:E; [|reflexivity].
  apply (rmatch_sound (fun _ => True)) in E;
    [|apply group_pres_all; auto|exact I].
  destruct E as (u & s1 & c1 & -> & Hu & _). apply matches_starts in Hu.
  destruct u as [|a u]; [congruence|].
  simpl in Hs. rewrite Hu in Hs. discriminate.
Qed.

Lemma re_match_refused (r : regex) (s : str) :
  nullable r = false -> stops (starts r) s = true -> re_match r s = None.
Proof.
  intros Hn Hs. unfold re_match. rewrite (rmatch_refused r s _ _ Hn Hs).
  reflexivity.
Qed.



(** *** Characters *)















(** *** The scan of plain words *)






(** *** Plain words are kept *)


(** *** The token of a plain word *)












(** ** The content of a token after cleanup *)

Lemma re_search_matches (r : regex) (s : str) (m : Match) :
  re_search r s = Some m -> matches r (whole m).
Proof.
  unfold re_search, finditer. intros H.
  assert (Hin : In m (scan r 0 s)).
  { destruct (scan r 0 s); [discriminate|]. injection H as ->.
    left. reflexivity. }
  apply scan_In in Hin. destruct Hin as (s1 & Hm).
  apply re_match_inv in Hm. destruct Hm as (s2 & Hm & ->).
  apply (rmatch_sound (fun _ => True)) in Hm;
    [|apply group_pres_all; auto|exact I].
  destruct Hm as (u & s3 & c1 & -> & Hu & _ & E). injection E as _ <-.
  rewrite consumed_app. exact Hu.
Qed.

Lemma forallb_rev (p : ascii -> bool) (s : str) :
  forallb p s = true -> forallb p (rev s) = true.
Proof.
  rewrite !forallb_forall. intros H b Hb. apply H. apply in_rev. exact Hb.
Qed.

Lemma run_rev (p : ascii -> bool) (a : ascii) (cur : str) :
  forallb p (a :: cur) = true -> run p (rev (a :: cur)) = true.
Proof.
  intros H. apply run_spec. split; [|apply forallb_rev; exact H].
  intros E. apply (f_equal (@rev ascii)) in E. rewrite rev_involutive in E.
  discriminate.
Qed.

Lemma split_from_pieces (p : ascii -> bool) (s : str) :
  forall cur,
    forallb p s = true ->
    forallb (fun c => p c && negb (isspace c)) cur = true ->
    Forall (fun u => run (fun c => p c && negb (isspace c)) u = true)
           (split_from cur s).
Proof.
  induction s as [|a s IH]; intros cur Hs Hcur.
  - simpl. destruct cur as [|b cur]; [constructor|].
    constructor; [|constructor]. apply run_rev. exact Hcur.
  - simpl in Hs. apply andb_true_iff in Hs. destruct Hs as [Ha Hs].
    cbn [split_from]. destruct (isspace a) eqn:Ea.
    + destruct cur as [|b cur]; [apply IH; auto|].
      constructor; [apply run_rev; exact Hcur|apply IH; auto].
    + apply IH; [exact Hs|]. simpl. rewrite Ha, Ea, Hcur. reflexivity.
Qed.

(** X6. The content of a token after cleanup is in a normal form: words
    joined by single spaces, each word a non-empty run of the characters
    of [words_pattern] without white space (word characters, the clitic
    characters and the apostrophe); so it neither starts nor ends with a
    space and holds no two spaces in a row, and no delimiter of a tag is
    left in it.  The [text] is the content inside the canonical form of
    the tag. *)
Theorem token_content_normal_form (string : str) (tok : Token.t) :
  Token.init string true = ok tok ->
  (exists words,
     Token.content tok = join [space] words /\
     Forall (fun u => run content_char u = true) words) /\
  Token.text tok =
    fst (Token.wrapwith (Token.tag tok)) ++ Token.content tok
    ++ snd (Token.wrapwith (Token.tag tok)).
Proof.
  unfold Token.init.
  destruct (Token.check_balanced _ _ _); [discriminate|].
  cbn [bind negb]. intros E. injection E as <-.
  cbn [Token.content Token.text Token.tag]. split; [|reflexivity].
  eexists. split; [reflexivity|].
  unfold split. apply (split_from_pieces Token.words_class); [|reflexivity].
  destruct (re_search Token.words_pattern _) as [m|] eqn:Em; [|reflexivity].
  apply re_search_matches in Em. apply matches_plus_chr in Em. tauto.
Qed.

Lemma token_content_normal_form_witness :
  exists tok,
    Token.init (py "[Oh  My]") true = ok tok /\
    Token.content tok = py "oh my" /\ Token.text tok = py "[oh my]".
Proof.
  eexists. split; [reflexivity|].
  pose proof (token_content_normal_form (py "[Oh  My]") _ eq_refl) as H.
  split; [|exact (proj2 H)]. reflexivity.
Defined.

(** ** [from_text]: what it accepts and what it returns *)

Lemma from_text_matched (raw_ : str) (textgrid_ : option str) (m : Match) :
  re_match Interval.interval_pattern (strip raw_) = Some m ->
  exists N F1 F2 T,
    (group (groups m) Interval.g_index = Some N /\
     group (groups m) Interval.g_xmin = Some F1 /\
     group (groups m) Interval.g_xmax = Some F2 /\
     group (groups m) Interval.g_text = Some T) /\
    run isdecimal N = true /\ decimal_literal F1 = true /\
    decimal_literal F2 = true /\
    Interval.from_text raw_ textgrid_ =
    ok (interval_of N F1 F2 T raw_ textgrid_).
Proof.
  intros Hm. unfold Interval.from_text. rewrite Hm.
  apply re_match_inv in Hm. destruct Hm as (s1 & E & _).
  generalize dependent (groups m). intros c E.
  assert (Hinv : fields_inv c).
  { apply (rmatch_sound fields_inv) in E.
    - destruct E as (_ & s2 & c2 & _ & _ & Hc2 & E). inversion E; subst.
      exact Hc2.
    - apply fields_inv_pattern.
    - repeat split; discriminate. }
  assert (Hset : forall g, sets_group Interval.interval_pattern g = true ->
                           group c g <> None).
  { intros g Hg. destruct (rmatch_sets_group g _ _ _ _ _ Hg E)
      as (s2 & c2 & Hc2 & E2). inversion E2; subst. exact Hc2. }
  destruct Hinv as (I1 & I2 & I3).
  destruct (group c Interval.g_index) as [N|] eqn:EN;
    [|exfalso; apply (Hset Interval.g_index eq_refl); exact EN].
  destruct (group c Interval.g_xmin) as [F1|] eqn:E1;
    [|exfalso; apply (Hset Interval.g_xmin eq_refl); exact E1].
  destruct (group c Interval.g_xmax) as [F2|] eqn:E2;
    [|exfalso; apply (Hset Interval.g_xmax eq_refl); exact E2].
  destruct (group c Interval.g_text) as [T|] eqn:ET;
    [|exfalso; apply (Hset Interval.g_text eq_refl); exact ET].
  exists N, F1, F2, T. specialize (I1 N eq_refl).
  specialize (I2 F1 eq_refl). specialize (I3 F2 eq_refl).
  repeat split; auto. unfold Interval.init.
  rewrite (py_int_digits N I1), (py_float_literal F1 I2),
    (py_float_literal F2 I3).
  reflexivity.
Qed.

Lemma re_match_prefix (r : regex) (s : str) :
  re_match r s <> None <-> exists u rest, s = u ++ rest /\ matches r u.
Proof.
  unfold re_match. split.
  - destruct (rmatch r s [] _) as [[c s1]|] eqn:E; [|congruence].
    intros _. apply (rmatch_sound (fun _ => True)) in E;
      [|apply group_pres_all; auto|exact I].
    destruct E as (u & s2 & _ & -> & Hu & _). eauto.
  - intros (u & rest & -> & Hu).
    pose proof (rmatch_complete r u Hu rest []
                  (fun s1 c1 => Some (c1, s1))) as H.
    destruct (rmatch r (u ++ rest) [] _) as [[c s1]|]; [discriminate|].
    exfalso. apply H; [discriminate|reflexivity].
Qed.


Local Open Scope Z_scope.

Lemma binary_round_aux_nonneg (m e : Z) (l : location) :
  0 <= m -> float_le zero (binary_round_aux prec emax false m e l) = true.
Proof.
  intros H. unfold binary_round_aux.
  pose proof (shr_fexp_nonneg m e l H) as H1.
  destruct (shr_fexp prec emax m e l) as [mrs1 e1]. simpl in H1.
  pose proof (shr_fexp_nonneg _ e1 loc_Exact
                (round_nearest_even_nonneg _ (loc_of_shr_record mrs1) H1)) as H2.
  destruct (shr_fexp prec emax _ e1 loc_Exact) as [mrs2 e2]. simpl in H2.
  destruct (shr_m mrs2) as [|p|p]; try reflexivity; [|lia].
  destruct (e2 <=? emax - prec); reflexivity.
Qed.

Lemma float_of_ratio_nonneg (n d : Z) :
  0 < d -> float_le zero (float_of_ratio n d) = true.
Proof.
  intros Hd. unfold float_of_ratio. destruct n as [|p|p]; try reflexivity.
  unfold SFdiv_core_binary.
  set (s := _ - _ - _).
  set (m1 := match s with Z0 => _ | Zpos _ => _ | Zneg _ => _ end).
  assert (Hm : 0 <= m1).
  { subst m1. destruct s; try lia. apply Z.shiftl_nonneg. lia. }
  pose proof (Z.div_pos m1 d Hm Hd) as Hq. unfold Z.div in Hq.
  destruct (Z.div_eucl m1 d) as [q r]. simpl in Hq.
  apply binary_round_aux_nonneg. exact Hq.
Qed.

Lemma literal_value_nonneg (F : str) :
  float_le zero (literal_value F) = true.
Proof.
  unfold literal_value. destruct (span isdecimal F) as [ip rest].
  apply float_of_ratio_nonneg. apply Z.pow_pos_nonneg; lia.
Qed.

Lemma int_of_digits_nonneg (s : str) : 0 <= int_of_digits s.
Proof.
  unfold int_of_digits.
  assert (H : forall acc, 0 <= acc ->
                0 <= fold_left (fun a c => 10 * a + digit_value c) s acc).
  { induction s as [|c s IH]; intros acc Hacc; cbn [fold_left];
      [exact Hacc|].
    apply IH. unfold digit_value. lia. }
  apply H. lia.
Qed.

Local Close Scope Z_scope.

(** X8. What every interval of [from_text] satisfies: its [raw] is the
    text it was given and its [textgrid] the given file, its [index] is
    not negative, its [xmin] and [xmax] are numbers (not NaN) that are not
    below zero, and the strings kept in [_args], the fields of [tuple],
    make the same interval again when they are given to the constructor
    by name. *)
Theorem from_text_fields (raw_ : str) (textgrid_ : option str)
  (iv : Interval.t) :
  Interval.from_text raw_ textgrid_ = ok iv ->
  Interval.raw iv = raw_ /\ Interval.textgrid iv = textgrid_ /\
  (0 <= Interval.index iv)%Z /\
  float_le zero (Interval.xmin iv) = true /\
  float_le zero (Interval.xmax iv) = true /\
  let '(a, b, x, i, g, r) := Interval._args iv in
  x = Interval.text iv /\ g = textgrid_ /\ r = raw_ /\
  Interval.init a b x i r g = ok iv.
Proof.
  intros H.
  destruct (re_match Interval.interval_pattern (strip raw_)) as [m|] eqn:E.
  - destruct (from_text_matched raw_ textgrid_ m E)
      as (N & F1 & F2 & T & _ & HN & H1 & H2 & E1).
    rewrite E1 in H. injection H as <-.
    cbn [interval_of Interval.raw Interval.textgrid Interval.index
           Interval.xmin Interval.xmax Interval.text Interval._args].
    repeat split; auto using int_of_digits_nonneg, literal_value_nonneg.
    unfold Interval.init.
    rewrite (py_int_digits N HN), (py_float_literal F1 H1),
      (py_float_literal F2 H2).
    reflexivity.
  - unfold Interval.from_text in H. rewrite E in H. discriminate.
Qed.

Lemma from_text_fields_witness :
  exists iv,
    Interval.from_text (py "  " ++ record_line "3" "0.25" "1" "ok lah") None
    = ok iv /\
    (0 <= Interval.index iv)%Z /\ float_le zero (Interval.xmin iv) = true.
Proof.
  eexists. split; [vm_compute; reflexivity|].
  pose proof (from_text_fields
                (py "  " ++ record_line "3" "0.25" "1" "ok lah") None _
                ltac:(vm_compute; reflexivity)) as H.
  split; [exact (proj1 (proj2 (proj2 H)))
         |exact (proj1 (proj2 (proj2 (proj2 H))))].
Defined.

(** ** White space around a record *)

Lemma dropwhile_app (p : ascii -> bool) (u v : str) :
  dropwhile p (u ++ v) =
  match dropwhile p u with
  | [] => dropwhile p v
  | a :: w => (a :: w) ++ v
  end.
Proof.
  induction u as [|a u IH]; simpl.
  - destruct (dropwhile p v); reflexivity.
  - destruct (p a); [exact IH|reflexivity].
Qed.

Lemma dropwhile_all (p : ascii -> bool) (u : str) :
  forallb p u = true -> dropwhile p u = [].
Proof.
  induction u as [|a u IH]; simpl; [reflexivity|].
  destruct (p a); [exact IH|discriminate].
Qed.

Lemma strip_surrounded (ws1 s ws2 : str) :
  forallb isspace ws1 = true -> forallb isspace ws2 = true ->
  strip (ws1 ++ s ++ ws2) = strip s.
Proof.
  intros H1 H2. unfold strip.
  rewrite dropwhile_app, (dropwhile_all _ _ H1).
  rewrite (dropwhile_app isspace s ws2), (dropwhile_all _ _ H2).
  destruct (dropwhile isspace s) as [|a w]; [reflexivity|].
  rewrite rev_app_distr, dropwhile_app.
  rewrite (dropwhile_all _ _ (forallb_rev _ _ H2)).
  destruct (dropwhile isspace (rev (a :: w))) eqn:E; [|reflexivity].
  destruct (rev (a :: w)) eqn:E2; [|reflexivity].
  apply (f_equal (@rev ascii)) in E2. rewrite rev_involutive in E2.
  discriminate.
Qed.

(** X9. White space around the text does not change what [from_text]
    reads: the text between white space gives the same outcome as the
    text alone, the same exception or the interval with the same fields,
    except that [raw] keeps the text as it was given, with its white
    space. *)
Theorem from_text_ignores_whitespace (raw_ ws1 ws2 : str)
  (textgrid_ : option str) :
  forallb isspace ws1 = true -> forallb isspace ws2 = true ->
  match Interval.from_text raw_ textgrid_ with
  | inr iv =>
      exists N F1 F2 T,
        iv = interval_of N F1 F2 T raw_ textgrid_ /\
        Interval.from_text (ws1 ++ raw_ ++ ws2) textgrid_ =
        ok (interval_of N F1 F2 T (ws1 ++ raw_ ++ ws2) textgrid_)
  | inl e => Interval.from_text (ws1 ++ raw_ ++ ws2) textgrid_ = inl e
  end.
Proof.
  intros H1 H2. pose proof (strip_surrounded ws1 raw_ ws2 H1 H2) as Es.
  destruct (re_match Interval.interval_pattern (strip raw_)) as [m|] eqn:E.
  - destruct (from_text_matched raw_ textgrid_ m E)
      as (N & F1 & F2 & T & (G1 & G2 & G3 & G4) & _ & _ & _ & E1).
    rewrite <- Es in E.
    destruct (from_text_matched (ws1 ++ raw_ ++ ws2) textgrid_ m E)
      as (N' & F1' & F2' & T' & (G1' & G2' & G3' & G4') & _ & _ & _ & E2).
    rewrite E1. exists N, F1, F2, T. split; [reflexivity|].
    rewrite E2. congruence.
  - unfold Interval.from_text. rewrite Es, E. reflexivity.
Qed.

Lemma from_text_ignores_whitespace_witness :
  Interval.from_text
    (newline ++ record_line "3" "0.25" "1" "ok lah" ++ py "  ") None =
  ok (interval_of (py "3") (py "0.25") (py "1") (py "ok lah")
        (newline ++ record_line "3" "0.25" "1" "ok lah" ++ py "  ") None).
Proof.
  pose proof (from_text_ignores_whitespace
                (record_line "3" "0.25" "1" "ok lah") newline (py "  ") None
                eq_refl eq_refl) as H.
  assert (E : Interval.from_text (record_line "3" "0.25" "1" "ok lah") None =
              ok (interval_of (py "3") (py "0.25") (py "1") (py "ok lah")
                    (record_line "3" "0.25" "1" "ok lah") None))
    by (vm_compute; reflexivity).
  rewrite E in H. destruct H as (N & F1 & F2 & T & Ei & H).
  apply (f_equal Interval._args) in Ei.
  cbn [interval_of Interval._args] in Ei.
  injection Ei as <- <- <- <-. exact H.
Defined.

(** ** Located blocks lie in the file text *)

(** The repetition of a group: when it ends after at least one
    iteration, the group holds the text of the last iteration, which lies
    in the input before what remains. *)
Lemma star_group_last (g : nat) (r : regex) (k : str -> caps -> answer)
  (x : caps * str) :
  forall n s c,
    star_loop (rmatch (Group g r)) k n s c = Some x ->
    exists s1 c1,
      k s1 c1 = Some x /\
      ((s1 = s /\ c1 = c) \/
       exists pre u, s = pre ++ u ++ s1 /\ group c1 g = Some u).
Proof.
  induction n as [|n IH]; intros s c H.
  - exists s, c. auto.
  - cbn [star_loop] in H.
    destruct (rmatch (Group g r) s c _) as [y|] eqn:E.
    + injection H as ->. rewrite rmatch_group in E.
      apply (rmatch_sound (fun _ => True)) in E;
        [|apply group_pres_all; auto|exact I].
      destruct E as (u & s1 & c1 & -> & _ & _ & E).
      rewrite consumed_app in E.
      destruct (length s1 <? length (u ++ s1)); [|discriminate].
      apply IH in E. destruct E as (s2 & c2 & Hk & [[-> ->]|Hx]).
      * exists s1, (set_group g u c1). split; [exact Hk|]. right.
        exists [], u. split; [reflexivity|]. simpl.
        rewrite Nat.eqb_refl. reflexivity.
      * destruct Hx as (pre & u' & -> & Hg). exists s2, c2.
        split; [exact Hk|]. right. exists (u ++ pre), u'.
        rewrite <- app_assoc. auto.
    + exists s, c. auto.
Qed.

(** The first group of a match of a repeated group holds the end of the
    matched text. *)
Lemma plus_group_suffix (r : regex) (s : str) (m : Match) :
  re_match (plus (Group 1 r)) s = Some m ->
  exists pre, whole m = pre ++ group_or_empty m 1.
Proof.
  intros H. apply re_match_inv in H. destruct H as (s1 & H & Hw).
  unfold plus in H. rewrite rmatch_cat, rmatch_group in H.
  apply (rmatch_sound (fun _ => True)) in H;
    [|apply group_pres_all; auto|exact I].
  destruct H as (u & s2 & c2 & -> & _ & _ & H).
  rewrite consumed_app in H. cbn [rmatch] in H.
  apply star_group_last in H.
  destruct H as (s3 & c3 & Hk & [[-> ->]|(pre & u' & -> & Hg)]);
    injection Hk as Hc Hs; subst s1; unfold group_or_empty; rewrite <- Hc.
  - exists []. rewrite Hw, consumed_app. reflexivity.
  - exists (u ++ pre). rewrite Hg, Hw.
    replace (u ++ pre ++ u' ++ s3) with ((u ++ pre ++ u') ++ s3)
      by (rewrite <- !app_assoc; reflexivity).
    rewrite consumed_app, <- app_assoc. reflexivity.
Qed.

Lemma in_order_suffixes (s : str) (ws bs : list str) :
  in_order s ws ->
  Forall2 (fun w b => exists pre, w = pre ++ b) ws bs ->
  in_order s bs.
Proof.
  intros H. revert bs. induction H as [s|p w rest ws H IH]; intros bs F.
  - inversion F. constructor.
  - inversion F as [|w0 b ws0 bs0 (pre & ->) F0]; subst.
    replace (p ++ (pre ++ b) ++ rest) with ((p ++ pre) ++ b ++ rest)
      by (rewrite <- !app_assoc; reflexivity).
    constructor. apply IH. exact F0.
Qed.

Lemma located_in_order (rawtext : str) :
  in_order rawtext (Conversation.located rawtext).
Proof.
  unfold Conversation.located, finditer.
  apply (in_order_suffixes _
           (map whole (scan Interval.interval_grouped_pattern 0 rawtext)));
    [apply (scan_in_order _ rawtext 0)|].
  assert (H : Forall (fun m => exists pre, whole m = pre ++ group_or_empty m 1)
                     (scan Interval.interval_grouped_pattern 0 rawtext)).
  { apply Forall_forall. intros m Hm. apply scan_In in Hm.
    destruct Hm as (s1 & Hm).
    apply (plus_group_suffix Interval.interval_record s1 m Hm). }
  induction H as [|m l Hm _ IH]; simpl; constructor; assumption.
Qed.

(** X10. The intervals of a file come from the file text in its order:
    the [raw] texts of the intervals that [generate_intervals] yields are
    pieces of the text that [open_textgrid] returned, one after the other
    without overlap, and every one of them is a complete record. *)
Theorem generate_intervals_in_order (open_textgrid : str -> str)
  (filepath : str) :
  let gen := Conversation.generate_intervals open_textgrid filepath in
  in_order (open_textgrid filepath) (map Interval.raw (intervals gen)) /\
  Forall (fun iv => matches Interval.interval_record (Interval.raw iv) /\
                    Interval.textgrid iv = Some filepath)
         (intervals gen).
Proof.
  intros gen. subst gen.
  destruct (generate_intervals_spec open_textgrid filepath)
    as (ivs & E & Hr & Hp).
  rewrite E, intervals_items, Hr. split; [apply located_in_order|].
  pose proof (located_records (open_textgrid filepath)) as H.
  rewrite <- Hr in H. rewrite Forall_forall in *. intros iv Hiv. split.
  - apply H. apply in_map. exact Hiv.
  - apply (Hp iv Hiv).
Qed.

(** ** [linearize] without an order on the files *)

(** X11. Whatever the order of the intervals in the two files,
    [linearize] loses and repeats nothing: what it yields before its
    error is an interleaving of the intervals of the two files, each
    taken once and in the order of its file, so as many items as the two
    files have intervals. *)
Theorem linearize_keeps_every_interval (open_textgrid : str -> str)
  (self : Conversation.t) :
  let l1 :=
    intervals (Conversation.generate_intervals open_textgrid
                 (Conversation.textgrid1 self)) in
  let l2 :=
    intervals (Conversation.generate_intervals open_textgrid
                 (Conversation.textgrid2 self)) in
  let out := yields (Conversation.linearize open_textgrid self) in
  (exists tagged, map snd tagged = out /\ interleaved l1 l2 tagged) /\
  Permutation (l1 ++ l2) out /\
  length out = length l1 + length l2.
Proof.
  intros l1 l2 out.
  destruct (linearize_spec open_textgrid self) as (E & _ & _).
  fold l1 l2 in E. subst out. rewrite E. cbn [yields].
  pose proof (merge_tagged_interleaved l1 l2) as Hi.
  pose proof (interleaved_permutation l1 l2 _ Hi) as Hp.
  split; [exists (merge_tagged l1 l2); auto|]. split; [exact Hp|].
  rewrite <- (Permutation_length Hp). apply length_app.
Qed.

(** ** [truncated] *)

(** X12. [truncated(s, maxlen)] with [maxlen] of 3 or more (the default
    is 30) returns [s] itself when it has at most [maxlen] characters,
    and otherwise the first [maxlen - 3] characters of [s] followed by
    three points: in both cases a text of at most [maxlen] characters,
    which a second call leaves as it is. *)
Theorem truncated_bound (s : str) (maxlen : Z) :
  (3 <= maxlen)%Z ->
  length (truncated s maxlen) = Nat.min (length s) (Z.to_nat maxlen) /\
  (Z.of_nat (length s) <= maxlen -> truncated s maxlen = s)%Z /\
  (maxlen < Z.of_nat (length s) ->
   truncated s maxlen = firstn (Z.to_nat maxlen - 3) s ++ py "...")%Z /\
  truncated (truncated s maxlen) maxlen = truncated s maxlen.
Proof.
  intros H.
  assert (E : (maxlen < Z.of_nat (length s))%Z ->
              truncated s maxlen = firstn (Z.to_nat maxlen - 3) s ++ py "...").
  { intros Hl. unfold truncated, slice_to.
    apply Z.ltb_lt in Hl. rewrite Hl.
    replace (0 <=? maxlen - 3)%Z with true by (symmetry; apply Z.leb_le; lia).
    replace (Z.to_nat (maxlen - 3)) with (Z.to_nat maxlen - 3) by lia.
    reflexivity. }
  assert (L : length (truncated s maxlen)
              = Nat.min (length s) (Z.to_nat maxlen)).
  { destruct (Z.ltb_spec maxlen (Z.of_nat (length s))) as [Hl|Hl].
    - rewrite (E Hl), length_app, length_firstn. simpl. lia.
    - unfold truncated. apply Z.ltb_ge in Hl. rewrite Hl. lia. }
  split; [exact L|]. split; [|split; [exact E|]].
  - intros Hl. unfold truncated. apply Z.ltb_ge in Hl. rewrite Hl.
    reflexivity.
  - unfold truncated at 1. rewrite L.
    replace (maxlen <? _)%Z with false; [reflexivity|].
    symmetry. apply Z.ltb_ge. lia.
Qed.

Lemma truncated_bound_witness :
  truncated (py "how are you today, my dear friend?") 30 =
  py "how are you today, my dear ...".
Proof.
  rewrite (proj1 (proj2 (proj2 (truncated_bound
             (py "how are you today, my dear friend?") 30 ltac:(lia))))
             ltac:(simpl; lia)).
  reflexivity.
Defined.

(** X13. With [maxlen] below 3, [truncated] does not shorten to
    [maxlen]: a text longer than [maxlen] comes back with three points
    in place of its last [3 - maxlen] characters, so with 3 characters
    or more, and a text of fewer than 3 characters comes back longer
    than it went in. *)
Theorem truncated_small_maxlen (s : str) (maxlen : Z) :
  (0 <= maxlen < 3)%Z -> (maxlen < Z.of_nat (length s))%Z ->
  truncated s maxlen = firstn (length s - (3 - Z.to_nat maxlen)) s ++ py "..."
  /\ (maxlen < Z.of_nat (length (truncated s maxlen)))%Z
  /\ (length s < 3 -> length s < length (truncated s maxlen)).
Proof.
  intros H Hl.
  assert (E : truncated s maxlen
              = firstn (length s - (3 - Z.to_nat maxlen)) s ++ py "...").
  { unfold truncated, slice_to. apply Z.ltb_lt in Hl. rewrite Hl.
    replace (0 <=? maxlen - 3)%Z with false by (symmetry; apply Z.leb_gt; lia).
    replace (Z.to_nat (- (maxlen - 3))) with (3 - Z.to_nat maxlen) by lia.
    reflexivity. }
  split; [exact E|]. rewrite E, length_app, length_firstn. simpl. lia.
Qed.

Lemma truncated_small_maxlen_witness :
  truncated (py "ab") 1 = py "...".
Proof.
  rewrite (proj1 (truncated_small_maxlen (py "ab") 1 ltac:(lia)
                    ltac:(simpl; lia))).
  reflexivity.
Defined.

(** ** Files of well-formed records *)

(** *** The pattern of a record on a record *)






(** *** The scan of a file *)



















(** ** The loader: the folders of the corpus *)

Lemma folders_induction (P : folders -> Prop) :
  (forall l, Forall (fun p => P (snd p)) l -> P (Folders l)) ->
  forall f, P f.
Proof.
  intros H. fix IH 1. intros [l]. apply H.
  induction l as [|[n s] l IHl]; constructor; [apply IH|exact IHl].
Qed.

Lemma find_app {A : Type} (f : A -> bool) (l1 l2 : list A) :
  find f (l1 ++ l2) =
  match find f l1 with Some x => Some x | None => find f l2 end.
Proof.
  induction l1 as [|a l1 IH]; simpl; [reflexivity|].
  destruct (f a); [reflexivity|exact IH].
Qed.

Lemma check_directory_spec (path_exists : str -> bool)
  (path_join : str -> str -> str) (expected_structure : folders) :
  forall rootdir,
    CorpusLoader.check_directory path_exists path_join rootdir
      expected_structure =
    match first_missing path_exists
            (folder_paths path_join rootdir expected_structure) with
    | Some p => inl (FileNotFoundError p)
    | None => inr tt
    end.
Proof.
  induction expected_structure as [l IH] using folders_induction.
  intros rootdir. unfold first_missing.
  cbn [CorpusLoader.check_directory folder_paths].
  induction IH as [|[n s] l Hs _ IHl]; [reflexivity|].
  cbn [snd] in Hs. cbn [find].
  destruct (path_exists (path_join rootdir n)); cbn [negb]; [|reflexivity].
  rewrite Hs, find_app. unfold first_missing.
  destruct (find _ (folder_paths path_join (path_join rootdir n) s));
    [reflexivity|exact IHl].
Qed.

(** X15. [check_directory] looks for the folders of the expected
    structure in order, each folder before the folders that it holds,
    and stops at the first one that does not exist, which it reports in
    a [FileNotFoundError]; it returns when they all exist.  For
    [CORPUS_STRUCTURE] these are seven folders: PART3 and its six
    folders. *)
Theorem check_directory_first_missing (path_exists : str -> bool)
  (path_join : str -> str -> str) (rootdir : str)
  (expected_structure : folders) :
  CorpusLoader.check_directory path_exists path_join rootdir
    expected_structure =
  match first_missing path_exists
          (folder_paths path_join rootdir expected_structure) with
  | Some p => inl (FileNotFoundError p)
  | None => inr tt
  end /\
  (CorpusLoader.check_directory path_exists path_join rootdir
     expected_structure = inr tt <->
   forall p, In p (folder_paths path_join rootdir expected_structure) ->
             path_exists p = true) /\
  folder_paths path_join rootdir CorpusLoader.CORPUS_STRUCTURE =
  let part3 := path_join rootdir (py "PART3") in
  [ part3;
    path_join part3 (py "Audio Same BoundaryMic");
    path_join part3 (py "Audio Same CloseMic");
    path_join part3 (py "Audio Separate IVR");
    path_join part3 (py "Audio Separate StandingMic");
    path_join part3 (py "Scripts Same");
    path_join part3 (py "Scripts Separate") ].
Proof.
  pose proof (check_directory_spec path_exists path_join expected_structure
                rootdir) as E.
  split; [exact E|]. split; [|reflexivity].
  rewrite E. unfold first_missing.
  destruct (find _ _) as [p|] eqn:F.
  - split; [discriminate|]. intros H. apply find_some in F.
    destruct F as [Hin Hp]. rewrite (H p Hin) in Hp. discriminate.
  - split; [|reflexivity]. intros _ p Hin.
    pose proof (find_none _ _ F p Hin) as Hp. apply negb_false_iff in Hp.
    exact Hp.
Qed.

(** X16. [set_corpus_directory] changes the directory of the loader
    exactly when the seven folders of [CORPUS_STRUCTURE] exist under the
    path; otherwise it raises a [FileNotFoundError] that names the path
    and the first missing folder.  The two caches of the loader are left
    as they are in both cases, so the conversations cached for the
    former directory stay. *)
Theorem set_corpus_directory_outcomes (path_exists : str -> bool)
  (path_join : str -> str -> str) (self : CorpusLoader.t) (path : str) :
  CorpusLoader.set_corpus_directory path_exists path_join self path =
  match first_missing path_exists
          (folder_paths path_join path CorpusLoader.CORPUS_STRUCTURE) with
  | Some missing =>
      inl (FileNotFoundError (missing_folder_message path missing))
  | None => inr (with_directory self path)
  end /\
  CorpusLoader.init path_exists path_join path =
  match first_missing path_exists
          (folder_paths path_join path CorpusLoader.CORPUS_STRUCTURE) with
  | Some missing =>
      inl (FileNotFoundError (missing_folder_message path missing))
  | None =>
      inr {| CorpusLoader.CORPUS_DIRECTORY := Some path;
             CorpusLoader.file_cache := [];
             CorpusLoader.convos_cache := [] |}
  end.
Proof.
  unfold CorpusLoader.init, CorpusLoader.set_corpus_directory.
  rewrite (check_directory_spec path_exists path_join
             CorpusLoader.CORPUS_STRUCTURE path).
  destruct (first_missing _ _); split; reflexivity.
Qed.

(** ** The loader: the cache of files *)

Lemma str_eqb_eq (a b : str) : str_eqb a b = true <-> a = b.
Proof.
  revert b. induction a as [|x a IH]; intros [|y b]; simpl;
    try (split; [discriminate|congruence]); [tauto|].
  rewrite andb_true_iff, ascii_eqb_eq, IH. split.
  - intros [-> ->]. reflexivity.
  - intros E. injection E as -> ->. auto.
Qed.

Lemma str_eqb_spec (a b : str) : reflect (a = b) (str_eqb a b).
Proof. apply iff_reflect. symmetry. apply str_eqb_eq. Qed.

Lemma str_eqb_refl (a : str) : str_eqb a a = true.
Proof. apply str_eqb_eq. reflexivity. Qed.

Lemma dict_get_set {A : Type} (d : dict A) (k k' : str) (v : A) :
  dict_get (dict_set d k v) k' =
  if str_eqb k' k then Some v else dict_get d k'.
Proof.
  induction d as [|[k0 v0] d IH]; cbn [dict_set dict_get].
  - destruct (str_eqb k' k); reflexivity.
  - destruct (str_eqb_spec k k0) as [->|Hk]; cbn [dict_get].
    + destruct (str_eqb k' k0); reflexivity.
    + rewrite IH. destruct (str_eqb_spec k' k0) as [->|Hk'];
        [|reflexivity].
      destruct (str_eqb_spec k0 k) as [->|_]; [congruence|reflexivity].
Qed.

Lemma dict_keys_set {A : Type} (d : dict A) (k : str) (v : A) :
  dict_keys (dict_set d k v) =
  if dict_has d k then dict_keys d else dict_keys d ++ [k].
Proof.
  unfold dict_has. induction d as [|[k0 v0] d IH];
    cbn [dict_set dict_get dict_keys map fst app]; [reflexivity|].
  destruct (str_eqb k k0); [reflexivity|].
  cbn [map fst]. fold (dict_keys (dict_set d k v)). rewrite IH.
  destruct (dict_get d k); reflexivity.
Qed.

Lemma dict_has_set {A : Type} (d : dict A) (k k' : str) (v : A) :
  dict_has (dict_set d k v) k' = str_eqb k' k || dict_has d k'.
Proof.
  unfold dict_has. rewrite dict_get_set. destruct (str_eqb k' k); reflexivity.
Qed.

(** What [_push_file_cache] does to a cache in which the extension is
    present. *)
Lemma push_file_cache_spec (cache : dict (dict str))
  (ext key path : str) (raise_error : bool) :
  dict_has cache ext = true ->
  match cache_get cache ext key with
  | Some known =>
      CorpusLoader._push_file_cache cache ext key path raise_error =
      if raise_error
      then raise (ValueError (py "Duplicated file " ++ path
                              ++ py "; already exists at " ++ known ++ py ")"))
      else ok (cache,
               [WarnExn (ValueError (py "Duplicated file " ++ path
                                     ++ py "; already exists at " ++ known
                                     ++ py ")"))])
  | None =>
      exists cache',
        CorpusLoader._push_file_cache cache ext key path raise_error
        = ok (cache', []) /\
        dict_keys cache' = dict_keys cache /\
        (forall ext', dict_has cache' ext' = dict_has cache ext') /\
        forall ext' key',
          cache_get cache' ext' key' =
          if str_eqb ext' ext && str_eqb key' key then Some path
          else cache_get cache ext' key'
  end.
Proof.
  unfold dict_has, cache_get, CorpusLoader._push_file_cache.
  intros H. destruct cache as [|item cache0]; [discriminate|].
  set (cache := item :: cache0) in *. clearbody cache.
  destruct (dict_get cache ext) as [d|] eqn:Ed; [|discriminate].
  destruct (dict_get d key) as [known|] eqn:Ek; [reflexivity|].
  eexists. split; [reflexivity|]. split; [|split].
  - rewrite dict_keys_set. unfold dict_has. rewrite Ed. reflexivity.
  - intros ext'. fold (dict_has (dict_set cache ext (dict_set d key path)) ext').
    rewrite dict_has_set. unfold dict_has.
    destruct (str_eqb_spec ext' ext) as [->|_]; [|reflexivity].
    rewrite Ed. reflexivity.
  - intros ext' key'. rewrite dict_get_set.
    destruct (str_eqb_spec ext' ext) as [->|_]; cbn [andb]; [|reflexivity].
    rewrite dict_get_set, Ed. destruct (str_eqb key' key); reflexivity.
Qed.


Lemma str_in_cons (x a : str) (l : list str) :
  str_in x (a :: l) = str_eqb x a || str_in x l.
Proof. reflexivity. Qed.

Lemma init_file_cache_from (extensions : list str) :
  forall d : dict (dict str),
    (forall ext key, cache_get d ext key = None) ->
    let cache := fold_left (fun d ext => dict_set d ext []) extensions d in
    (forall ext, dict_has cache ext = dict_has d ext || str_in ext extensions)
    /\ (forall ext key, cache_get cache ext key = None).
Proof.
  induction extensions as [|e es IH]; intros d Hd; cbn [fold_left].
  - split; [|exact Hd]. intros ext. rewrite orb_false_r. reflexivity.
  - destruct (IH (dict_set d e [])) as [H1 H2].
    + intros ext key. unfold cache_get. rewrite dict_get_set.
      destruct (str_eqb ext e); [reflexivity|apply Hd].
    + split; [|exact H2]. intros ext. rewrite H1, dict_has_set, str_in_cons.
      destruct (str_eqb ext e), (dict_has d ext); reflexivity.
Qed.

Lemma init_file_cache_spec (extensions : list str) :
  (forall ext,
     dict_has (CorpusLoader._init_file_cache extensions) ext
     = str_in ext extensions) /\
  (forall ext key,
     cache_get (CorpusLoader._init_file_cache extensions) ext key = None).
Proof.
  destruct (init_file_cache_from extensions []) as [H1 H2];
    [reflexivity|]. split; [exact H1|exact H2].
Qed.

Lemma file_named_spec (basename : str -> str) (ext key filepath : str) :
  file_named basename ext key filepath = true <->
  rsplit_dot (lower (basename filepath)) = Some (key, ext).
Proof.
  unfold file_named. destruct (rsplit_dot _) as [[n e]|].
  - rewrite andb_true_iff, !str_eqb_eq. split.
    + intros [-> ->]. reflexivity.
    + intros E. injection E as -> ->. auto.
  - split; discriminate.
Qed.

(** The loop of [_cache_files] never raises, and keeps for every name
    the first file that bears it. *)
Lemma cache_loop_spec (basename : str -> str) (files : list str) :
  forall cache warned,
    exists cache' issued,
      CorpusLoader.cache_loop basename files cache warned
      = (None, cache', issued) /\
      (forall ext, dict_has cache' ext = dict_has cache ext) /\
      forall ext key,
        cache_get cache' ext key =
        match cache_get cache ext key with
        | Some p => Some p
        | None =>
            match ext with
            | [] => None
            | _ => if dict_has cache ext
                   then find (file_named basename ext key) files
                   else None
            end
        end.
Proof.
  induction files as [|fp files IH]; intros cache warned.
  - exists cache, warned. split; [reflexivity|]. split; [reflexivity|].
    intros ext key. destruct (cache_get cache ext key); [reflexivity|].
    destruct ext; [reflexivity|]. destruct (dict_has cache _); reflexivity.
  - cbn [CorpusLoader.cache_loop find].
    assert (Skip : (forall ext key,
                      ext <> [] -> dict_has cache ext = true ->
                      file_named basename ext key fp = false) ->
                   exists cache' issued,
                     CorpusLoader.cache_loop basename files cache warned
                     = (None, cache', issued) /\
                     (forall ext, dict_has cache' ext = dict_has cache ext) /\
                     forall ext key,
                       cache_get cache' ext key =
                       match cache_get cache ext key with
                       | Some p => Some p
                       | None =>
                           match ext with
                           | [] => None
                           | _ =>
                               if dict_has cache ext
                               then if file_named basename ext key fp
                                    then Some fp
                                    else find (file_named basename ext key)
                                           files
                               else None
                           end
                       end).
    { intros Hn. destruct (IH cache warned) as (c' & w' & E & Hh & Hg).
      exists c', w'. split; [exact E|]. split; [exact Hh|].
      intros ext key. rewrite Hg.
      destruct (cache_get cache ext key); [reflexivity|].
      destruct ext as [|a ext]; [reflexivity|].
      destruct (dict_has cache (a :: ext)) eqn:Hd; [|reflexivity].
      rewrite (Hn (a :: ext) key); [reflexivity|discriminate|exact Hd]. }
    destruct (rsplit_dot (lower (basename fp))) as [[name e]|] eqn:Er.
    + destruct e as [|a e].
      * apply Skip. intros ext key Hext _. apply not_true_is_false.
        intros H. apply file_named_spec in H. rewrite Er in H.
        injection H as _ <-. congruence.
      * destruct (dict_has cache (a :: e)) eqn:Hd; cbn [negb].
        -- pose proof (push_file_cache_spec cache (a :: e) name fp false Hd)
             as Hp.
           destruct (cache_get cache (a :: e) name) as [known|] eqn:Ek.
           ++ rewrite Hp. cbn [ok].
              destruct (IH cache
                          (warned ++
                           [WarnExn
                              (ValueError
                                 (py "Duplicated file " ++ fp
                                  ++ py "; already exists at " ++ known
                                  ++ py ")"))]))
                as (c' & w' & E & Hh & Hg).
              exists c', w'. split; [exact E|]. split; [exact Hh|].
              intros ext key. rewrite Hg.
              destruct (cache_get cache ext key) eqn:Eg; [reflexivity|].
              destruct ext as [|b ext]; [reflexivity|].
              destruct (dict_has cache (b :: ext)); [|reflexivity].
              destruct (file_named basename (b :: ext) key fp) eqn:Ef;
                [|reflexivity].
              apply file_named_spec in Ef. rewrite Er in Ef.
              injection Ef as <- <-. congruence.
           ++ destruct Hp as (c1 & -> & _ & Hh1 & Hg1). cbn [ok].
              destruct (IH c1 (warned ++ [])) as (c' & w' & E & Hh & Hg).
              exists c', w'. split; [exact E|]. split.
              ** intros ext. rewrite Hh. apply Hh1.
              ** intros ext key. rewrite Hg, Hg1, Hh1.
                 destruct (str_eqb_spec ext (a :: e)) as [->|Hx]; cbn [andb].
                 --- destruct (str_eqb_spec key name) as [->|Hk].
                     +++ rewrite Ek, Hd.
                         rewrite (proj2 (file_named_spec basename _ _ fp) Er).
                         reflexivity.
                     +++ destruct (cache_get cache (a :: e) key);
                           [reflexivity|].
                         rewrite Hd.
                         destruct (file_named basename (a :: e) key fp) eqn:Ef;
                           [|reflexivity].
                         apply file_named_spec in Ef. rewrite Er in Ef.
                         injection Ef as <-. congruence.
                 --- destruct (cache_get cache ext key); [reflexivity|].
                     destruct ext as [|b ext]; [reflexivity|].
                     destruct (dict_has cache (b :: ext)); [|reflexivity].
                     destruct (file_named basename (b :: ext) key fp) eqn:Ef;
                       [|reflexivity].
                     apply file_named_spec in Ef. rewrite Er in Ef.
                     injection Ef as _ <-. congruence.
        -- apply Skip. intros ext key _ Hx. apply not_true_is_false.
           intros H. apply file_named_spec in H. rewrite Er in H.
           injection H as _ <-. congruence.
    + apply Skip. intros ext key _ _. unfold file_named. rewrite Er.
      reflexivity.
Qed.

Lemma cache_files_spec (recursive_get_files : str -> list str)
  (basename : str -> str) (path : str) (extensions : list str) :
  exists cache issued,
    CorpusLoader._cache_files recursive_get_files basename path extensions
    = (None, cache, issued) /\
    (forall ext, dict_has cache ext = str_in ext extensions) /\
    forall ext key,
      cache_get cache ext key =
      match ext with
      | [] => None
      | _ => if str_in ext extensions
             then find (file_named basename ext key)
                       (recursive_get_files path)
             else None
      end.
Proof.
  unfold CorpusLoader._cache_files.
  destruct (cache_loop_spec basename (recursive_get_files path)
              (CorpusLoader._init_file_cache extensions) [])
    as (cache & issued & E & Hh & Hg).
  destruct (init_file_cache_spec extensions) as [I1 I2].
  exists cache, issued. split; [exact E|]. split.
  - intros ext. rewrite Hh. apply I1.
  - intros ext key. rewrite Hg, I2, I1. reflexivity.
Qed.

(** X18. [_cache_files] never raises, whatever the files and the
    extensions.  The cache it returns has a [dict] for each extension of
    the list, and under an extension and a file key it holds the first
    file, in the order of the listing, whose name in lower case is the
    key, a point and the extension, the extension being the text after
    the last point; files without a point, without a text after
    it, or with another extension are left out. *)
Theorem cache_files_first_wins (recursive_get_files : str -> list str)
  (basename : str -> str) (path : str) (extensions : list str) :
  exists cache issued,
    CorpusLoader._cache_files recursive_get_files basename path extensions
    = (None, cache, issued) /\
    (forall ext, dict_has cache ext = str_in ext extensions) /\
    (forall ext key,
       cache_get cache ext key =
       match ext with
       | [] => None
       | _ => if str_in ext extensions
              then find (file_named basename ext key)
                        (recursive_get_files path)
              else None
       end) /\
    (forall ext key filepath,
       cache_get cache ext key = Some filepath ->
       In filepath (recursive_get_files path) /\
       rsplit_dot (lower (basename filepath)) = Some (key, ext)).
Proof.
  destruct (cache_files_spec recursive_get_files basename path extensions)
    as (cache & issued & E & Hh & Hg).
  exists cache, issued. repeat split; auto.
  - rewrite Hg in H. destruct ext; [discriminate|].
    destruct (str_in _ extensions); [|discriminate].
    apply find_some in H. apply H.
  - rewrite Hg in H. destruct ext; [discriminate|].
    destruct (str_in _ extensions); [|discriminate].
    apply find_some in H. apply file_named_spec. apply H.
Qed.

(** ** The loader: the matches of audio and transcript *)

Lemma str_in_In (x : str) (l : list str) : str_in x l = true <-> In x l.
Proof.
  unfold str_in. rewrite existsb_exists. split.
  - intros (y & Hy & E). apply str_eqb_eq in E. subst. exact Hy.
  - intros H. exists x. split; [exact H|apply str_eqb_refl].
Qed.

Lemma dict_has_keys {A : Type} (d : dict A) (k : str) :
  dict_has d k = str_in k (dict_keys d).
Proof.
  unfold dict_has. induction d as [|[k0 v] d IH]; [reflexivity|].
  cbn [dict_get dict_keys map fst]. rewrite str_in_cons.
  destruct (str_eqb k k0); [reflexivity|exact IH].
Qed.

Lemma dict_has_get {A : Type} (d : dict A) (k : str) :
  dict_has d k = true <-> dict_get d k <> None.
Proof.
  unfold dict_has. destruct (dict_get d k); split; congruence.
Qed.

Lemma match_loop_spec (cache : dict (dict str)) (wavs tgs : dict str) :
  dict_get cache (py "wav") = Some wavs ->
  dict_get cache (py "textgrid") = Some tgs ->
  forall keys acc,
    (forall k, In k keys -> dict_has wavs k = true /\ dict_has tgs k = true) ->
    exists m,
      CorpusLoader.match_loop cache keys acc = inr m /\
      forall k,
        dict_get m k =
        if str_in k keys
        then match dict_get wavs k, dict_get tgs k with
             | Some w, Some g => Some (w, g)
             | _, _ => None
             end
        else dict_get acc k.
Proof.
  intros Hw Ht. induction keys as [|k0 keys IH]; intros acc Hk.
  - exists acc. split; [reflexivity|]. intros k. reflexivity.
  - cbn [CorpusLoader.match_loop]. rewrite Hw, Ht.
    destruct (Hk k0 (or_introl eq_refl)) as [H1 H2].
    unfold dict_has in H1, H2.
    destruct (dict_get wavs k0) as [w0|] eqn:E1; [|discriminate].
    destruct (dict_get tgs k0) as [g0|] eqn:E2; [|discriminate].
    destruct (IH (dict_set acc k0 (w0, g0))) as (m & E & Hm).
    { intros k Hin. apply Hk. right. exact Hin. }
    exists m. split; [exact E|]. intros k. rewrite Hm, str_in_cons.
    destruct (str_in k keys) eqn:Ein.
    + rewrite orb_true_r. reflexivity.
    + rewrite orb_false_r, dict_get_set.
      destruct (str_eqb_spec k k0) as [->|_]; [|reflexivity].
      rewrite E1, E2. reflexivity.
Qed.

Lemma set_eq_spec (a b : list str) :
  CorpusLoader.set_eq a b = true <-> forall k, In k a <-> In k b.
Proof.
  unfold CorpusLoader.set_eq, CorpusLoader.set_has.
  rewrite andb_true_iff, !forallb_forall. split.
  - intros [H1 H2] k. split; intros H.
    + apply str_in_In. apply H1. exact H.
    + apply str_in_In. apply H2. exact H.
  - intros H. split; intros k Hk; apply str_in_In; apply H; exact Hk.
Qed.

Lemma iter_set_In (iter_set : list str -> list str) :
  (forall l, Permutation (iter_set l) l) ->
  forall l k, In k (iter_set l) <-> In k l.
Proof.
  intros H l k. split; apply Permutation_in; [apply H|].
  apply Permutation_sym. apply H.
Qed.

Lemma unmatched_names_In (ext shown : str) (diff other : list str)
  (name : str) :
  replace (py "textgrid") (py "TextGrid") ext = shown ->
  In name (CorpusLoader.unmatched_names ext diff other) <->
  exists k, name = k ++ py "." ++ shown /\ In k diff /\
            CorpusLoader.set_has other k = false.
Proof.
  intros Er. unfold CorpusLoader.unmatched_names. rewrite Er, in_map_iff.
  split.
  - intros (k & <- & Hk). apply filter_In in Hk. destruct Hk as [Hk Hn].
    apply negb_true_iff in Hn. exists k. auto.
  - intros (k & -> & Hk & Hn). exists k. split; [reflexivity|].
    apply filter_In. split; [exact Hk|]. apply negb_true_iff. exact Hn.
Qed.

(** What [find_matches_textgrid_to_wav] returns for a loader with a
    directory. *)
Lemma find_matches_spec (recursive_get_files : str -> list str)
  (basename : str -> str) (iter_set : list str -> list str)
  (self : CorpusLoader.t) (raise_unmatched : bool) (dir : str) :
  (forall l, Permutation (iter_set l) l) ->
  CorpusLoader.CORPUS_DIRECTORY self = Some dir ->
  let wav := first_file recursive_get_files basename dir (py "wav") in
  let tg := first_file recursive_get_files basename dir (py "textgrid") in
  exists cache issued,
    CorpusLoader._cache_files recursive_get_files basename dir
      [py "wav"; py "textgrid"] = (None, cache, issued) /\
    let self' :=
      {| CorpusLoader.CORPUS_DIRECTORY := Some dir;
         CorpusLoader.file_cache := cache;
         CorpusLoader.convos_cache := CorpusLoader.convos_cache self |} in
    (raise_unmatched = true /\
     (exists k, (wav k = None /\ tg k <> None) \/
                (wav k <> None /\ tg k = None)) /\
     CorpusLoader.find_matches_textgrid_to_wav recursive_get_files basename
       iter_set self raise_unmatched
     = (inl (AssertionError unmatched_message), self', issued))
    \/
    (exists matches_ uw ut issued',
       CorpusLoader.find_matches_textgrid_to_wav recursive_get_files basename
         iter_set self raise_unmatched
       = (inr (matches_, [(py "wav", uw); (py "textgrid", ut)]), self',
          issued') /\
       (forall k,
          dict_get matches_ k =
          match wav k, tg k with
          | Some w, Some g => Some (w, g)
          | _, _ => None
          end) /\
       (forall name,
          In name uw <->
          exists k, name = k ++ py ".wav" /\ wav k <> None /\ tg k = None) /\
       (forall name,
          In name ut <->
          exists k, name = k ++ py ".TextGrid" /\ tg k <> None /\
                    wav k = None) /\
       (raise_unmatched = true -> forall k, wav k = None <-> tg k = None)).
Proof.
  intros Hp Hdir wav tg.
  destruct (cache_files_spec recursive_get_files basename dir
              [py "wav"; py "textgrid"]) as (cache & issued & E & Hh & Hg).
  exists cache, issued. split; [exact E|]. intros self'.
  unfold CorpusLoader.find_matches_textgrid_to_wav. rewrite Hdir, E.
  cbv beta iota. fold self'.
  pose proof (Hh (py "wav")) as Hw. pose proof (Hh (py "textgrid")) as Ht.
  unfold dict_has in Hw, Ht.
  destruct (dict_get cache (py "wav")) as [wavs|] eqn:Ew; [|discriminate].
  destruct (dict_get cache (py "textgrid")) as [tgs|] eqn:Et; [|discriminate].
  assert (Gw : forall k, dict_get wavs k = wav k).
  { intros k. pose proof (Hg (py "wav") k) as H. unfold cache_get in H.
    rewrite Ew in H. exact H. }
  assert (Gt : forall k, dict_get tgs k = tg k).
  { intros k. pose proof (Hg (py "textgrid") k) as H. unfold cache_get in H.
    rewrite Et in H. exact H. }
  assert (Kw : forall k, In k (dict_keys wavs) <-> wav k <> None).
  { intros k. rewrite <- str_in_In, <- dict_has_keys, dict_has_get, Gw.
    reflexivity. }
  assert (Kt : forall k, In k (dict_keys tgs) <-> tg k <> None).
  { intros k. rewrite <- str_in_In, <- dict_has_keys, dict_has_get, Gt.
    reflexivity. }
  assert (Sw : forall k, CorpusLoader.set_has (dict_keys wavs) k = false
                         <-> wav k = None).
  { intros k. unfold CorpusLoader.set_has. rewrite <- dict_has_keys.
    unfold dict_has. rewrite Gw. destruct (wav k); split; congruence. }
  assert (St : forall k, CorpusLoader.set_has (dict_keys tgs) k = false
                         <-> tg k = None).
  { intros k. unfold CorpusLoader.set_has. rewrite <- dict_has_keys.
    unfold dict_has. rewrite Gt. destruct (tg k); split; congruence. }
  set (wav_keys := dict_keys wavs) in *. set (tg_keys := dict_keys tgs) in *.
  destruct (CorpusLoader.set_eq wav_keys tg_keys) eqn:Eq; cbn [negb andb].
  - right.
    assert (Same : forall k, wav k = None <-> tg k = None).
    { intros k. apply set_eq_spec with (k := k) in Eq.
      rewrite Kw, Kt in Eq. destruct (wav k), (tg k); split; try congruence;
        intros _; exfalso; [apply (proj1 Eq)|apply (proj2 Eq)]; congruence. }
    destruct (match_loop_spec cache wavs tgs Ew Et
                (iter_set (filter (CorpusLoader.set_has tg_keys) wav_keys)) [])
      as (m & Em & Hm).
    { intros k Hk. apply (proj1 (iter_set_In _ Hp _ _)) in Hk. apply filter_In in Hk.
      destruct Hk as [H1 H2]. split.
      - rewrite dict_has_keys. apply str_in_In. exact H1.
      - rewrite dict_has_keys. exact H2. }
    rewrite Em. do 4 eexists. split; [reflexivity|].
    split; [|split; [|split]].
    + intros k. rewrite Hm, <- Gw, <- Gt.
      destruct (str_in k _) eqn:Ein; [reflexivity|].
      destruct (dict_get wavs k) eqn:E1; [|reflexivity].
      destruct (dict_get tgs k) eqn:E2; [|reflexivity].
      exfalso. apply not_true_iff_false in Ein. apply Ein.
      apply str_in_In. apply (proj2 (iter_set_In _ Hp _ _)). apply filter_In. split.
      * apply Kw. rewrite <- Gw, E1. discriminate.
      * destruct (CorpusLoader.set_has tg_keys k) eqn:X; [reflexivity|].
        apply St in X. rewrite <- Gt, E2 in X. discriminate.
    + intros name. rewrite (unmatched_names_In (py "wav") (py "wav") _ _ _ eq_refl).
      split.
      * intros (k & -> & Hk & Hn). exists k. split; [reflexivity|].
        apply (proj1 (iter_set_In _ Hp _ _)) in Hk. apply in_app_iff in Hk.
        apply St in Hn. destruct Hk as [Hk|Hk]; apply filter_In in Hk;
          destruct Hk as [Hk _].
        -- apply Kw in Hk. auto.
        -- apply Kt in Hk. congruence.
      * intros (k & -> & H1 & H2). exists k. split; [reflexivity|].
        split; [|apply St; exact H2]. apply (proj2 (iter_set_In _ Hp _ _)).
        apply in_app_iff. left. apply filter_In. split; [apply Kw; exact H1|].
        apply negb_true_iff. apply St. exact H2.
    + intros name.
      rewrite (unmatched_names_In (py "textgrid") (py "TextGrid") _ _ _ eq_refl).
      split.
      * intros (k & -> & Hk & Hn). exists k. split; [reflexivity|].
        apply (proj1 (iter_set_In _ Hp _ _)) in Hk. apply in_app_iff in Hk.
        apply Sw in Hn. destruct Hk as [Hk|Hk]; apply filter_In in Hk;
          destruct Hk as [Hk _].
        -- apply Kw in Hk. congruence.
        -- apply Kt in Hk. auto.
      * intros (k & -> & H1 & H2). exists k. split; [reflexivity|].
        split; [|apply Sw; exact H2]. apply (proj2 (iter_set_In _ Hp _ _)).
        apply in_app_iff. right. apply filter_In. split; [apply Kt; exact H1|].
        apply negb_true_iff. apply Sw. exact H2.
    + intros _. exact Same.
  - assert (Differ : exists k, (wav k = None /\ tg k <> None) \/
                               (wav k <> None /\ tg k = None)).
    { unfold CorpusLoader.set_eq in Eq. apply andb_false_iff in Eq.
      destruct Eq as [Eq|Eq].
      - assert (H : exists k, In k wav_keys /\
                              CorpusLoader.set_has tg_keys k = false).
        { clear -Eq. induction wav_keys as [|a l IH]; [discriminate|].
          simpl in Eq. destruct (CorpusLoader.set_has tg_keys a) eqn:Ea.
          - destruct (IH Eq) as (k & Hk & Hn). exists k. split; [right|]; auto.
          - exists a. split; [left; reflexivity|exact Ea]. }
        destruct H as (k & Hk & Hn). exists k. right.
        split; [apply Kw; exact Hk|apply St; exact Hn].
      - assert (H : exists k, In k tg_keys /\
                              CorpusLoader.set_has wav_keys k = false).
        { clear -Eq. induction tg_keys as [|a l IH]; [discriminate|].
          simpl in Eq. destruct (CorpusLoader.set_has wav_keys a) eqn:Ea.
          - destruct (IH Eq) as (k & Hk & Hn). exists k. split; [right|]; auto.
          - exists a. split; [left; reflexivity|exact Ea]. }
        destruct H as (k & Hk & Hn). exists k. left.
        split; [apply Sw; exact Hn|apply Kt; exact Hk]. }
    destruct raise_unmatched.
    + left. split; [reflexivity|]. split; [exact Differ|reflexivity].
    + right.
      destruct (match_loop_spec cache wavs tgs Ew Et
                  (iter_set (filter (CorpusLoader.set_has tg_keys) wav_keys))
                  [])
        as (m & Em & Hm).
      { intros k Hk. apply (proj1 (iter_set_In _ Hp _ _)) in Hk. apply filter_In in Hk.
        destruct Hk as [H1 H2]. split.
        - rewrite dict_has_keys. apply str_in_In. exact H1.
        - rewrite dict_has_keys. exact H2. }
      rewrite Em. do 4 eexists. split; [reflexivity|].
      split; [|split; [|split]].
      * intros k. rewrite Hm, <- Gw, <- Gt.
        destruct (str_in k _) eqn:Ein; [reflexivity|].
        destruct (dict_get wavs k) eqn:E1; [|reflexivity].
        destruct (dict_get tgs k) eqn:E2; [|reflexivity].
        exfalso. apply not_true_iff_false in Ein. apply Ein.
        apply str_in_In. apply (proj2 (iter_set_In _ Hp _ _)). apply filter_In. split.
        -- apply Kw. rewrite <- Gw, E1. discriminate.
        -- destruct (CorpusLoader.set_has tg_keys k) eqn:X; [reflexivity|].
           apply St in X. rewrite <- Gt, E2 in X. discriminate.
      * intros name. rewrite (unmatched_names_In (py "wav") (py "wav") _ _ _ eq_refl).
        split.
        -- intros (k & -> & Hk & Hn). exists k. split; [reflexivity|].
           apply (proj1 (iter_set_In _ Hp _ _)) in Hk. apply in_app_iff in Hk.
           apply St in Hn. destruct Hk as [Hk|Hk]; apply filter_In in Hk;
             destruct Hk as [Hk _].
           ++ apply Kw in Hk. auto.
           ++ apply Kt in Hk. congruence.
        -- intros (k & -> & H1 & H2). exists k. split; [reflexivity|].
           split; [|apply St; exact H2]. apply (proj2 (iter_set_In _ Hp _ _)).
           apply in_app_iff. left. apply filter_In.
           split; [apply Kw; exact H1|].
           apply negb_true_iff. apply St. exact H2.
      * intros name.
        rewrite (unmatched_names_In (py "textgrid") (py "TextGrid") _ _ _ eq_refl).
        split.
        -- intros (k & -> & Hk & Hn). exists k. split; [reflexivity|].
           apply (proj1 (iter_set_In _ Hp _ _)) in Hk. apply in_app_iff in Hk.
           apply Sw in Hn. destruct Hk as [Hk|Hk]; apply filter_In in Hk;
             destruct Hk as [Hk _].
           ++ apply Kw in Hk. congruence.
           ++ apply Kt in Hk. auto.
        -- intros (k & -> & H1 & H2). exists k. split; [reflexivity|].
           split; [|apply Sw; exact H2]. apply (proj2 (iter_set_In _ Hp _ _)).
           apply in_app_iff. right. apply filter_In.
           split; [apply Kt; exact H1|].
           apply negb_true_iff. apply Sw. exact H2.
      * discriminate.
Qed.

(** X19. [find_matches_textgrid_to_wav], for a loader with a directory
    and whatever the iteration order of the sets: a name is matched
    exactly when the listing holds an audio file and a transcript of
    that name, and is matched to the first of each; the unmatched names
    are those of the files that have only the one or only the other.
    It raises only the [AssertionError], when [raise_unmatched] is set
    and some name has only one of the two files.  The conversations
    cache is left as it is. *)
Theorem find_matches_outcomes (recursive_get_files : str -> list str)
  (basename : str -> str) (iter_set : list str -> list str)
  (self : CorpusLoader.t) (raise_unmatched : bool) (dir : str) :
  (forall l, Permutation (iter_set l) l) ->
  CorpusLoader.CORPUS_DIRECTORY self = Some dir ->
  let wav := first_file recursive_get_files basename dir (py "wav") in
  let tg := first_file recursive_get_files basename dir (py "textgrid") in
  let '(outcome, self', issued) :=
    CorpusLoader.find_matches_textgrid_to_wav recursive_get_files basename
      iter_set self raise_unmatched in
  CorpusLoader.convos_cache self' = CorpusLoader.convos_cache self /\
  CorpusLoader.CORPUS_DIRECTORY self' = Some dir /\
  match outcome with
  | inl e =>
      e = AssertionError unmatched_message /\ raise_unmatched = true /\
      exists k, (wav k = None /\ tg k <> None) \/
                (wav k <> None /\ tg k = None)
  | inr (matches_, unmatched) =>
      (forall k,
         dict_get matches_ k =
         match wav k, tg k with
         | Some w, Some g => Some (w, g)
         | _, _ => None
         end) /\
      (exists uw ut,
         unmatched = [(py "wav", uw); (py "textgrid", ut)] /\
         (forall name,
            In name uw <->
            exists k, name = k ++ py ".wav" /\ wav k <> None /\ tg k = None)
         /\
         (forall name,
            In name ut <->
            exists k, name = k ++ py ".TextGrid" /\ tg k <> None /\
                      wav k = None)) /\
      (raise_unmatched = true -> forall k, wav k = None <-> tg k = None)
  end.
Proof.
  intros Hp Hdir wav tg.
  destruct (find_matches_spec recursive_get_files basename iter_set self
              raise_unmatched dir Hp Hdir)
    as (cache & issued & _ & [(Hr & Hk & ->)|H]).
  - repeat split; auto.
  - destruct H as (m & uw & ut & issued' & -> & Hm & Hw & Ht & Hs).
    split; [reflexivity|]. split; [reflexivity|].
    split; [exact Hm|]. split; [|exact Hs].
    exists uw, ut. auto.
Qed.

Lemma find_matches_outcomes_witness :
  let '(outcome, _, issued) :=
    CorpusLoader.find_matches_textgrid_to_wav example_listing posix_basename
      listed_order example_loader false in
  match outcome with
  | inr (matches_, unmatched) =>
      dict_get matches_ (py "1234-2") =
      Some (py "/nsc/PART3/Audio Same CloseMic/1234-2.WAV",
            py "/nsc/PART3/Scripts Same/1234-2.TextGrid") /\
      dict_get unmatched (py "wav") = Some [py "conf_2501_2501_00862025.wav"]
      /\ issued = [WarnMsg unmatched_message]
  | inl _ => False
  end.
Proof.
  pose proof (find_matches_outcomes example_listing posix_basename
                listed_order example_loader false (py "/nsc")
                (fun l => Permutation_refl l) eq_refl) as H.
  cbv zeta in H.
  destruct (CorpusLoader.find_matches_textgrid_to_wav example_listing
              posix_basename listed_order example_loader false)
    as [[[e|[m u]] s'] w] eqn:E.
  - destruct H as (_ & _ & _ & Hr & _). discriminate.
  - destruct H as (_ & _ & Hm & _). split; [rewrite Hm; reflexivity|].
    vm_compute in E. injection E as _ <- _ <-. split; reflexivity.
Defined.

(** ** The loader: conversations *)









(** *** The keys of the conversations *)

Lemma group_free_pres (inv : caps -> Prop) (r : regex) :
  group_free r = true -> group_pres inv r.
Proof.
  induction r; cbn [group_free group_pres]; intros H; auto;
    try (apply andb_true_iff in H; destruct H; split; auto).
  discriminate.
Qed.

(** A match of a pattern that starts with its first group and has no
    other group: the group holds the start of the text. *)
Lemma first_group_match (r rest : regex) (s : str) (m : Match) :
  group_free rest = true ->
  re_match (Cat (Group 1 r) rest) s = Some m ->
  exists u v tail,
    s = u ++ v ++ tail /\ matches r u /\ matches rest v /\
    group_or_empty m 1 = u.
Proof.
  intros Hf H. apply re_match_inv in H. destruct H as (s1 & H & _).
  rewrite rmatch_cat, rmatch_group in H.
  apply (rmatch_sound (fun _ => True)) in H;
    [|apply group_pres_all; auto|exact I].
  destruct H as (u & s2 & c2 & -> & Hu & _ & H).
  rewrite consumed_app in H.
  apply (rmatch_sound (fun c => group c 1 = Some u)) in H;
    [|apply group_free_pres; exact Hf|reflexivity].
  destruct H as (v & tail & c3 & -> & Hv & Hg & E).
  injection E as E _. exists u, v, tail. unfold group_or_empty.
  rewrite <- E, Hg. auto.
Qed.

Lemma matches_rep_chr (p : ascii -> bool) (n : nat) :
  forall u, matches (rep n (Chr p)) u <->
            length u = n /\ forallb p u = true.
Proof.
  induction n as [|n IH]; intros u; cbn [rep].
  - split.
    + intros H. apply matches_eps_inv in H. subst. auto.
    + intros [H _]. destruct u; [constructor|discriminate].
  - split.
    + intros H. apply matches_cat_inv in H.
      destruct H as (x & y & -> & Hx & Hy).
      apply matches_chr_inv in Hx. destruct Hx as (a & -> & Ha).
      apply IH in Hy. destruct Hy as [Hl Hy]. cbn. rewrite Hl, Ha, Hy. auto.
    + intros [Hl Hu]. destruct u as [|a u]; [discriminate|].
      cbn in Hl, Hu. apply andb_true_iff in Hu. destruct Hu as [Ha Hu].
      change (a :: u) with ([a] ++ u). constructor; [constructor; exact Ha|].
      apply IH. split; [lia|exact Hu].
Qed.

Lemma matches_chr_one (a : ascii) (u : str) :
  matches (chr a) u <-> u = [a].
Proof.
  unfold chr. split.
  - intros H. apply matches_chr_inv in H. destruct H as (b & -> & Hb).
    apply ascii_eqb_eq in Hb. subst. reflexivity.
  - intros ->. constructor. apply ascii_eqb_refl.
Qed.

Lemma sameroom_text (t : str) :
  matches CorpusLoader.file_pattern_sameroom t <->
  exists k c, t = k ++ ["-"%char; c] /\ four_digits k /\
              (c = "1"%char \/ c = "2"%char).
Proof.
  unfold CorpusLoader.file_pattern_sameroom, CorpusLoader.digit.
  cbn [seq]. split.
  - intros H. apply matches_cat_inv in H. destruct H as (k & y & -> & Hk & H).
    apply matches_group_inv in Hk. apply matches_rep_chr in Hk.
    apply matches_cat_inv in H. destruct H as (d & z & -> & Hd & H).
    apply matches_chr_one in Hd. subst d.
    apply matches_cat_inv in H. destruct H as (c0 & e & -> & Hc & He).
    apply matches_eps_inv in He. subst e.
    apply matches_chr_inv in Hc. destruct Hc as (c & -> & Hc).
    exists k, c. split; [reflexivity|]. split; [exact Hk|].
    apply orb_true_iff in Hc. destruct Hc as [Hc|Hc];
      apply ascii_eqb_eq in Hc; auto.
  - intros (k & c & -> & Hk & Hc).
    constructor; [constructor; apply matches_rep_chr; exact Hk|].
    change ["-"%char; c] with (["-"%char] ++ [c] ++ []).
    constructor; [apply matches_chr_one; reflexivity|].
    constructor; [|constructor]. constructor.
    destruct Hc as [->| ->]; reflexivity.
Qed.

Lemma seproom_key_text (k : str) :
  matches (seq [lit (py "conf_"); rep 4 CorpusLoader.digit; chr "_"%char;
                rep 4 CorpusLoader.digit]) k <-> seproom_key k.
Proof.
  unfold seproom_key, CorpusLoader.digit. cbn [seq]. split.
  - intros H. apply matches_cat_inv in H. destruct H as (x & y & -> & Hx & H).
    apply matches_lit in Hx. subst x.
    apply matches_cat_inv in H. destruct H as (a & y' & -> & Ha & H).
    apply matches_rep_chr in Ha.
    apply matches_cat_inv in H. destruct H as (d & z & -> & Hd & H).
    apply matches_chr_one in Hd. subst d.
    apply matches_cat_inv in H. destruct H as (b & e & -> & Hb & He).
    apply matches_eps_inv in He. subst e. apply matches_rep_chr in Hb.
    exists a, b. rewrite app_nil_r. auto.
  - intros (a & b & -> & Ha & Hb).
    constructor; [apply matches_lit; reflexivity|].
    constructor; [apply matches_rep_chr; exact Ha|].
    constructor; [apply matches_chr_one; reflexivity|].
    rewrite <- (app_nil_r b). constructor; [|constructor].
    apply matches_rep_chr. exact Hb.
Qed.

Lemma seproom_text (t : str) :
  matches CorpusLoader.file_pattern_seproom t <->
  exists k d, t = k ++ "_"%char :: d /\ seproom_key k /\
              length d = 8 /\ forallb isdecimal d = true.
Proof.
  unfold CorpusLoader.file_pattern_seproom. cbn [seq]. split.
  - intros H. apply matches_cat_inv in H. destruct H as (k & y & -> & Hk & H).
    apply matches_group_inv in Hk. apply seproom_key_text in Hk.
    apply matches_cat_inv in H. destruct H as (u & z & -> & Hu & H).
    apply matches_chr_one in Hu. subst u.
    apply matches_cat_inv in H. destruct H as (d & e & -> & Hd & He).
    apply matches_eps_inv in He. subst e. apply matches_rep_chr in Hd.
    exists k, d. rewrite app_nil_r. tauto.
  - intros (k & d & -> & Hk & Hd).
    constructor; [constructor; apply seproom_key_text; exact Hk|].
    change ("_"%char :: d) with (["_"%char] ++ d).
    constructor; [apply matches_chr_one; reflexivity|].
    rewrite <- (app_nil_r d). constructor; [|constructor].
    apply matches_rep_chr. exact Hd.
Qed.

Lemma app_same_length {A : Type} (a b c d : list A) :
  a ++ b = c ++ d -> length a = length c -> a = c /\ b = d.
Proof.
  revert c. induction a as [|x a IH]; intros [|y c] E Hl;
    try discriminate; [auto|].
  injection E as -> E. destruct (IH c E ltac:(cbn in Hl; lia)) as [-> ->].
  auto.
Qed.

Lemma seproom_key_length (k : str) : seproom_key k -> length k = 14.
Proof.
  intros (a & b & -> & [Ha _] & [Hb _]). rewrite !length_app, Ha, Hb.
  reflexivity.
Qed.

Lemma seproom_key_start (k : str) :
  seproom_key k -> exists t, k = "c"%char :: t.
Proof. intros (a & b & -> & _). eexists. reflexivity. Qed.

Lemma sameroom_match (n : str) (m : Match) :
  re_match CorpusLoader.file_pattern_sameroom n = Some m ->
  exists c tail,
    n = group_or_empty m 1 ++ "-"%char :: c :: tail /\
    four_digits (group_or_empty m 1) /\ (c = "1"%char \/ c = "2"%char).
Proof.
  intros H. unfold CorpusLoader.file_pattern_sameroom in H. cbn [seq] in H.
  apply first_group_match in H; [|reflexivity].
  destruct H as (u & v & tail & -> & Hu & Hv & ->).
  apply matches_rep_chr in Hu.
  apply matches_cat_inv in Hv. destruct Hv as (d & z & -> & Hd & H).
  apply matches_chr_one in Hd. subst d.
  apply matches_cat_inv in H. destruct H as (c0 & e & -> & Hc & He).
  apply matches_eps_inv in He. subst e.
  apply matches_chr_inv in Hc. destruct Hc as (c & -> & Hc).
  exists c, tail. split; [reflexivity|]. split; [exact Hu|].
  apply orb_true_iff in Hc. destruct Hc as [Hc|Hc];
    apply ascii_eqb_eq in Hc; auto.
Qed.

Lemma seproom_match (n : str) (m : Match) :
  re_match CorpusLoader.file_pattern_seproom n = Some m ->
  exists d tail,
    n = group_or_empty m 1 ++ "_"%char :: d ++ tail /\
    seproom_key (group_or_empty m 1) /\
    length d = 8 /\ forallb isdecimal d = true.
Proof.
  intros H. unfold CorpusLoader.file_pattern_seproom in H. cbn [seq] in H.
  apply first_group_match in H; [|reflexivity].
  destruct H as (u & v & tail & -> & Hu & Hv & ->).
  apply seproom_key_text in Hu.
  apply matches_cat_inv in Hv. destruct Hv as (x & z & -> & Hx & H).
  apply matches_chr_one in Hx. subst x.
  apply matches_cat_inv in H. destruct H as (d & e & -> & Hd & He).
  apply matches_eps_inv in He. subst e. apply matches_rep_chr in Hd.
  exists d, tail. rewrite app_nil_r. tauto.
Qed.

(** X21. The key of a conversation is read at the start of the file
    name, and a name has a key in two cases only: four digits followed
    by a hyphen and 1 or 2, the key being the four digits; or [conf_],
    four digits, an underscore and four digits, followed by an
    underscore and eight digits, the key being the text before that
    underscore.  What comes after in the name does not count. *)
Theorem convokey_shape (n k : str) :
  convokey n = Some k <->
  (sameroom_key k /\
   exists c tail, n = k ++ "-"%char :: c :: tail /\
                  (c = "1"%char \/ c = "2"%char)) \/
  (seproom_key k /\
   exists d tail, n = k ++ "_"%char :: d ++ tail /\
                  length d = 8 /\ forallb isdecimal d = true).
Proof.
  unfold convokey, sameroom_key. split.
  - destruct (re_match CorpusLoader.file_pattern_sameroom n) as [m|] eqn:E1.
    + intros E. injection E as <-. left.
      destruct (sameroom_match n m E1) as (c & tail & En & Hk & Hc).
      split; [exact Hk|]. exists c, tail. auto.
    + destruct (re_match CorpusLoader.file_pattern_seproom n) as [m|] eqn:E2;
        [|discriminate].
      intros E. injection E as <-. right.
      destruct (seproom_match n m E2) as (d & tail & En & Hk & Hd).
      split; [exact Hk|]. exists d, tail. auto.
  - intros [(Hk & c & tail & -> & Hc)|(Hk & d & tail & -> & Hd)].
    + assert (Hm : re_match CorpusLoader.file_pattern_sameroom
                     (k ++ "-"%char :: c :: tail) <> None).
      { apply re_match_prefix. exists (k ++ ["-"%char; c]), tail.
        split; [rewrite <- app_assoc; reflexivity|].
        apply sameroom_text. exists k, c. auto. }
      destruct (re_match CorpusLoader.file_pattern_sameroom _) as [m|] eqn:E1;
        [|congruence].
      destruct (sameroom_match _ m E1) as (c' & tail' & En & Hk' & _).
      apply app_same_length in En;
        [|destruct Hk as [-> _], Hk' as [-> _]; reflexivity].
      destruct En as [-> _]. reflexivity.
    + destruct (seproom_key_start k Hk) as (t & Et).
      rewrite re_match_refused; [| reflexivity | rewrite Et; reflexivity].
      assert (Hm : re_match CorpusLoader.file_pattern_seproom
                     (k ++ "_"%char :: d ++ tail) <> None).
      { apply re_match_prefix. exists (k ++ "_"%char :: d), tail.
        split; [rewrite <- app_assoc; reflexivity|].
        apply seproom_text. exists k, d. tauto. }
      destruct (re_match CorpusLoader.file_pattern_seproom _) as [m|] eqn:E2;
        [|congruence].
      destruct (seproom_match _ m E2) as (d' & tail' & En & Hk' & _).
      apply app_same_length in En;
        [|rewrite (seproom_key_length _ Hk), (seproom_key_length _ Hk');
          reflexivity].
      destruct En as [-> _]. reflexivity.
Qed.






(** *** The conversations cache *)

Lemma find_convo_pairs_keeps (recursive_get_files : str -> list str)
  (basename : str -> str) (iter_set : list str -> list str)
  (self self' : CorpusLoader.t) (raise_unmatched : bool)
  (d : dict (str * str * str * str)) (issued : list warning) :
  CorpusLoader.find_convo_pairs recursive_get_files basename iter_set self
    raise_unmatched = (inr d, self', issued) ->
  CorpusLoader.convos_cache self' = d.
Proof.
  unfold CorpusLoader.find_convo_pairs.
  destruct (CorpusLoader.convos_cache self) eqn:Ec.
  - destruct (CorpusLoader.find_matches_textgrid_to_wav _ _ _ _ _)
      as [[[e|[m u]] s] w]; [discriminate|].
    destruct (convos <- CorpusLoader.collect_convos m [] ;;
              CorpusLoader.combine_convos convos []); [discriminate|].
    intros E. injection E as <- <- _. reflexivity.
  - intros E. injection E as <- <- _. exact Ec.
Qed.

(** X22. The conversations are computed once.  After a call of
    [find_convo_pairs] that returned conversations, at least one, every
    later call returns the same conversations without reading the
    files, whatever the file system holds by then and whatever
    [raise_unmatched] is, and also after [set_corpus_directory] has
    moved the loader to another directory: the cache is never
    cleared. *)
Theorem find_convo_pairs_cached (recursive_get_files : str -> list str)
  (basename : str -> str) (iter_set : list str -> list str)
  (self self' : CorpusLoader.t) (raise_unmatched : bool)
  (d : dict (str * str * str * str)) (issued : list warning) :
  CorpusLoader.find_convo_pairs recursive_get_files basename iter_set self
    raise_unmatched = (inr d, self', issued) ->
  d <> [] ->
  forall (files_now : str -> list str) (basename_now : str -> str)
         (iter_now : list str -> list str) (raise_now : bool),
    CorpusLoader.find_convo_pairs files_now basename_now iter_now self'
      raise_now = (inr d, self', []) /\
    forall (path_exists : str -> bool) (path_join : str -> str -> str)
           (path : str) (moved : CorpusLoader.t),
      CorpusLoader.set_corpus_directory path_exists path_join self' path
      = inr moved ->
      CorpusLoader.CORPUS_DIRECTORY moved = Some path /\
      CorpusLoader.find_convo_pairs files_now basename_now iter_now moved
        raise_now = (inr d, moved, []).
Proof.
  intros E Hd files_now basename_now iter_now raise_now.
  apply find_convo_pairs_keeps in E.
  assert (Again : forall s, CorpusLoader.convos_cache s = d ->
            CorpusLoader.find_convo_pairs files_now basename_now iter_now s
              raise_now = (inr d, s, [])).
  { intros s Hs. unfold CorpusLoader.find_convo_pairs. rewrite Hs.
    destruct d; [congruence|reflexivity]. }
  split; [apply Again; exact E|].
  intros path_exists path_join path moved Hm.
  unfold CorpusLoader.set_corpus_directory in Hm.
  destruct (CorpusLoader.check_directory _ _ _ _) as [[]|];
    try discriminate.
  injection Hm as <-. split; [reflexivity|]. apply Again. exact E.
Qed.

Lemma find_convo_pairs_cached_witness :
  exists d self',
    CorpusLoader.find_convo_pairs example_listing posix_basename listed_order
      example_loader false
    = (inr d, self', [WarnMsg unmatched_message]) /\
    CorpusLoader.find_convo_pairs (fun _ => []) posix_basename listed_order
      self' true = (inr d, self', []).
Proof.
  eexists. eexists.
  assert (E : CorpusLoader.find_convo_pairs example_listing posix_basename
                listed_order example_loader false
              = (inr [ (py "1234",
                        (py "/nsc/PART3/Audio Same CloseMic/1234-1.wav",
                         py "/nsc/PART3/Scripts Same/1234-1.TextGrid",
                         py "/nsc/PART3/Audio Same CloseMic/1234-2.WAV",
                         py "/nsc/PART3/Scripts Same/1234-2.TextGrid")) ],
                 {| CorpusLoader.CORPUS_DIRECTORY := Some (py "/nsc");
                    CorpusLoader.file_cache :=
                      snd (fst (CorpusLoader._cache_files example_listing
                                  posix_basename (py "/nsc")
                                  [py "wav"; py "textgrid"]));
                    CorpusLoader.convos_cache :=
                      [ (py "1234",
                         (py "/nsc/PART3/Audio Same CloseMic/1234-1.wav",
                          py "/nsc/PART3/Scripts Same/1234-1.TextGrid",
                          py "/nsc/PART3/Audio Same CloseMic/1234-2.WAV",
                          py "/nsc/PART3/Scripts Same/1234-2.TextGrid")) ] |},
                 [WarnMsg unmatched_message]))
    by (vm_compute; reflexivity).
  split; [exact E|].
  apply (find_convo_pairs_cached _ _ _ _ _ _ _ _ E ltac:(discriminate)
           (fun _ => []) posix_basename listed_order true).
Defined.
